(** * Region splitter and topology scanner of BR

    A shallow embedding of pkg/task/restore_raw.go.  Its core is the
    split-and-scatter orchestrator of package [restore]: the topology
    scan with its consistency check, the split-key planner, the split
    executor with its outer retry loop and the scatter coordinator,
    together with the key and range helpers of the import path.  The
    raw restore task of package [task], which drives a restore from
    the outside, is embedded as the sequence of calls it makes.

    Go slices of bytes are lists of bytes, Go's [int] and [time.Duration]
    are integers, maps are finite maps.  The cluster (the [SplitClient]
    interface), the clock and the log are an explicit world that every
    effectful function threads through; each call, sleep and log line is
    recorded on a trace.  Contexts and tracing spans carry no behaviour
    that the functions below branch on and are left out. *)

From Stdlib Require Import ZArith NArith List Bool Lia.
From Stdlib.Strings Require Import String Ascii Byte.
From stdpp Require Import base option list gmap fin_maps.

Local Open Scope Z_scope.

(** ** Byte slices: package [bytes] *)

Module bytes.

Definition cmp_byte (a b : byte) : comparison :=
  N.compare (Byte.to_N a) (Byte.to_N b).

(** [bytes.Compare]: lexicographic order, a proper prefix is smaller. *)
Fixpoint Compare (a b : list byte) : comparison :=
  match a, b with
  | [], [] => Eq
  | [], _ :: _ => Lt
  | _ :: _, [] => Gt
  | x :: a', y :: b' =>
      match cmp_byte x y with
      | Eq => Compare a' b'
      | c => c
      end
  end.

(** [bytes.Equal]: same length and same bytes; nil and empty agree. *)
Fixpoint Equal (a b : list byte) : bool :=
  match a, b with
  | [], [] => true
  | x :: a', y :: b' => Byte.eqb x y && Equal a' b'
  | _, _ => false
  end.

(** [bytes.Compare(a, b) < 0], [<= 0], [> 0] and [>= 0]. *)
Definition lt (a b : list byte) : bool :=
  match Compare a b with Lt => true | _ => false end.
Definition le (a b : list byte) : bool :=
  match Compare a b with Gt => false | _ => true end.
Definition gt (a b : list byte) : bool :=
  match Compare a b with Gt => true | _ => false end.
Definition ge (a b : list byte) : bool :=
  match Compare a b with Lt => false | _ => true end.

(** [bytes.HasPrefix]: [s] is at least as long as [prefix] and begins
    with it. *)
Definition HasPrefix (s prefix : list byte) : bool :=
  (length prefix <=? length s)%nat && Equal (take (length prefix) s) prefix.

End bytes.

(** A key is a byte slice; [len(k) == 0] covers nil and empty alike. *)
Definition key := list byte.

Definition is_empty (k : key) : bool :=
  match k with [] => true | _ => false end.

(** Keys written as text in the examples. *)
Definition bs (s : string) : key := list_byte_of_string s.

(** ** Strings: package [strings] *)

Module strings.

(** [strings.Contains]. *)
Definition Contains (s substr : string) : bool :=
  match String.index 0 substr s with
  | Some _ => true
  | None => false
  end.

End strings.

(** ** Memcomparable keys: [codec.EncodeBytes] of tikv/pd

    The input is cut into groups of 8 bytes; each group is padded with
    zero bytes to 8 and followed by a marker [0xFF - padding].  A final
    group is always written, so an input whose length is a multiple of
    8 ends with 8 zero bytes and the marker [0xF7]. *)

Module codec.

Definition encGroupSize : nat := 8.
Definition encMarker : N := 255.

Definition marker (padCount : nat) : byte :=
  match Byte.of_N (encMarker - N.of_nat padCount) with
  | Some b => b
  | None => x00
  end.

Fixpoint EncodeBytes_from (fuel : nat) (data : list byte) : list byte :=
  match fuel with
  | O => []
  | S fuel' =>
      let remain := length data in
      if (encGroupSize <=? remain)%nat then
        take encGroupSize data ++ marker 0
          :: EncodeBytes_from fuel' (drop encGroupSize data)
      else
        data ++ replicate (encGroupSize - remain) x00
          ++ [marker (encGroupSize - remain)]
  end.

(** The loop [for idx := 0; idx <= dLen; idx += encGroupSize] runs
    [dLen / 8 + 1] times. *)
Definition EncodeBytes (data : list byte) : list byte :=
  EncodeBytes_from (length data / encGroupSize + 1) data.

(** [codec.DecodeBytes] reads back what [EncodeBytes] wrote: group by
    group, 8 bytes and a marker, until a group that carries padding.
    It fails when fewer than 9 bytes are left, when a marker tells of
    more than 8 padding bytes, and when a padding byte is not zero.
    The result is the leftover input and the decoded bytes, or nil, nil
    and the error.  Every round takes 9 bytes off the input, which
    bounds the loop. *)
Fixpoint DecodeBytes_from (fuel : nat) (b data : list byte)
    : list byte * list byte * option string :=
  match fuel with
  | O => ([], [], Some "insufficient bytes to decode value"%string)
  | S fuel' =>
      if (length b <? encGroupSize + 1)%nat then
        ([], [], Some "insufficient bytes to decode value"%string)
      else
        let group := take encGroupSize b in
        let marker :=
          match b !! encGroupSize with Some m => Byte.to_N m | None => 0%N end in
        let padCount := N.to_nat (encMarker - marker) in
        if (encGroupSize <? padCount)%nat then
          ([], [], Some "invalid marker byte"%string)
        else
          let realGroupSize := (encGroupSize - padCount)%nat in
          let data := data ++ take realGroupSize group in
          let b := drop (encGroupSize + 1) b in
          if negb (padCount =? 0)%nat then
            (* Check validity of padding bytes. *)
            if negb (bytes.Equal (drop realGroupSize group) (replicate padCount x00))
            then ([], [], Some "invalid padding byte"%string)
            else (b, data, None)
          else DecodeBytes_from fuel' b data
  end.

Definition DecodeBytes (b : list byte) : list byte * list byte * option string :=
  DecodeBytes_from (S (length b)) b [].

End codec.

(** [hex.EncodeToString]: two lower-case digits per byte. *)
Module hex.

Definition digit (n : N) : ascii :=
  ascii_of_N (if (n <? 10)%N then 48 + n else 87 + n).

Fixpoint EncodeToString (src : list byte) : string :=
  match src with
  | [] => EmptyString
  | b :: rest =>
      let n := Byte.to_N b in
      String (digit (n / 16)) (String (digit (n mod 16)) (EncodeToString rest))
  end.

End hex.

(** ** Durations and machine integers *)

Module time.
(** [time.Duration] counts nanoseconds. *)
Definition Millisecond : Z := 1000000.
Definition Second : Z := 1000 * Millisecond.
End time.

(** Go's [int] on the 64-bit targets BR is built for: arithmetic wraps
    around in two's complement. *)
Definition int_wrap (z : Z) : Z := (z + 2 ^ 63) mod 2 ^ 64 - 2 ^ 63.

(** ** Errors: packages [errors] (pingcap) and [multierr] *)

Module errors.

(** The registered error classes that this file tests for or raises. *)
Inductive ErrorID :=
| BR_PD_ErrPDBatchScanRegion
| BR_PD_ErrPDInvalidResponse
| BR_Restore_ErrRestoreInvalidRange.

(** An error value: the class of its cause, when the cause is a
    registered error, and the text [Error()] prints. *)
Record error := { code : option ErrorID; msg : string }.

Definition ErrorID_eqb (a b : ErrorID) : bool :=
  match a, b with
  | BR_PD_ErrPDBatchScanRegion, BR_PD_ErrPDBatchScanRegion
  | BR_PD_ErrPDInvalidResponse, BR_PD_ErrPDInvalidResponse
  | BR_Restore_ErrRestoreInvalidRange, BR_Restore_ErrRestoreInvalidRange => true
  | _, _ => false
  end.

(** [e.Equal(err)]: false on nil, otherwise the causes have the same
    class. *)
Definition Equal (e : error) (err : option error) : bool :=
  match err with
  | None => false
  | Some err' =>
      match code e, code err' with
      | Some a, Some b => ErrorID_eqb a b
      | _, _ => false
      end
  end.

(** [errors.Annotatef]: the cause is kept, the text is put in front. *)
Definition Annotatef (err : error) (text : string) : error :=
  {| code := code err; msg := text ++ ": " ++ msg err |}.

(** [errors.Trace] records a stack and changes neither cause nor text. *)
Definition Trace (err : error) : error := err.

End errors.

Export errors(error).

Module berrors.
Import errors.

(** Modelled from the spec: the error registry of pkg/errors is not part
    of this file.  [ErrPDBatchScanRegion] is the designated
    inconsistent-scan error, [ErrRestoreInvalidRange] the invalid-input
    error and [ErrPDInvalidResponse] the coordinator's malformed answer;
    only their identity is ever tested. *)
Definition ErrPDBatchScanRegion : error :=
  {| code := Some BR_PD_ErrPDBatchScanRegion;
     msg := "[BR:PD:ErrPDBatchScanRegion]batch scan region" |}.

(** Modelled from the spec: the error registry is not part of this
    file; the coordinator's malformed or contradictory answer. *)
Definition ErrPDInvalidResponse : error :=
  {| code := Some BR_PD_ErrPDInvalidResponse;
     msg := "[BR:PD:ErrPDInvalidResponse]PD invalid response" |}.

(** Modelled from the spec: the error registry is not part of this
    file; the non-retryable invalid-input error. *)
Definition ErrRestoreInvalidRange : error :=
  {| code := Some BR_Restore_ErrRestoreInvalidRange;
     msg := "[BR:Restore:ErrRestoreInvalidRange]invalid restore range" |}.

End berrors.

Module multierr.
Import errors.

(** [multierr.Append]: nil is neutral; two errors are combined into one
    that is no registered error and prints both texts. *)
Definition Append (left right : option error) : option error :=
  match left, right with
  | None, _ => right
  | _, None => left
  | Some l, Some r => Some {| code := None; msg := msg l ++ "; " ++ msg r |}
  end.

End multierr.

(** ** Data model *)

Module metapb.
Record Peer := { PeerId : N; StoreId : N }.
Record Region := { Id : N; StartKey : key; EndKey : key; Peers : list Peer }.
End metapb.

(** [RegionInfo]: one region's metadata with its leader, as a scan
    returned it. *)
Record RegionInfo := { Region : metapb.Region; Leader : option metapb.Peer }.

Definition rStart (r : RegionInfo) : key := metapb.StartKey (Region r).
Definition rEnd (r : RegionInfo) : key := metapb.EndKey (Region r).
Definition rId (r : RegionInfo) : N := metapb.Id (Region r).

Module rtree.
(** [rtree.Range]: a half-open key interval of the backup. *)
Record Range := { StartKey : key; EndKey : key }.
End rtree.

Record RewriteRule := { OldKeyPrefix : key; NewKeyPrefix : key }.
Record RewriteRules := { Data : list RewriteRule }.

Module pdpb.
Inductive ErrorType :=
| OK | UNKNOWN | NOT_BOOTSTRAPPED | STORE_TOMBSTONE | ALREADY_BOOTSTRAPPED
| INCOMPATIBLE_VERSION | REGION_NOT_FOUND.
Inductive OperatorStatus := SUCCESS | TIMEOUT | CANCEL | REPLACE | RUNNING.
Record GetOperatorResponse :=
  { HeaderError : option ErrorType; Desc : string; Status : OperatorStatus }.

Definition ErrorType_String (t : ErrorType) : string :=
  match t with
  | OK => "OK"
  | UNKNOWN => "UNKNOWN"
  | NOT_BOOTSTRAPPED => "NOT_BOOTSTRAPPED"
  | STORE_TOMBSTONE => "STORE_TOMBSTONE"
  | ALREADY_BOOTSTRAPPED => "ALREADY_BOOTSTRAPPED"
  | INCOMPATIBLE_VERSION => "INCOMPATIBLE_VERSION"
  | REGION_NOT_FOUND => "REGION_NOT_FOUND"
  end.
End pdpb.

(** ** Constants for the split retry machinery *)

Definition SplitRetryTimes : nat := 32.
Definition SplitRetryInterval : Z := 50 * time.Millisecond.
Definition SplitMaxRetryInterval : Z := time.Second.

Definition SplitCheckMaxRetryTimes : nat := 64.
Definition SplitCheckInterval : Z := 8 * time.Millisecond.
Definition SplitMaxCheckInterval : Z := time.Second.

Definition ScatterWaitMaxRetryTimes : nat := 64.
Definition ScatterWaitInterval : Z := 50 * time.Millisecond.
Definition ScatterMaxWaitInterval : Z := time.Second.
Definition ScatterWaitUpperInterval : Z := 180 * time.Second.

Definition ScanRegionPaginationLimit : Z := 128.

(** ** The world: cluster client, clock, log, trace *)

Inductive Level := InfoLevel | WarnLevel | ErrorLevel.

(** What a run leaves behind, oldest first: every RPC with its answer,
    every sleep, every progress callback and every log line at level
    info or above (debug lines are off at the default level). *)
Inductive Event :=
| EvScanRegions (startKey endKey : key) (limit : Z)
    (res : list RegionInfo * option error)
| EvGetRegionByID (regionID : N) (res : option RegionInfo * option error)
| EvBatchSplitRegions (region : RegionInfo) (keys : list key)
    (res : list RegionInfo * option error)
| EvScatterRegion (region : RegionInfo) (res : option error)
| EvGetOperator (regionID : N)
    (res : pdpb.GetOperatorResponse * option error)
| EvSleep (d : Z)
| EvOnSplit (keys : list key)
| EvLog (lvl : Level) (text : string).

(** The [SplitClient] interface.  The cluster changes under the caller,
    so every call takes the cluster's state and hands back the next. *)
Class SplitClient (W : Type) := {
  ScanRegions : key -> key -> Z -> W -> (list RegionInfo * option error) * W;
  GetRegionByID : N -> W -> (option RegionInfo * option error) * W;
  BatchSplitRegions :
    RegionInfo -> list key -> W -> (list RegionInfo * option error) * W;
  ScatterRegion : RegionInfo -> W -> option error * W;
  GetOperator : N -> W -> (pdpb.GetOperatorResponse * option error) * W;
}.

(** What the Go runtime contributes: the clock, the passing of time in
    [time.Sleep], and the order in which [range] walks a map, which the
    language leaves open (any order of the entries, possibly another
    one each time). *)
Class Runtime (W : Type) := {
  time_Now : W -> Z;
  time_Sleep : Z -> W -> W;
  map_range : forall {A : Type}, W -> gmap N A -> list (N * A);
  map_range_perm : forall (A : Type) (w : W) (m : gmap N A),
    map_range w m ≡ₚ map_to_list m;
}.

(** Collaborators that live in other files of the repository. *)
Class Collaborators := {
  (** Modelled from the spec: the key printer of pkg/redact is not part
      of this file; it only shapes the text of errors. *)
  redact_Key : key -> string;
  (** Modelled from the spec: sorting is delegated; it yields the
      ranges ordered by key, or an error. *)
  SortRanges : list rtree.Range -> RewriteRules -> list rtree.Range * option error;
  (** Modelled from the spec: the error taxonomy classifies a scatter
      error as retryable or not. *)
  pdErrorCanRetry : error -> bool;
}.

Section Exec.
Context {W : Type}.

Record State := { world : W; trace : list Event }.

(** A computation ends normally, in a Go panic, or is cut off because
    the fuel of a loop that Go leaves unbounded ran out. *)
Inductive Outcome (A : Type) :=
| Done (a : A) (s : State)
| Panicked (s : State)
| OutOfFuel.

Definition M (A : Type) : Type := State -> Outcome A.

Definition ret {A} (a : A) : M A := fun s => Done A a s.

Definition bind {A B} (m : M A) (k : A -> M B) : M B :=
  fun s =>
    match m s with
    | Done _ a s' => k a s'
    | Panicked _ s' => Panicked B s'
    | OutOfFuel _ => OutOfFuel B
    end.

Definition panic {A} : M A := fun s => Panicked A s.
Definition out_of_fuel {A} : M A := fun _ => OutOfFuel A.

Definition emit (e : Event) : M unit :=
  fun s => Done unit tt {| world := world s; trace := trace s ++ [e] |}.

Definition get_world : M W := fun s => Done W (world s) s.

(** One RPC: run it on the cluster and record call and answer. *)
Definition rpc {A} (f : W -> A * W) (ev : A -> Event) : M A :=
  fun s =>
    let '(a, w) := f (world s) in
    Done A a {| world := w; trace := trace s ++ [ev a] |}.

Definition log (lvl : Level) (text : string) : M unit := emit (EvLog lvl text).

End Exec.

Arguments State : clear implicits.
Arguments Outcome : clear implicits.
Arguments M : clear implicits.
Arguments Done {W A} a s.
Arguments Panicked {W A} s.
Arguments OutOfFuel {W A}.

Notation "'let*' p ':=' c1 'in' c2" := (bind c1 (fun p => c2))
  (at level 10, p pattern, c1 at level 99, c2 at level 200).
Notation "c1 ;; c2" := (bind c1 (fun _ => c2))
  (at level 100, right associativity).


(** ** Retry policies *)

(** The [utils.Backoffer] interface: [NextBackoff] is told the error of
    the failed attempt, answers the delay before the next one and
    updates the policy; [Attempt] is the number of attempts left. *)
Class Backoffer (B : Type) := {
  NextBackoff : B -> option error -> Z * B;
  Attempt : B -> Z;
}.

Record scanRegionBackoffer := { attempt : Z }.

Definition newScanRegionBackoffer : scanRegionBackoffer := {| attempt := 3 |}.

#[global] Instance scanRegionBackoffer_Backoffer : Backoffer scanRegionBackoffer := {
  NextBackoff b err :=
    if errors.Equal berrors.ErrPDBatchScanRegion err then
      (* 500ms * 3 could be enough for splitting remain regions in the hole. *)
      (500 * time.Millisecond, {| attempt := int_wrap (attempt b - 1) |})
    else
      (0, {| attempt := 0 |});
  Attempt b := attempt b;
}.

(** Modelled from the spec: the exponential policy used for scattering
    is declared in another file.  It gives a fixed number of attempts
    and doubles its delay at every failure, whatever the error. *)
Record exponentialBackoffer := { exp_attempt : Z; baseBackoff : Z }.

(** Modelled from the spec: the methods of the exponential policy. *)
#[global] Instance exponentialBackoffer_Backoffer : Backoffer exponentialBackoffer := {
  NextBackoff b _ :=
    (baseBackoff b,
     {| exp_attempt := exp_attempt b - 1; baseBackoff := 2 * baseBackoff b |});
  Attempt b := exp_attempt b;
}.

Section Splitter.
Context {W : Type} {client : SplitClient W} {runtime : Runtime W}
  {collab : Collaborators}.

Definition sleep (d : Z) : M W unit :=
  fun s =>
    Done tt {| world := time_Sleep d (world s); trace := trace s ++ [EvSleep d] |}.

(** Modelled from the spec: the retry helper [utils.WithRetry] is not
    part of this file.  It runs the operation while the policy has
    attempts left; a success ends it with no error; after a failure it
    asks the policy for the delay, waits, and tries again.  When the
    attempts are used up the failure is handed to the caller as the
    operation reported it, so an exhausted inconsistent scan reaches
    the split loop as the inconsistent-scan condition.  [l] is the
    state the Go closure captures; the loop is bounded by the policy
    only, hence the fuel. *)
Fixpoint WithRetry {B L : Type} `{!Backoffer B} (fuel : nat)
    (retryableFunc : L -> M W (option error * L)) (backoffer : B) (l : L)
    (lastErr : option error) : M W (option error * B * L) :=
  if Attempt backoffer >? 0 then
    match fuel with
    | O => out_of_fuel
    | S fuel' =>
        let* (err, l') := retryableFunc l in
        match err with
        | None => ret (None, backoffer, l')
        | Some e =>
            let '(d, backoffer') := NextBackoff backoffer (Some e) in
            sleep d ;;
            WithRetry fuel' retryableFunc backoffer' l' (Some e)
        end
    end
  else ret (lastErr, backoffer, l).

(** *** Topology scanner *)

Fixpoint check_adjacent (cur : RegionInfo) (rest : list RegionInfo) : option error :=
  match rest with
  | [] => None
  | r :: rest' =>
      if negb (bytes.Equal (rEnd cur) (rStart r)) then
        Some (errors.Annotatef berrors.ErrPDBatchScanRegion
          ("region endKey not equal to next region startKey, endKey: "
             ++ redact_Key (rEnd cur) ++ ", startKey: " ++ redact_Key (rStart r)))
      else check_adjacent r rest'
  end.

Definition checkRegionConsistency (startKey endKey : key)
    (regions : list RegionInfo) : option error :=
  (* current pd can't guarantee the consistency of returned regions *)
  match regions with
  | [] =>
      Some (errors.Annotatef berrors.ErrPDBatchScanRegion
        ("scan region return empty result, startKey: " ++ redact_Key startKey
           ++ ", endkey: " ++ redact_Key endKey))
  | first :: rest =>
      let lastRegion := List.last regions first in
      if bytes.gt (rStart first) startKey then
        Some (errors.Annotatef berrors.ErrPDBatchScanRegion
          ("first region's startKey > startKey, startKey: " ++ redact_Key startKey
             ++ ", regionStartKey: " ++ redact_Key (rStart first)))
      else if negb (is_empty (rEnd lastRegion)) && bytes.lt (rEnd lastRegion) endKey then
        Some (errors.Annotatef berrors.ErrPDBatchScanRegion
          ("last region's endKey < startKey, startKey: " ++ redact_Key endKey
             ++ ", regionStartKey: " ++ redact_Key (rEnd lastRegion)))
      else check_adjacent first rest
  end.

(** The pagination loop of one scan attempt.  Go writes it [for { }]:
    nothing bounds the number of pages a cluster may hand out. *)
Fixpoint scan_pages (fuel : nat) (endKey : key) (limit : Z)
    (scanStartKey : key) (regions : list RegionInfo)
    : M W (option error * list RegionInfo) :=
  match fuel with
  | O => out_of_fuel
  | S fuel' =>
      let* (batch, err) :=
        rpc (ScanRegions scanStartKey endKey limit)
            (EvScanRegions scanStartKey endKey limit) in
      match err with
      | Some e => ret (Some (errors.Trace e), regions)
      | None =>
          let regions := regions ++ batch in
          if Z.of_nat (length batch) <? limit then
            (* No more region *)
            ret (None, regions)
          else
            match last batch with
            | None => panic (* batch[len(batch)-1] on an empty batch *)
            | Some lastRegion =>
                let scanStartKey := rEnd lastRegion in
                if is_empty scanStartKey
                   || (negb (is_empty endKey) && bytes.ge scanStartKey endKey) then
                  (* All key space have scanned *)
                  ret (None, regions)
                else scan_pages fuel' endKey limit scanStartKey regions
            end
      end
  end.

(** The closure [PaginateScanRegion] retries: scan from scratch, then
    check the result. *)
Definition scan_attempt (fuel : nat) (startKey endKey : key) (limit : Z)
    (_ : list RegionInfo) : M W (option error * list RegionInfo) :=
  let* (err, regions) := scan_pages fuel endKey limit startKey [] in
  match err with
  | Some e => ret (Some e, regions)
  | None =>
      match checkRegionConsistency startKey endKey regions with
      | Some e =>
          log WarnLevel "failed to scan region, retrying" ;;
          ret (Some e, regions)
      | None => ret (None, regions)
      end
  end.

Definition PaginateScanRegion (fuel : nat) (startKey endKey : key) (limit : Z)
    : M W (list RegionInfo * option error) :=
  if negb (is_empty endKey) && bytes.ge startKey endKey then
    ret ([], Some (errors.Annotatef berrors.ErrRestoreInvalidRange
      ("startKey >= endKey, startKey: " ++ hex.EncodeToString startKey
         ++ ", endkey: " ++ hex.EncodeToString endKey)))
  else
    let* (err, _, regions) :=
      WithRetry fuel (scan_attempt fuel startKey endKey limit)
        newScanRegionBackoffer [] None in
    ret (regions, err).

(** *** Split-key planner *)

(** Modelled from the spec: [RegionInfo.ContainsInterior] is declared
    with the client.  A key falls strictly inside a region when it is
    after the start key and before the end key, an empty end key
    leaving the region open-ended. *)
Definition ContainsInterior (region : RegionInfo) (k : key) : bool :=
  bytes.gt k (rStart region)
  && (is_empty (rEnd region) || bytes.lt k (rEnd region)).

Fixpoint NeedSplit_scan (splitKey : key) (regions : list RegionInfo)
    : option RegionInfo :=
  match regions with
  | [] => None
  | region :: rest =>
      (* If splitKey is the boundary of the region *)
      if bytes.Equal splitKey (rStart region) then None
      (* If splitKey is in a region *)
      else if ContainsInterior region splitKey then Some region
      else NeedSplit_scan splitKey rest
  end.

(** [NeedSplit] checks whether a key is necessary to split; if so it
    returns the region to split. *)
Definition NeedSplit (splitKey : key) (regions : list RegionInfo)
    : option RegionInfo :=
  (* If splitKey is the max key. *)
  if is_empty splitKey then None
  else NeedSplit_scan (codec.EncodeBytes splitKey) regions.

Definition record_key (regions : list RegionInfo)
    (splitKeyMap : gmap N (list key)) (k : key) : gmap N (list key) :=
  match NeedSplit k regions with
  | Some region =>
      let splitKeys := default [] (splitKeyMap !! rId region) in
      <[rId region := splitKeys ++ [k]]> splitKeyMap
  | None => splitKeyMap
  end.

(** [getSplitKeys] checks if the regions should be split by the end key
    of the ranges, and groups the split keys by region id. *)
Definition getSplitKeys (rewriteRules : RewriteRules)
    (ranges : list rtree.Range) (regions : list RegionInfo)
    : gmap N (list key) :=
  let checkKeys := map rtree.EndKey ranges in
  foldl (record_key regions) ∅ checkKeys.

(** *** Helpers on keys *)

Definition beforeEnd (k e : key) : bool := bytes.lt k e || is_empty e.

Definition keyInsideRegion (region : metapb.Region) (k : key) : bool :=
  bytes.ge k (metapb.StartKey region) && beforeEnd k (metapb.EndKey region).

(** *** Scatter coordinator *)

Definition hasRegion (regionID : N) : M W (bool * option error) :=
  let* (regionInfo, err) :=
    rpc (GetRegionByID regionID) (EvGetRegionByID regionID) in
  match err with
  | Some e => ret (false, Some (errors.Trace e))
  | None => ret (bool_decide (is_Some regionInfo), None)
  end.

Definition double_capped (interval cap : Z) : Z :=
  let interval := 2 * interval in
  if interval >? cap then cap else interval.

Fixpoint waitForSplit_loop (n : nat) (interval : Z) (regionID : N) : M W unit :=
  match n with
  | O => ret tt
  | S n' =>
      let* (ok, err) := hasRegion regionID in
      match err with
      | Some _ => log WarnLevel "wait for split failed"
      | None =>
          if ok then ret tt
          else
            let interval := double_capped interval SplitMaxCheckInterval in
            sleep interval ;;
            waitForSplit_loop n' interval regionID
      end
  end.

Definition waitForSplit (regionID : N) : M W unit :=
  waitForSplit_loop SplitCheckMaxRetryTimes SplitCheckInterval regionID.

Definition isScatterRegionFinished (retryTimes : nat) (regionID : N)
    : M W (bool * option error) :=
  let* (resp, err) := rpc (GetOperator regionID) (EvGetOperator regionID) in
  match err with
  | Some e => ret (false, Some (errors.Trace e))
  | None =>
      (* Heartbeat may not be sent to PD *)
      match pdpb.HeaderError resp with
      | Some pdpb.REGION_NOT_FOUND => ret (true, None)
      | Some respErr =>
          ret (false, Some (errors.Annotatef berrors.ErrPDInvalidResponse
            ("get operator error: " ++ pdpb.ErrorType_String respErr)))
      | None =>
          (if (3 <? retryTimes)%nat then log InfoLevel "get operator" else ret tt) ;;
          (* If the current operator of the region is not 'scatter-region',
             we could assume that 'scatter-operator' has finished or timeout *)
          let ok :=
            negb (String.eqb (pdpb.Desc resp) "scatter-region")
            || negb (match pdpb.Status resp with pdpb.RUNNING => true | _ => false end) in
          ret (ok, None)
      end
  end.

Fixpoint waitForScatterRegion_loop (n i : nat) (interval : Z)
    (regionInfo : RegionInfo) : M W unit :=
  match n with
  | O => ret tt
  | S n' =>
      let* (ok, err) := isScatterRegionFinished i (rId regionInfo) in
      match err with
      | Some _ => log WarnLevel "scatter region failed: do not have the region"
      | None =>
          if ok then ret tt
          else
            let interval := double_capped interval ScatterMaxWaitInterval in
            sleep interval ;;
            waitForScatterRegion_loop n' (S i) interval regionInfo
      end
  end.

Definition waitForScatterRegion (regionInfo : RegionInfo) : M W unit :=
  waitForScatterRegion_loop ScatterWaitMaxRetryTimes 0 ScatterWaitInterval regionInfo.

(** One region of a scatter pass: wait until the split is visible, ask
    for the scatter, and take the region off the pending set when the
    request went through or cannot be retried. *)
Definition scatter_one (acc : option error * gmap N RegionInfo)
    (region : RegionInfo) : M W (option error * gmap N RegionInfo) :=
  let '(errs, newRegionSet) := acc in
  (* Wait for a while until the regions successfully split. *)
  waitForSplit (rId region) ;;
  let* err := rpc (ScatterRegion region) (EvScatterRegion region) in
  let* newRegionSet :=
    match err with
    | None =>
        (* it is safe accroding to the Go language spec. *)
        ret (delete (rId region) newRegionSet)
    | Some e =>
        if negb (pdErrorCanRetry e) then
          log WarnLevel "scatter meet error cannot be retried, skipping" ;;
          ret (delete (rId region) newRegionSet)
        else ret newRegionSet
    end in
  ret (multierr.Append errs err, newRegionSet).

Fixpoint scatter_each (todo : list RegionInfo)
    (acc : option error * gmap N RegionInfo)
    : M W (option error * gmap N RegionInfo) :=
  match todo with
  | [] => ret acc
  | region :: rest =>
      let* acc' := scatter_one acc region in
      scatter_each rest acc'
  end.

(** The closure [ScatterRegionsWithBackoffer] retries: one pass over the
    regions still pending.  Only the entry being visited is ever
    deleted, so the pass visits every entry the set had at its start. *)
Definition scatter_pass (newRegionSet : gmap N RegionInfo)
    : M W (option error * gmap N RegionInfo) :=
  log InfoLevel "trying to scatter regions..." ;;
  let* w := get_world in
  scatter_each (map snd (map_range w newRegionSet)) (None, newRegionSet).

Definition index_regions (newRegions : list RegionInfo) : gmap N RegionInfo :=
  foldl (fun set newRegion => <[rId newRegion := newRegion]> set) ∅ newRegions.

(** [ScatterRegionsWithBackoffer] scatters the regions with some
    backoffer.  It returns nothing: what could not be scattered is
    logged. *)
Definition ScatterRegionsWithBackoffer {B : Type} `{!Backoffer B} (fuel : nat)
    (newRegions : list RegionInfo) (backoffer : B) : M W unit :=
  let newRegionSet := index_regions newRegions in
  let* (err, _, _) := WithRetry fuel scatter_pass backoffer newRegionSet None in
  match err with
  | Some _ => log WarnLevel "Some regions haven't been scattered because errors."
  | None => ret tt
  end.

(** [ScatterRegions] scatters the regions. *)
Definition ScatterRegions (fuel : nat) (newRegions : list RegionInfo) : M W unit :=
  ScatterRegionsWithBackoffer fuel newRegions
    (* backoff about 6s, or we give up scattering this region. *)
    {| exp_attempt := 7; baseBackoff := 100 * time.Millisecond |}.

(** *** Split executor *)

Definition splitAndScatterRegions (fuel : nat) (regionInfo : RegionInfo)
    (keys : list key) : M W (list RegionInfo * option error) :=
  match keys with
  | [] => ret ([regionInfo], None)
  | _ :: _ =>
      let* (newRegions, err) :=
        rpc (BatchSplitRegions regionInfo keys)
            (EvBatchSplitRegions regionInfo keys) in
      match err with
      | Some e => ret ([], Some (errors.Trace e))
      | None =>
          (* The trick here is a pinky promise: never scatter regions you
             haven't imported any data.  In this scenario, it is the last
             region after spliting (applying to >= 5.0). *)
          match last newRegions, last keys with
          | Some lastRegion, Some lastKey =>
              let newRegions :=
                if bytes.Equal (rStart lastRegion) lastKey
                then take (length newRegions - 1) newRegions
                else newRegions in
              ScatterRegions fuel newRegions ;;
              ret (newRegions, None)
          | _, _ => panic (* newRegions[len(newRegions)-1] on an empty slice *)
          end
      end
  end.

(** The variables the labelled loop [SplitRegions] carries around. *)
Record SplitVars := {
  interval : Z;
  scatterRegions : list RegionInfo;
  errSplit : option error;
}.

(** How the walk over the split plan leaves the loop body. *)
Inductive Control :=
| FallThrough          (* the walk ended: [break] *)
| ContinueSplitRegions (* [continue SplitRegions] *)
| Return (err : error) (* [return errors.Trace(errSplit)] *).

Fixpoint log_no_valid_key (keys : list key) : M W unit :=
  match keys with
  | [] => ret tt
  | _ :: rest => log ErrorLevel "split regions no valid key" ;; log_no_valid_key rest
  end.

Fixpoint split_plan (fuel : nat) (regionMap : gmap N RegionInfo)
    (plan : list (N * list key)) (vars : SplitVars) : M W (Control * SplitVars) :=
  match plan with
  | [] => ret (FallThrough, vars)
  | (regionID, keys) :: rest =>
      match regionMap !! regionID with
      | None => panic (* region.Region on a nil region *)
      | Some region =>
          log InfoLevel "split regions" ;;
          let* (newRegions, err) := splitAndScatterRegions fuel region keys in
          let vars :=
            {| interval := interval vars;
               scatterRegions := scatterRegions vars;
               errSplit := err |} in
          match err with
          | Some e =>
              if strings.Contains (errors.msg e) "no valid key" then
                log_no_valid_key keys ;;
                ret (Return (errors.Trace e), vars)
              else
                let interval' := double_capped (interval vars) SplitMaxRetryInterval in
                sleep interval' ;;
                log WarnLevel "split regions failed, retry" ;;
                ret (ContinueSplitRegions,
                     {| interval := interval';
                        scatterRegions := scatterRegions vars;
                        errSplit := errSplit vars |})
          | None =>
              (if negb (length newRegions =? length keys)%nat
               then log WarnLevel "split key count and new region count mismatch"
               else ret tt) ;;
              emit (EvOnSplit keys) ;;
              split_plan fuel regionMap rest
                {| interval := interval vars;
                   scatterRegions := scatterRegions vars ++ newRegions;
                   errSplit := errSplit vars |}
          end
      end
  end.

(** The loop [for i := 0; i < SplitRetryTimes; i++], with [n] attempts
    still to go.  [inl] is an early [return], [inr] the loop's end. *)
Fixpoint SplitRegions_loop (n : nat) (fuel : nat) (rewriteRules : RewriteRules)
    (sortedRanges : list rtree.Range) (minKey maxKey : key) (vars : SplitVars)
    : M W (error + SplitVars) :=
  match n with
  | O => ret (inr vars)
  | S n' =>
      let* (regions, errScan) :=
        PaginateScanRegion fuel minKey maxKey ScanRegionPaginationLimit in
      match errScan with
      | Some e =>
          if errors.Equal berrors.ErrPDBatchScanRegion (Some e) then
            log WarnLevel "inconsistent region info get." ;;
            sleep time.Second ;;
            SplitRegions_loop n' fuel rewriteRules sortedRanges minKey maxKey vars
          else ret (inl (errors.Trace e))
      | None =>
          let splitKeyMap := getSplitKeys rewriteRules sortedRanges regions in
          let regionMap := index_regions regions in
          let* w := get_world in
          let* (ctl, vars') :=
            split_plan fuel regionMap (map_range w splitKeyMap) vars in
          match ctl with
          | Return e => ret (inl e)
          | ContinueSplitRegions =>
              SplitRegions_loop n' fuel rewriteRules sortedRanges minKey maxKey vars'
          | FallThrough => ret (inr vars')
          end
      end
  end.

(** The bounded wait for the scattered regions: stop once 180s have
    passed since [startTime]. *)
Fixpoint wait_scattered (startTime : Z) (regions : list RegionInfo)
    (scatterCount : nat) : M W nat :=
  match regions with
  | [] => ret scatterCount
  | region :: rest =>
      waitForScatterRegion region ;;
      let* w := get_world in
      if time_Now w - startTime >? ScatterWaitUpperInterval then ret scatterCount
      else wait_scattered startTime rest (S scatterCount)
  end.

(** What [Split] does once the loop is left: an early [return] hands
    its error on; otherwise the last split error, if any, is returned,
    and without one the scattered regions are waited for. *)
Definition Split_finish (r : error + SplitVars) : M W (option error) :=
  match r with
  | inl e => ret (Some e)
  | inr vars =>
      match errSplit vars with
      | Some e => ret (Some (errors.Trace e))
      | None =>
          log InfoLevel "start to wait for scattering regions" ;;
          let* w := get_world in
          let startTime := time_Now w in
          let* scatterCount :=
            wait_scattered startTime (scatterRegions vars) 0 in
          (if (scatterCount =? length (scatterRegions vars))%nat
           then log InfoLevel "waiting for scattering regions done"
           else log WarnLevel "waiting for scattering regions timeout") ;;
          ret None
      end
  end.

(** [Split] executes a region split: it splits regions by the end key
    of each range.  The result is Go's [error]: [None] is nil. *)
Definition Split (fuel : nat) (ranges : list rtree.Range)
    (rewriteRules : RewriteRules) : M W (option error) :=
  match ranges with
  | [] =>
      log InfoLevel "skip split regions, no range" ;;
      ret None
  | _ :: _ =>
      (* Sort the range for getting the min and max key of the ranges *)
      let '(sortedRanges, errSort) := SortRanges ranges rewriteRules in
      match errSort with
      | Some e => ret (Some (errors.Trace e))
      | None =>
          match head sortedRanges, last sortedRanges with
          | Some firstRange, Some lastRange =>
              let minKey := codec.EncodeBytes (rtree.StartKey firstRange) in
              let maxKey := codec.EncodeBytes (rtree.EndKey lastRange) in
              let* r :=
                SplitRegions_loop SplitRetryTimes fuel rewriteRules sortedRanges
                  minKey maxKey
                  {| interval := SplitRetryInterval;
                     scatterRegions := [];
                     errSplit := None |} in
              Split_finish r
          | _, _ => panic (* sortedRanges[0] on an empty slice *)
          end
      end
  end.

End Splitter.

(** *** Key rewriting and ranges of the import path *)

(** [replacePrefix] rewrites a key by the first rule whose old prefix
    it begins with, and says which rule that was; a key no rule applies
    to is handed back as it is, with no rule. *)
Fixpoint replacePrefix_rules (s : key) (rules : list RewriteRule)
    : key * option RewriteRule :=
  match rules with
  | [] => (s, None)
  | rule :: rest =>
      if bytes.HasPrefix s (OldKeyPrefix rule) then
        (NewKeyPrefix rule ++ drop (length (OldKeyPrefix rule)) s, Some rule)
      else replacePrefix_rules s rest
  end.

Definition replacePrefix (s : key) (rewriteRules : RewriteRules)
    : key * option RewriteRule :=
  (* We should search the dataRules firstly. *)
  replacePrefix_rules s (Data rewriteRules).

(** Modelled from the spec: the [Range] of package [restore] is declared
    in another file: a half-open interval of raw keys, an empty [End]
    standing for no upper bound. *)
Record Range := { Start : key; End : key }.

Module sst.
(** The range of an SST file and the file's metadata, of which only
    the range is read here.  The getters of the generated code answer
    nil on a missing range. *)
Record Range := { Start : key; End : key }.
Record SSTMeta := { Range_ : option Range }.

Definition GetStart (rg : option Range) : key :=
  match rg with Some r => Start r | None => [] end.
Definition GetEnd (rg : option Range) : key :=
  match rg with Some r => End r | None => [] end.
Definition GetRange (meta : SSTMeta) : option Range := Range_ meta.
End sst.

(** [intersectRange]: the part of [rg] that lies in the region.  The
    region's keys are stored encoded and are decoded first; a key that
    does not decode counts as an empty one, for the error is dropped. *)
Definition intersectRange (region : metapb.Region) (rg : Range) : Range :=
  let startKey :=
    if negb (is_empty (metapb.StartKey region))
    then snd (fst (codec.DecodeBytes (metapb.StartKey region)))
    else [] in
  let startKey := if bytes.lt startKey (Start rg) then Start rg else startKey in
  let endKey :=
    if negb (is_empty (metapb.EndKey region))
    then snd (fst (codec.DecodeBytes (metapb.EndKey region)))
    else [] in
  let endKey := if beforeEnd (End rg) endKey then End rg else endKey in
  {| Start := startKey; End := endKey |}.

Definition insideRegion (region : metapb.Region) (meta : sst.SSTMeta) : bool :=
  let rg := sst.GetRange meta in
  keyInsideRegion region (sst.GetStart rg) && keyInsideRegion region (sst.GetEnd rg).

(** ** The raw restore task: package [task]

    [RunRestoreRaw] drives a raw restore from the outside: it builds a
    manager and a restore client, reads the backup, picks the files of
    the key range and hands them to the client.  Everything it calls
    lives in other packages; what those calls answer in a run is given
    by [Answers], and the calls themselves, with the arguments that
    matter, are recorded in order. *)

Module task.

(** The settings [RunRestoreRaw] reads: the key range and column
    family of the raw restore, and the common restore settings. *)
Record RestoreRawConfig := {
  StartKey : key;
  EndKey : key;
  CF : string;
  Online : bool;
  MergeSmallRegionKeyCount : N;
  Concurrency : N;
  RateLimit : N;
  SwitchModeInterval : Z;
  LogProgress : bool;
  CheckRequirements : bool;
}.

Record File := { Name : string }.

(** Modelled from the spec: the pipeline's collaborators are specified
    only by the interface they provide.  These are their answers in
    one run; every one of them is called at most once.  The two
    [adjust] methods of the embedded settings and the default
    concurrency come from other files as well. *)
Record Answers := {
  Config_adjust : RestoreRawConfig -> RestoreRawConfig;
  RestoreCommonConfig_adjust : RestoreRawConfig -> RestoreRawConfig;
  defaultRestoreConcurrency : N;
  NewMgr : option error;
  NewRestoreClient : option error;
  ReadBackupMeta : N * option error;   (* the archive size, or an error *)
  InitBackupMeta : option error;
  IsRawKvMode : bool;
  GetFilesInRawRange : list File * option error;
  MergeFileRanges : list rtree.Range * option error;
  restorePreWork : list string * option error; (* the schedulers removed *)
  RestoreRaw : option error;
}.

Inductive Event :=
| EvNewMgr (checkRequirements needDomain : bool) (res : option error)
| EvMgrClose
| EvNewRestoreClient (permitWithoutStream : bool) (res : option error)
| EvClientClose
| EvSetRateLimit (rateLimit : N)
| EvSetConcurrency (concurrency : N)
| EvEnableOnline
| EvSetSwitchModeInterval (interval : Z)
| EvReadBackupMeta (res : N * option error)
| EvRecord (size : N)
| EvInitBackupMeta (res : option error)
| EvIsRawKvMode (res : bool)
| EvGetFilesInRawRange (startKey endKey : key) (cf : string)
    (res : list File * option error)
| EvLogInfo (text : string)
| EvCollectInt (name : string) (value : nat)
| EvMergeFileRanges (files : list File) (splitSizeBytes splitKeyCount : N)
    (res : list rtree.Range * option error)
| EvStartProgress (cmdName : string) (total : Z) (redirectLog : bool)
| EvRestorePreWork (res : list string * option error)
| EvRestorePostWork (schedulers : list string)
| EvRestoreRaw (startKey endKey : key) (files : list File) (res : option error)
| EvUpdateChClose
| EvSetSuccessStatus (success : bool)
| EvCancel
| EvSummary (cmdName : string).

(** Modelled from the spec: the error registry is not part of this
    file; the error of a restore in a mode the backup was not made
    in. *)
Definition ErrRestoreModeMismatch : error :=
  {| errors.code := None;
     errors.msg := "[BR:Restore:ErrRestoreModeMismatch]restore mode mismatch" |}.

Definition adjust (a : Answers) (cfg : RestoreRawConfig) : RestoreRawConfig :=
  let cfg := Config_adjust a cfg in
  let cfg := RestoreCommonConfig_adjust a cfg in
  if (Concurrency cfg =? 0)%N then
    {| StartKey := StartKey cfg; EndKey := EndKey cfg; CF := CF cfg;
       Online := Online cfg;
       MergeSmallRegionKeyCount := MergeSmallRegionKeyCount cfg;
       Concurrency := defaultRestoreConcurrency a;
       RateLimit := RateLimit cfg;
       SwitchModeInterval := SwitchModeInterval cfg;
       LogProgress := LogProgress cfg;
       CheckRequirements := CheckRequirements cfg |}
  else cfg.

(** A [return]: the calls made so far, then the deferred calls, last
    registered first. *)
Definition leave (result : option error) (events deferred : list Event)
    : option error * list Event :=
  (result, events ++ deferred).

(** [RunRestoreRaw] starts a raw kv restore task. *)
Definition RunRestoreRaw (a : Answers) (cmdName : string) (cfg : RestoreRawConfig)
    : option error * list Event :=
  let cfg := adjust a cfg in
  (* defer summary.Summary(cmdName); defer cancel() *)
  let deferred := [EvCancel; EvSummary cmdName] in
  (* Restore raw does not need domain. *)
  let needDomain := false in
  let events := [EvNewMgr (CheckRequirements cfg) needDomain (NewMgr a)] in
  match NewMgr a with
  | Some err => leave (Some (errors.Trace err)) events deferred
  | None =>
  let deferred := EvMgrClose :: deferred in
  (* sometimes we have pooled the connections.
     sending heartbeats in idle times is useful. *)
  let events := events ++ [EvNewRestoreClient true (NewRestoreClient a)] in
  match NewRestoreClient a with
  | Some err => leave (Some (errors.Trace err)) events deferred
  | None =>
  let deferred := EvClientClose :: deferred in
  let events :=
    events ++ [EvSetRateLimit (RateLimit cfg); EvSetConcurrency (Concurrency cfg)]
      ++ (if Online cfg then [EvEnableOnline] else [])
      ++ [EvSetSwitchModeInterval (SwitchModeInterval cfg);
          EvReadBackupMeta (ReadBackupMeta a)] in
  match snd (ReadBackupMeta a) with
  | Some err => leave (Some (errors.Trace err)) events deferred
  | None =>
  let events :=
    events ++ [EvRecord (fst (ReadBackupMeta a));
               EvInitBackupMeta (InitBackupMeta a)] in
  match InitBackupMeta a with
  | Some err => leave (Some (errors.Trace err)) events deferred
  | None =>
  let events := events ++ [EvIsRawKvMode (IsRawKvMode a)] in
  if negb (IsRawKvMode a) then
    leave (Some (errors.Annotatef ErrRestoreModeMismatch
                   "cannot do raw restore from transactional data"))
      events deferred
  else
  let events :=
    events ++ [EvGetFilesInRawRange (StartKey cfg) (EndKey cfg) (CF cfg)
                 (GetFilesInRawRange a)] in
  let files := fst (GetFilesInRawRange a) in
  match snd (GetFilesInRawRange a) with
  | Some err => leave (Some (errors.Trace err)) events deferred
  | None =>
  if (length files =? 0)%nat then
    leave None
      (events ++ [EvLogInfo
         "all files are filtered out from the backup archive, nothing to restore"])
      deferred
  else
  let events :=
    events ++ [EvCollectInt "restore files" (length files);
               EvMergeFileRanges files (MergeSmallRegionKeyCount cfg)
                 (MergeSmallRegionKeyCount cfg) (MergeFileRanges a)] in
  let ranges := fst (MergeFileRanges a) in
  match snd (MergeFileRanges a) with
  | Some err => leave (Some (errors.Trace err)) events deferred
  | None =>
  (* Redirect to log if there is no log file to avoid unreadable output. *)
  let events :=
    events ++ [EvStartProgress "Raw Restore"
                 (* Split/Scatter + Download/Ingest *)
                 (int_wrap (Z.of_nat (length ranges + length files)))
                 (negb (LogProgress cfg));
               EvRestorePreWork (restorePreWork a)] in
  (* NOTE: TiKV 5.0 do not support split ranges for RawKV keys. *)
  match snd (restorePreWork a) with
  | Some err => leave (Some (errors.Trace err)) events deferred
  | None =>
  let deferred := EvRestorePostWork (fst (restorePreWork a)) :: deferred in
  let events :=
    events ++ [EvRestoreRaw (StartKey cfg) (EndKey cfg) files (RestoreRaw a)] in
  match RestoreRaw a with
  | Some err => leave (Some (errors.Trace err)) events deferred
  | None =>
  (* Restore has finished.  Set task summary to success status. *)
  leave None (events ++ [EvUpdateChClose; EvSetSuccessStatus true]) deferred
  end end end end end end end end.

(** *** Reading a run *)

(** The calls that give back what was taken. *)
Definition is_release (e : Event) : bool :=
  match e with
  | EvMgrClose | EvClientClose | EvRestorePostWork _ | EvCancel | EvSummary _ => true
  | _ => false
  end.

(** What has to be given back after the calls [body], last taken
    first: the schedulers, the client, the manager, the context and
    the summary. *)
Definition releases_for (cmdName : string) (body : list Event) : list Event :=
  omap (fun e => match e with
                 | EvRestorePreWork (schedulers, None) =>
                     Some (EvRestorePostWork schedulers)
                 | EvNewRestoreClient _ None => Some EvClientClose
                 | EvNewMgr _ _ None => Some EvMgrClose
                 | _ => None
                 end) (reverse body)
  ++ [EvCancel; EvSummary cmdName].

Definition restored (events : list Event) : bool :=
  existsb (fun e => match e with EvRestoreRaw _ _ _ None => true | _ => false end)
    events.

Definition reported_success (events : list Event) : bool :=
  existsb (fun e => match e with EvSetSuccessStatus true => true | _ => false end)
    events.

Definition nothing_to_restore (events : list Event) : bool :=
  existsb (fun e => match e with
                    | EvGetFilesInRawRange _ _ _ ([], None) => true
                    | _ => false
                    end) events.

(** The restore was attempted; the backup was found to be a raw one;
    the schedulers were taken off. *)
Definition attempted (events : list Event) : bool :=
  existsb (fun e => match e with
                    | EvRestoreRaw _ _ (_ :: _) _ => true
                    | _ => false
                    end) events.

Definition attempted_without_files (events : list Event) : bool :=
  existsb (fun e => match e with EvRestoreRaw _ _ [] _ => true | _ => false end)
    events.

Definition raw_mode (events : list Event) : bool :=
  existsb (fun e => match e with EvIsRawKvMode true => true | _ => false end)
    events.

Definition schedulers_removed (events : list Event) : bool :=
  existsb (fun e => match e with EvRestorePreWork (_, None) => true | _ => false end)
    events.

End task.

(** * Reference statements *)

(** The tiling invariant in the spec's words: the list is not empty,
    the first region starts at or before [startKey], the last region
    ends at or after [endKey] or is open-ended, and every region ends
    where the next one starts. *)
Definition tiles_interval (startKey endKey : key) (regions : list RegionInfo) : Prop :=
  regions <> []
  /\ (forall first, head regions = Some first ->
        bytes.le (rStart first) startKey = true)
  /\ (forall lastRegion, last regions = Some lastRegion ->
        rEnd lastRegion = [] \/ bytes.ge (rEnd lastRegion) endKey = true)
  /\ (forall (i : nat) r next,
        regions !! i = Some r -> regions !! S i = Some next ->
        rEnd r = rStart next).

(** A topology snapshot in the glossary's sense: every region is a
    non-empty interval (its start is before its end, or it is
    open-ended) and no two regions of the list overlap. *)
Definition region_nonempty (r : RegionInfo) : bool :=
  beforeEnd (rStart r) (rEnd r).

Definition regions_overlap (r1 r2 : RegionInfo) : bool :=
  beforeEnd (rStart r1) (rEnd r2) && beforeEnd (rStart r2) (rEnd r1).

Fixpoint pairwise_disjoint (regions : list RegionInfo) : bool :=
  match regions with
  | [] => true
  | r :: rest =>
      forallb (fun r' => negb (regions_overlap r r')) rest
      && pairwise_disjoint rest
  end.

Definition sound_topology (regions : list RegionInfo) : bool :=
  forallb region_nonempty regions && pairwise_disjoint regions.

(** A raw key sits on a boundary of the topology when, encoded the way
    the planner compares it, it is the start or the end key of a
    region. *)
Definition on_boundary (k : key) (regions : list RegionInfo) : Prop :=
  exists r, r ∈ regions
    /\ (codec.EncodeBytes k = rStart r \/ codec.EncodeBytes k = rEnd r).

(** A raw key lies strictly inside a region when it is a key at all
    (the empty key stands for the unbounded end) and its encoded form
    is after the region's start and before its end. *)
Definition strictly_inside (k : key) (r : RegionInfo) : Prop :=
  k <> [] /\ ContainsInterior r (codec.EncodeBytes k) = true.

(** The end keys recorded for region [id], in the order of the ranges. *)
Definition keys_for (id : N) (regions : list RegionInfo)
    (checkKeys : list key) : list key :=
  filter (fun k => rId <$> NeedSplit k regions = Some id) checkKeys.

(** What is left to scatter after a split that created [init] and
    then [lastRegion]: the last region is left out when it starts at
    the last split key asked for. *)
Definition scatter_set (init : list RegionInfo) (lastRegion : RegionInfo)
    (lastKey : key) : list RegionInfo :=
  if bytes.Equal (rStart lastRegion) lastKey then init else init ++ [lastRegion].

(** *** Reading a trace *)

(** The scatter requests of a trace with their answers, oldest first. *)
Definition scatter_answers (events : list Event)
    : list (RegionInfo * option error) :=
  omap (fun e => match e with
                 | EvScatterRegion r a => Some (r, a)
                 | _ => None
                 end) events.

Definition is_log (lvl : Level) (text : string) (e : Event) : bool :=
  match e with
  | EvLog lvl' text' =>
      match lvl, lvl' with
      | InfoLevel, InfoLevel | WarnLevel, WarnLevel | ErrorLevel, ErrorLevel =>
          String.eqb text text'
      | _, _ => false
      end
  | _ => false
  end.

Definition count_log (lvl : Level) (text : string) (events : list Event) : nat :=
  length (List.filter (is_log lvl text) events).

(** Scatter passes started, and regions given up with a warning. *)
Definition count_passes : list Event -> nat :=
  count_log InfoLevel "trying to scatter regions...".
Definition count_skipped : list Event -> nat :=
  count_log WarnLevel "scatter meet error cannot be retried, skipping".

(** RPCs of a trace that scan, split or scatter. *)
Definition is_cluster_change (e : Event) : bool :=
  match e with
  | EvScanRegions _ _ _ _ | EvBatchSplitRegions _ _ _ | EvScatterRegion _ _ => true
  | _ => false
  end.

(** Events that are no scatter request, no start of a scatter pass and
    no warning about a region given up. *)
Definition quiet (events : list Event) : Prop :=
  scatter_answers events = [] /\ count_passes events = 0%nat
  /\ count_skipped events = 0%nat.

Section Taxonomy.
Context {collab : Collaborators}.

(** A scatter answer settles its region when it is a success or an
    error that cannot be retried. *)
Definition settled (a : option error) : bool :=
  match a with
  | None => true
  | Some e => negb (pdErrorCanRetry e)
  end.

Definition given_up (a : option error) : bool :=
  match a with
  | None => false
  | Some e => negb (pdErrorCanRetry e)
  end.

(** No region is asked to scatter again once an answer settled it. *)
Definition never_rescattered (answers : list (RegionInfo * option error)) : Prop :=
  forall l1 r a l2,
    answers = l1 ++ (r, a) :: l2 -> settled a = true ->
    forall r' a', (r', a') ∈ l2 -> rId r' <> rId r.

(** The pending set after the answers of a pass: the regions settled
    by their answer are taken off. *)
Definition still_pending (set : gmap N RegionInfo)
    (answers : list (RegionInfo * option error)) : gmap N RegionInfo :=
  foldl (fun m ra => if settled (snd ra) then delete (rId (fst ra)) m else m)
    set answers.

Definition count_given_up (answers : list (RegionInfo * option error)) : nat :=
  length (List.filter (fun ra => given_up (snd ra)) answers).

(** A pending set holds every region under its own id. *)
Definition keyed (set : gmap N RegionInfo) : Prop :=
  forall id r, set !! id = Some r -> rId r = id.

End Taxonomy.

(** [Split] taken up at the head of its loop, with [n] attempts left
    and the loop variables [vars]. *)
Definition Split_resume {W : Type} {client : SplitClient W} {runtime : Runtime W}
    {collab : Collaborators} (n fuel : nat) (rewriteRules : RewriteRules)
    (sortedRanges : list rtree.Range) (minKey maxKey : key) (vars : SplitVars)
    : M W (option error) :=
  let* r := SplitRegions_loop n fuel rewriteRules sortedRanges minKey maxKey vars in
  Split_finish r.

(** *** Runs *)

(** An error of the inconsistent-scan class. *)
Definition is_inconsistent_scan (e : error) : Prop :=
  errors.Equal berrors.ErrPDBatchScanRegion (Some e) = true.

(** [delivers m Q]: from every state [m] ends normally, and its result
    and the events it added satisfy [Q]. *)
Definition delivers {W A : Type} (m : M W A) (Q : A -> list Event -> Prop) : Prop :=
  forall st, exists a st' delta,
    m st = Done a st' /\ trace st' = trace st ++ delta /\ Q a delta.

(** The state after a region was split: the mismatch warning, if the
    counts differ, and the progress callback. *)
Definition after_split {W : Type} (keys : list key) (newRegions : list RegionInfo)
    (s : State W) : State W :=
  {| world := world s;
     trace := trace s
       ++ (if negb (length newRegions =? length keys)%nat
           then [EvLog WarnLevel "split key count and new region count mismatch"]
           else [])
       ++ [EvOnSplit keys] |}.

(** The loop variables after a region was split. *)
Definition add_scatter (vars : SplitVars) (newRegions : list RegionInfo) : SplitVars :=
  {| interval := interval vars;
     scatterRegions := scatterRegions vars ++ newRegions;
     errSplit := None |}.

(** A cluster on which every batch split goes through and creates at
    least one region. *)
Definition splits_succeed {W : Type} {client : SplitClient W} : Prop :=
  forall region keys w, exists init lastRegion w',
    BatchSplitRegions region keys w = ((init ++ [lastRegion], None), w').

(** A cluster on which every scan of [minKey, maxKey) ends with the
    inconsistent-scan error. *)
Definition scans_stay_inconsistent {W : Type} {client : SplitClient W}
    {runtime : Runtime W} {collab : Collaborators}
    (fuel : nat) (minKey maxKey : key) : Prop :=
  forall s, exists regions e s',
    PaginateScanRegion fuel minKey maxKey ScanRegionPaginationLimit s
    = Done (regions, Some e) s'
    /\ is_inconsistent_scan e.

(** Membership in a list that is written out. *)
Ltac in_list := apply list_elem_of_In; simpl; tauto.

(** ** Reference statements for the helpers and the wait loops *)

(** [EncodeBytes] seen one byte at a time: [n] bytes of the current
    group are still to be written. *)
Fixpoint EncodeBytes_at (n : nat) (data : list byte) : list byte :=
  match data with
  | [] =>
      match n with
      | O => codec.marker 0 :: replicate codec.encGroupSize x00
               ++ [codec.marker codec.encGroupSize]
      | S _ => replicate n x00 ++ [codec.marker n]
      end
  | x :: data' =>
      match n with
      | O => codec.marker 0 :: x :: EncodeBytes_at 7 data'
      | S n' => x :: EncodeBytes_at n' data'
      end
  end.

Definition encode_bound (k : key) : key :=
  if is_empty k then [] else codec.EncodeBytes k.

Definition stored (r : RegionInfo) : RegionInfo :=
  {| Region := {| metapb.Id := rId r;
                  metapb.StartKey := encode_bound (rStart r);
                  metapb.EndKey := encode_bound (rEnd r);
                  metapb.Peers := metapb.Peers (Region r) |};
     Leader := Leader r |}.

Definition in_range (rg : Range) (k : key) : bool :=
  bytes.ge k (Start rg) && beforeEnd k (End rg).

Definition has_prefix (s prefix : key) : Prop := exists tail, s = prefix ++ tail.

Definition inverse (rule : RewriteRule) : RewriteRule :=
  {| OldKeyPrefix := NewKeyPrefix rule; NewKeyPrefix := OldKeyPrefix rule |}.

(** The time a trace spends asleep. *)
Definition total_sleep (events : list Event) : Z :=
  foldr (fun e acc => match e with EvSleep d => d + acc | _ => acc end) 0 events.

Definition count_events (f : Event -> bool) (events : list Event) : nat :=
  length (List.filter f events).

Definition is_get_region (e : Event) : bool :=
  match e with EvGetRegionByID _ _ => true | _ => false end.

Definition is_get_operator (e : Event) : bool :=
  match e with EvGetOperator _ _ => true | _ => false end.

(** Events of a wait for region [regionID]: its polls, the sleeps
    between them and log lines. *)
Definition polls_region (regionID : N) (e : Event) : Prop :=
  match e with
  | EvGetRegionByID id _ => id = regionID
  | EvSleep _ => True
  | EvLog lvl text => lvl = WarnLevel /\ text = "wait for split failed"%string
  | _ => False
  end.

Definition polls_operator (regionID : N) (e : Event) : Prop :=
  match e with
  | EvGetOperator id _ => id = regionID
  | EvSleep _ => True
  | EvLog lvl text =>
      (lvl = InfoLevel /\ text = "get operator"%string)
      \/ (lvl = WarnLevel
          /\ text = "scatter region failed: do not have the region"%string)
  | _ => False
  end.

(** The sleeps of a poll loop that is never satisfied: the interval is
    doubled before every sleep, up to the cap. *)
Fixpoint wait_budget (n : nat) (interval cap : Z) : Z :=
  match n with
  | O => 0
  | S n' =>
      let interval := double_capped interval cap in
      interval + wait_budget n' interval cap
  end.

(** A cluster that accepts every scatter request. *)
Definition scatter_accepted {W : Type} {client : SplitClient W} : Prop :=
  forall region w, fst (ScatterRegion region w) = None.

Definition count_unscattered : list Event -> nat :=
  count_log WarnLevel "Some regions haven't been scattered because errors.".

(** ** Reference statements for runs that may be cut short *)

(** [yields m Q]: whenever [m] ends normally, its result and the events
    it added satisfy [Q]. *)
Definition yields {W A : Type} (m : M W A) (Q : A -> list Event -> Prop) : Prop :=
  forall st a st', m st = Done a st' ->
    exists delta, trace st' = trace st ++ delta /\ Q a delta.

Definition panicked {W A : Type} (o : Outcome W A) : bool :=
  match o with Panicked _ => true | _ => false end.

(** The scans of a trace, each with its start key and its answer. *)
Definition scan_calls (events : list Event)
    : list (key * (list RegionInfo * option error)) :=
  omap (fun e => match e with
                 | EvScanRegions startKey _ _ res => Some (startKey, res)
                 | _ => None
                 end) events.

Definition is_scan (endKey : key) (limit : Z) (e : Event) : Prop :=
  match e with
  | EvScanRegions _ endKey' limit' _ => endKey' = endKey /\ limit' = limit
  | _ => False
  end.

(** Pages that follow one another: the first is asked from [start];
    a page that is followed by another one came without an error, was
    full, and the next page is asked from the end key of its last
    region. *)
Fixpoint chained (limit : Z) (start : key)
    (calls : list (key * (list RegionInfo * option error))) : Prop :=
  match calls with
  | [] => True
  | (s, (batch, err)) :: rest =>
      s = start
      /\ (rest <> [] ->
          err = None /\ limit <= Z.of_nat (length batch)
          /\ exists lastRegion,
               last batch = Some lastRegion /\ chained limit (rEnd lastRegion) rest)
  end.

(** The regions of the pages that came without an error, in order. *)
Definition pages (calls : list (key * (list RegionInfo * option error)))
    : list RegionInfo :=
  concat (omap (fun c => match snd (snd c) with
                         | None => Some (fst (snd c))
                         | Some _ => None
                         end) calls).

Definition count_sleeps (events : list Event) : nat :=
  count_events (fun e => match e with EvSleep _ => true | _ => false end) events.

Definition count_scan_retries : list Event -> nat :=
  count_log WarnLevel "failed to scan region, retrying".

Ltac nil_counts :=
  change (count_scan_retries []) with 0%nat;
  change (count_sleeps []) with 0%nat;
  change (total_sleep []) with 0;
  change time.Millisecond with 1000000 in *.

(** A cluster that answers every scan of [minKey, maxKey) with the
    same regions. *)
Definition scans_answer {W : Type} {client : SplitClient W}
    (minKey maxKey : key) (regions : list RegionInfo) : Prop :=
  forall w, exists w',
    ScanRegions minKey maxKey ScanRegionPaginationLimit w = ((regions, None), w').

(** A cluster that refuses every batch split, for a reason other than
    "no valid key". *)
Definition splits_fail {W : Type} {client : SplitClient W} : Prop :=
  forall region keys w, exists newRegions e w',
    BatchSplitRegions region keys w = ((newRegions, Some e), w')
    /\ strings.Contains (errors.msg e) "no valid key" = false.

Definition is_scan_call (e : Event) : bool :=
  match e with EvScanRegions _ _ _ _ => true | _ => false end.
Definition is_split_call (e : Event) : bool :=
  match e with EvBatchSplitRegions _ _ _ => true | _ => false end.
Definition is_scatter_call (e : Event) : bool :=
  match e with EvScatterRegion _ _ => true | _ => false end.

(** ** Reference statements for the waits and the progress report *)

(** What a [GetOperator] answer means for the wait: the scatter is
    over, it is still going on, or the answer is an error. *)
Inductive OperatorVerdict := Settled | Pending | Failed.

Definition operator_verdict (res : pdpb.GetOperatorResponse * option error)
    : OperatorVerdict :=
  match snd res with
  | Some _ => Failed
  | None =>
      match pdpb.HeaderError (fst res) with
      | Some pdpb.REGION_NOT_FOUND => Settled
      | Some _ => Failed
      | None =>
          if String.eqb (pdpb.Desc (fst res)) "scatter-region"
             && match pdpb.Status (fst res) with pdpb.RUNNING => true | _ => false end
          then Pending else Settled
      end
  end.

(** A clock that sleeps do not turn back and that the operator query
    does not turn back either. *)
Definition clock_advances {W : Type} {client : SplitClient W}
    {runtime : Runtime W} : Prop :=
  (forall d w, 0 <= d -> time_Now w + d <= time_Now (time_Sleep d w))
  /\ (forall regionID w, time_Now w <= time_Now (snd (GetOperator regionID w))).

(** What a [GetRegionByID] answer means for the wait: the region is
    there, it is not there yet, or the answer is an error. *)
Definition region_verdict (res : option RegionInfo * option error)
    : OperatorVerdict :=
  match snd res with
  | Some _ => Failed
  | None => match fst res with Some _ => Settled | None => Pending end
  end.

(** The verdicts of the polls of a trace, oldest first. *)
Definition operator_verdicts (events : list Event) : list OperatorVerdict :=
  omap (fun e => match e with
                 | EvGetOperator _ res => Some (operator_verdict res)
                 | _ => None
                 end) events.

Definition region_verdicts (events : list Event) : list OperatorVerdict :=
  omap (fun e => match e with
                 | EvGetRegionByID _ res => Some (region_verdict res)
                 | _ => None
                 end) events.

Definition count_warnings (events : list Event) : nat :=
  count_events (fun e => match e with EvLog WarnLevel _ => true | _ => false end)
    events.

(** A poll loop of at most [n] polls that stops at the first answer
    that is not [Pending]: one sleep after every [Pending] answer, and
    one warning when the last answer is an error. *)
Definition polled_until (n : nat) (verdicts : list OperatorVerdict)
    (sleeps warnings : nat) : Prop :=
  (verdicts = replicate n Pending /\ sleeps = n /\ warnings = 0%nat)
  \/ exists k v,
       (k < n)%nat /\ v <> Pending
       /\ verdicts = replicate k Pending ++ [v]
       /\ sleeps = k
       /\ warnings = match v with Failed => 1%nat | _ => 0%nat end.

(** The progress callbacks of a trace, and its batch splits with the
    keys asked for and the answer. *)
Definition on_split_calls (events : list Event) : list (list key) :=
  omap (fun e => match e with EvOnSplit keys => Some keys | _ => None end) events.

Definition split_answers (events : list Event)
    : list (list key * (list RegionInfo * option error)) :=
  omap (fun e => match e with
                 | EvBatchSplitRegions _ keys res => Some (keys, res)
                 | _ => None
                 end) events.

(** The keys of the batch splits that went through. *)
Definition keys_split (events : list Event) : list (list key) :=
  omap (fun a => match snd (snd a) with
                 | None => Some (fst a)
                 | Some _ => None
                 end) (split_answers events).

(** An event that is neither a batch split nor a progress callback. *)
Definition plain (e : Event) : Prop :=
  match e with
  | EvOnSplit _ | EvBatchSplitRegions _ _ _ => False
  | _ => True
  end.

(** Proof steps for the case analysis of a run of the restore task. *)
Ltac run_leaves :=
  cbn [fst snd];
  match goal with
  | |- exists body, ?events ++ _ = _ /\ _ =>
      exists events; split; reflexivity
  end.

Ltac outcome_leaf :=
  cbn; repeat split; try done; try (intros [H|H]; discriminate H); auto.

(** * Example clusters

    Small scripted clusters on which the statements below are run. *)

Module Examples.

(** A cluster that answers every call from a fixed table; its state is
    the wall clock, in nanoseconds. *)
Record Script := {
  on_scan : key -> key -> Z -> list RegionInfo * option error;
  on_get : N -> option RegionInfo * option error;
  on_split : RegionInfo -> list key -> list RegionInfo * option error;
  on_scatter : RegionInfo -> option error;
  on_operator : N -> pdpb.GetOperatorResponse * option error;
}.

Definition scripted (sc : Script) : SplitClient Z := {|
  ScanRegions startKey endKey limit w := (on_scan sc startKey endKey limit, w);
  GetRegionByID regionID w := (on_get sc regionID, w);
  BatchSplitRegions region keys w := (on_split sc region keys, w);
  ScatterRegion region w := (on_scatter sc region, w);
  GetOperator regionID w := (on_operator sc regionID, w);
|}.

(** Time passes in sleeps only; maps are walked in the order of their
    entry list. *)
Definition wall_clock : Runtime Z := {|
  time_Now w := w;
  time_Sleep d w := w + d;
  map_range A w m := map_to_list m;
  map_range_perm A w m := reflexivity (map_to_list m);
|}.

Definition collaborators : Collaborators := {|
  redact_Key k := hex.EncodeToString k;
  SortRanges ranges _ := (ranges, None);
  pdErrorCanRetry e :=
    strings.Contains (errors.msg e) "is not fully replicated"
    || strings.Contains (errors.msg e) "has no leader";
|}.

Definition region (id : N) (startKey endKey : string) : RegionInfo :=
  {| Region := {| metapb.Id := id; metapb.StartKey := bs startKey;
                  metapb.EndKey := bs endKey; metapb.Peers := [] |};
     Leader := None |}.

(** A region whose boundaries are encoded keys, as the cluster keeps
    them. *)
Definition enc_region (id : N) (startKey endKey : string) : RegionInfo :=
  {| Region := {| metapb.Id := id;
                  metapb.StartKey := codec.EncodeBytes (bs startKey);
                  metapb.EndKey := codec.EncodeBytes (bs endKey);
                  metapb.Peers := [] |};
     Leader := None |}.

(** A sorted topology [a,g) [g,m) [m,z). *)
Definition sorted_topology : list RegionInfo :=
  [enc_region 1 "a" "g"; enc_region 2 "g" "m"; enc_region 3 "m" "z"].

(** A chain [a,m) [m,c) [c,z): every region ends where the next one
    starts, yet the second one runs backwards and the first and the
    third overlap. *)
Definition folded_chain : list RegionInfo :=
  [enc_region 1 "a" "m"; enc_region 2 "m" "c"; enc_region 3 "c" "z"].

(** A sorted topology (-inf,m) [m,+inf) whose boundaries are kept as
    plain keys. *)
Definition plain_topology : list RegionInfo :=
  [region 1 "" "m"; region 2 "m" ""].

Definition range (startKey endKey : string) : rtree.Range :=
  {| rtree.StartKey := bs startKey; rtree.EndKey := bs endKey |}.

Definition no_rules : RewriteRules := {| Data := [] |}.

Definition start_state : State Z := {| world := 0; trace := [] |}.

Definition operator_done : pdpb.GetOperatorResponse * option error :=
  ({| pdpb.HeaderError := None; pdpb.Desc := "scatter-region";
      pdpb.Status := pdpb.SUCCESS |}, None).

(** One region over the whole key space, always found and scattered. *)
Definition whole_space : Script := {|
  on_scan _ _ _ := ([region 1 "" ""], None);
  on_get id := (Some (region id "" ""), None);
  on_split _ _ := ([], None);
  on_scatter _ := None;
  on_operator _ := operator_done;
|}.

(** The region [a,z), which a split at [m] cuts into [a,m) and [m,z). *)
Definition splits_at_m : Script := {|
  on_scan _ _ _ := ([region 1 "a" "z"], None);
  on_get id := (Some (region id "" ""), None);
  on_split _ _ := ([region 2 "a" "m"; region 3 "m" "z"], None);
  on_scatter _ := None;
  on_operator _ := operator_done;
|}.

Definition whole : RegionInfo := region 1 "" "".

Definition refusal (text : string) : error :=
  {| errors.code := None; errors.msg := text |}.

(** The scan of [a, m) answered with the one region. *)
Definition scan_a_m : Event :=
  EvScanRegions (codec.EncodeBytes (bs "a")) (codec.EncodeBytes (bs "m")) 128
    ([whole], None).

Definition first_attempt : SplitVars :=
  {| interval := SplitRetryInterval; scatterRegions := []; errSplit := None |}.

(** One open-ended region over the whole key space whose every split
    is refused with the given message. *)
Definition refuses_split (text : string) : Script := {|
  on_scan _ _ _ := ([whole], None);
  on_get id := (Some (region id "" ""), None);
  on_split _ _ := ([], Some (refusal text));
  on_scatter _ := None;
  on_operator _ := operator_done;
|}.

(** A cluster whose scans come back empty, every time. *)
Definition empty_scans : Script := {|
  on_scan _ _ _ := ([], None);
  on_get id := (Some (region id "" ""), None);
  on_split _ _ := ([], None);
  on_scatter _ := None;
  on_operator _ := operator_done;
|}.

(** The whole key space, cut into a region ending at [m] and one
    starting at [n]; every scatter request is refused, for a reason
    that is worth no retry. *)
Definition scatter_refused : Script := {|
  on_scan _ _ _ := ([whole], None);
  on_get id := (Some (region id "" ""), None);
  on_split _ _ := ([region 2 "" "m"; region 3 "n" ""], None);
  on_scatter _ := Some (refusal "region 2 is hot");
  on_operator _ := operator_done;
|}.

(** Four regions from [a] to [e], handed out two at a time. *)
Definition paged_scans : Script := {|
  on_scan startKey _ _ :=
    if bytes.Equal startKey (bs "a")
    then ([region 1 "a" "b"; region 2 "b" "c"], None)
    else ([region 3 "c" "d"; region 4 "d" "e"], None);
  on_get id := (Some (region id "" ""), None);
  on_split _ _ := ([], None);
  on_scatter _ := None;
  on_operator _ := operator_done;
|}.
(** A cluster whose scans fail. *)
Definition scan_fails : Script := {|
  on_scan _ _ _ := ([], Some (refusal "pd is not reachable"));
  on_get id := (Some (region id "" ""), None);
  on_split _ _ := ([], None);
  on_scatter _ := None;
  on_operator _ := operator_done;
|}.

(** The whole key space cut at [m], the boundary kept encoded. *)
Definition cut_at_m : list RegionInfo :=
  [ {| Region := {| metapb.Id := 2; metapb.StartKey := [];
                    metapb.EndKey := codec.EncodeBytes (bs "m");
                    metapb.Peers := [] |};
       Leader := None |};
    {| Region := {| metapb.Id := 3;
                    metapb.StartKey := codec.EncodeBytes (bs "m");
                    metapb.EndKey := []; metapb.Peers := [] |};
       Leader := None |} ].

(** The whole key space in one region at time 0 and, from then on, cut
    at [m] by somebody else; every split of ours is refused as stale.
    The state is the wall clock. *)
Definition split_by_others : SplitClient Z := {|
  ScanRegions _ _ _ w :=
    (if w =? 0 then ([whole], None) else (cut_at_m, None), w);
  GetRegionByID id w := ((Some (region id "" ""), None), w);
  BatchSplitRegions _ _ w := (([], Some (refusal "epoch not match")), w);
  ScatterRegion _ w := (None, w);
  GetOperator _ w := (operator_done, w);
|}.

(** A cluster on which every scatter goes on for ever. *)
Definition scatter_never_ends : Script := {|
  on_scan _ _ _ := ([whole], None);
  on_get id := (Some (region id "" ""), None);
  on_split _ _ := ([region 2 "" "m"; region 3 "m" ""], None);
  on_scatter _ := None;
  on_operator _ :=
    ({| pdpb.HeaderError := None; pdpb.Desc := "scatter-region";
        pdpb.Status := pdpb.RUNNING |}, None);
|}.

End Examples.

(** * Properties *)

(** ** Byte order *)

Module bytes_facts.
Import bytes.

Lemma cmp_byte_refl (a : byte) : cmp_byte a a = Eq.
Proof. apply N.compare_refl. Qed.

Lemma cmp_byte_eq (a b : byte) : cmp_byte a b = Eq -> a = b.
Proof.
  unfold cmp_byte. intros H%N.compare_eq.
  pose proof (Byte.of_to_N a) as Ha. pose proof (Byte.of_to_N b) as Hb.
  rewrite H in Ha. congruence.
Qed.

Lemma Compare_refl (a : list byte) : Compare a a = Eq.
Proof. induction a as [|x a IH]; simpl; [done|]. by rewrite cmp_byte_refl. Qed.

Lemma Compare_eq (a b : list byte) : Compare a b = Eq -> a = b.
Proof.
  revert b. induction a as [|x a IH]; intros [|y b]; simpl; try done.
  destruct (cmp_byte x y) eqn:E; try done.
  intros H. apply cmp_byte_eq in E. f_equal; auto.
Qed.

Lemma Compare_eq_iff (a b : list byte) : Compare a b = Eq <-> a = b.
Proof. split; [apply Compare_eq | intros ->; apply Compare_refl]. Qed.

Lemma Equal_true (a b : list byte) : Equal a b = true <-> a = b.
Proof.
  revert b. induction a as [|x a IH]; intros [|y b]; simpl; try done.
  rewrite andb_true_iff, IH. split.
  - intros [H ->]. f_equal. by apply Byte.byte_dec_bl.
  - intros [= -> ->]. split; [|done]. by apply Byte.byte_dec_lb.
Qed.

Lemma Equal_false (a b : list byte) : Equal a b = false <-> a <> b.
Proof.
  rewrite <- Equal_true. destruct (Equal a b); split; congruence.
Qed.

Lemma cmp_byte_antisym (a b : byte) : cmp_byte b a = CompOpp (cmp_byte a b).
Proof. apply N.compare_antisym. Qed.

Lemma Compare_antisym (a b : list byte) : Compare b a = CompOpp (Compare a b).
Proof.
  revert b. induction a as [|x a IH]; intros [|y b]; simpl; try done.
  rewrite (cmp_byte_antisym x y). destruct (cmp_byte x y); simpl; auto.
Qed.

Lemma cmp_byte_lt_trans (a b c : byte) :
  cmp_byte a b = Lt -> cmp_byte b c = Lt -> cmp_byte a c = Lt.
Proof. unfold cmp_byte. rewrite !N.compare_lt_iff. lia. Qed.

Lemma Compare_lt_trans (a b c : list byte) :
  Compare a b = Lt -> Compare b c = Lt -> Compare a c = Lt.
Proof.
  revert b c. induction a as [|x a IH]; intros [|y b] [|z c]; simpl; try done.
  destruct (cmp_byte x y) eqn:Exy; try done.
  - apply cmp_byte_eq in Exy as ->.
    destruct (cmp_byte y z); try done. eauto.
  - destruct (cmp_byte y z) eqn:Eyz; try done.
    + apply cmp_byte_eq in Eyz as ->. by rewrite Exy.
    + by rewrite (cmp_byte_lt_trans _ _ _ Exy Eyz).
Qed.

Lemma lt_trans (a b c : list byte) : lt a b = true -> lt b c = true -> lt a c = true.
Proof.
  unfold lt. destruct (Compare a b) eqn:E1; try done.
  destruct (Compare b c) eqn:E2; try done.
  by rewrite (Compare_lt_trans _ _ _ E1 E2).
Qed.

Lemma gt_lt (a b : list byte) : gt a b = lt b a.
Proof. unfold gt, lt. rewrite (Compare_antisym a b). by destruct (Compare a b). Qed.

Lemma ge_le (a b : list byte) : ge a b = le b a.
Proof. unfold ge, le. rewrite (Compare_antisym a b). by destruct (Compare a b). Qed.

Lemma le_not_gt (a b : list byte) : le a b = negb (gt a b).
Proof. unfold le, gt. by destruct (Compare a b). Qed.

Lemma ge_not_lt (a b : list byte) : ge a b = negb (lt a b).
Proof. unfold ge, lt. by destruct (Compare a b). Qed.

Lemma lt_irrefl (a : list byte) : lt a a = false.
Proof. unfold lt. by rewrite Compare_refl. Qed.

Lemma lt_ne (a b : list byte) : lt a b = true -> a <> b.
Proof. intros H ->. by rewrite lt_irrefl in H. Qed.

Lemma lt_nil_r (a : list byte) : lt a [] = false.
Proof. by destruct a. Qed.

Lemma ge_nil_r (a : list byte) : ge a [] = true.
Proof. by destruct a. Qed.

End bytes_facts.

(** ** Topology scanner: the consistency check *)

Section ScannerFacts.
Context {collab : Collaborators}.

Lemma Annotatef_inconsistent text :
  is_inconsistent_scan (errors.Annotatef berrors.ErrPDBatchScanRegion text).
Proof. reflexivity. Qed.

Lemma check_adjacent_None cur rest :
  check_adjacent cur rest = None <->
  (forall (i : nat) r next,
     (cur :: rest) !! i = Some r -> (cur :: rest) !! S i = Some next ->
     rEnd r = rStart next).
Proof.
  revert cur. induction rest as [|r' rest IH]; intros cur; simpl.
  - split; [|done]. intros _ [|i] r next; simpl; [done|]. by destruct i.
  - destruct (bytes.Equal (rEnd cur) (rStart r')) eqn:E; simpl.
    + apply bytes_facts.Equal_true in E. rewrite IH. split.
      * intros H [|i] r next Hr Hn.
        -- simpl in *. congruence.
        -- apply (H i r next); done.
      * intros H i r next Hr Hn. apply (H (S i) r next); done.
    + apply bytes_facts.Equal_false in E. split; [done|].
      intros H. exfalso. apply E. apply (H 0%nat cur r'); done.
Qed.

Lemma check_adjacent_Some cur rest e :
  check_adjacent cur rest = Some e -> is_inconsistent_scan e.
Proof.
  revert cur. induction rest as [|r' rest IH]; intros cur; simpl; [done|].
  destruct (bytes.Equal (rEnd cur) (rStart r')); simpl; [apply IH|].
  intros [= <-]. apply Annotatef_inconsistent.
Qed.

Lemma last_cons_default (first : RegionInfo) (rest : list RegionInfo) :
  last (first :: rest) = Some (List.last (first :: rest) first).
Proof.
  revert first. induction rest as [|r rest IH]; intros first; [done|].
  change (last (first :: r :: rest)) with (last (r :: rest)).
  rewrite IH. f_equal. simpl. destruct rest; [done|].
  clear. revert r. generalize r0. clear.
  induction rest as [|x rest IH]; intros; [done|]. apply (IH x).
Qed.

(** The check accepts exactly the lists that tile the interval, and
    rejects with the inconsistent-scan error, which the scan policy
    answers with 500ms and one attempt less. *)
Lemma checkRegionConsistency_spec (startKey endKey : key)
    (regions : list RegionInfo) :
  (checkRegionConsistency startKey endKey regions = None
     <-> tiles_interval startKey endKey regions)
  /\ (forall e, checkRegionConsistency startKey endKey regions = Some e ->
        is_inconsistent_scan e
        /\ NextBackoff newScanRegionBackoffer (Some e)
           = (500 * time.Millisecond, {| attempt := 2 |})).
Proof.
  assert (Hcls : forall e, checkRegionConsistency startKey endKey regions = Some e ->
                           is_inconsistent_scan e).
  { intros e. unfold checkRegionConsistency.
    destruct regions as [|first rest].
    { intros [= <-]. apply Annotatef_inconsistent. }
    destruct (bytes.gt _ _).
    { intros [= <-]. apply Annotatef_inconsistent. }
    destruct (_ && _).
    { intros [= <-]. apply Annotatef_inconsistent. }
    apply check_adjacent_Some. }
  split.
  2: { intros e He. specialize (Hcls e He). split; [done|].
       unfold is_inconsistent_scan in Hcls.
       change (NextBackoff newScanRegionBackoffer (Some e)) with
         (if errors.Equal berrors.ErrPDBatchScanRegion (Some e)
          then (500 * time.Millisecond, {| attempt := int_wrap (3 - 1) |})
          else (0, {| attempt := 0 |})).
       by rewrite Hcls. }
  unfold tiles_interval, checkRegionConsistency.
  destruct regions as [|first rest].
  { split; [done|]. by intros [? _]. }
  rewrite last_cons_default.
  set (lastRegion := List.last (first :: rest) first).
  rewrite bytes_facts.gt_lt.
  destruct (bytes.lt startKey (rStart first)) eqn:Hfirst.
  { split; [done|]. intros (_ & H & _). specialize (H first eq_refl).
    rewrite bytes_facts.le_not_gt, bytes_facts.gt_lt, Hfirst in H. done. }
  destruct (is_empty (rEnd lastRegion)) eqn:Hopen; simpl.
  - rewrite check_adjacent_None. split.
    + intros H. split_and!; [done| | |done].
      2: { intros ? [= <-]. left. by destruct (rEnd lastRegion). }
      intros ? [= <-].
      by rewrite bytes_facts.le_not_gt, bytes_facts.gt_lt, Hfirst.
    + by intros (_ & _ & _ & H).
  - destruct (bytes.lt (rEnd lastRegion) endKey) eqn:Hlast.
    + split; [done|]. intros (_ & _ & H & _).
      destruct (H lastRegion eq_refl) as [H'|H'].
      * by rewrite H' in Hopen.
      * by rewrite bytes_facts.ge_not_lt, Hlast in H'.
    + rewrite check_adjacent_None. split.
      * intros H. split_and!; [done| | |done].
        -- intros ? [= <-].
           by rewrite bytes_facts.le_not_gt, bytes_facts.gt_lt, Hfirst.
        -- intros ? [= <-]. right. by rewrite bytes_facts.ge_not_lt, Hlast.
      * by intros (_ & _ & _ & H).
Qed.

End ScannerFacts.

(** ** Running computations *)

Section ExecFacts.
Context {W : Type}.

Lemma bind_Done {A B} (m : M W A) (k : A -> M W B) s a s' :
  m s = Done a s' -> bind m k s = k a s'.
Proof. unfold bind. by intros ->. Qed.

Lemma bind_Panicked {A B} (m : M W A) (k : A -> M W B) s s' :
  m s = Panicked s' -> bind m k s = Panicked s'.
Proof. unfold bind. by intros ->. Qed.

Lemma bind_assoc {A B C} (m : M W A) (k : A -> M W B) (k' : B -> M W C) s :
  bind (bind m k) k' s = bind m (fun a => bind (k a) k') s.
Proof. unfold bind. by destruct (m s). Qed.

Lemma bind_run_eq {A B} (m m' : M W A) (k : A -> M W B) s s' :
  m s = m' s' -> bind m k s = bind m' k s'.
Proof. unfold bind. by intros ->. Qed.

Lemma get_world_run (s : State W) : get_world s = Done (world s) s.
Proof. done. Qed.

Lemma rpc_run {A} (f : W -> A * W) (ev : A -> Event) s a w :
  f (world s) = (a, w) ->
  rpc f ev s = Done a {| world := w; trace := trace s ++ [ev a] |}.
Proof. unfold rpc. by intros ->. Qed.

End ExecFacts.

(** ** Computations that always end normally *)

Section Delivers.
Context {W : Type} {runtime : Runtime W}.

Lemma delivers_ret {A} (a : A) (Q : A -> list Event -> Prop) :
  Q a [] -> delivers (W := W) (ret a) Q.
Proof. intros HQ st. exists a, st, []. by rewrite app_nil_r. Qed.

Lemma delivers_ret_eq {A} (a : A) :
  delivers (W := W) (ret a) (fun b d => b = a /\ d = []).
Proof. by apply delivers_ret. Qed.

Lemma delivers_bind {A B} (m : M W A) (k : A -> M W B)
    (Q1 : A -> list Event -> Prop) (Q : B -> list Event -> Prop) :
  delivers m Q1 ->
  (forall a d1, Q1 a d1 -> delivers (k a) (fun b d2 => Q b (d1 ++ d2))) ->
  delivers (bind m k) Q.
Proof.
  intros Hm Hk st. destruct (Hm st) as (a & st1 & d1 & Hrun & Htr & HQ1).
  destruct (Hk a d1 HQ1 st1) as (b & st2 & d2 & Hrun2 & Htr2 & HQ).
  exists b, st2, (d1 ++ d2). split_and!; [|by rewrite Htr2, Htr, app_assoc|done].
  by rewrite (bind_Done _ _ _ _ _ Hrun).
Qed.

Lemma delivers_weaken {A} (m : M W A) (Q Q' : A -> list Event -> Prop) :
  delivers m Q -> (forall a d, Q a d -> Q' a d) -> delivers m Q'.
Proof.
  intros Hm HQ st. destruct (Hm st) as (a & st' & d & ? & ? & ?).
  exists a, st', d. auto.
Qed.

Lemma delivers_emit (e : Event) :
  delivers (W := W) (emit e) (fun _ d => d = [e]).
Proof. intros st. by eexists tt, _, [e]. Qed.

Lemma delivers_log lvl text :
  delivers (W := W) (log lvl text) (fun _ d => d = [EvLog lvl text]).
Proof. apply delivers_emit. Qed.

Lemma delivers_sleep t : delivers (sleep t) (fun _ d => d = [EvSleep t]).
Proof. intros st. by eexists tt, _, [EvSleep t]. Qed.

Lemma delivers_get_world :
  delivers (W := W) get_world (fun _ d => d = []).
Proof. intros st. exists (world st), st, []. by rewrite app_nil_r. Qed.

Lemma delivers_rpc {A} (f : W -> A * W) (ev : A -> Event) :
  delivers (rpc f ev) (fun a d => d = [ev a]).
Proof.
  intros st. destruct (f (world st)) as [a w] eqn:Hf.
  exists a, {| world := w; trace := trace st ++ [ev a] |}, [ev a].
  split_and!; [by apply rpc_run|done|done].
Qed.

End Delivers.

(** ** Topology scanner: input check and retry policy *)

Section PaginateFacts.
Context {W : Type} {client : SplitClient W} {runtime : Runtime W}
  {collab : Collaborators}.

Lemma scan_pages_short_page fuel startKey endKey limit acc st regions w' :
  ScanRegions startKey endKey limit (world st) = ((regions, None), w') ->
  Z.of_nat (length regions) < limit ->
  scan_pages (S fuel) endKey limit startKey acc st
  = Done (None, acc ++ regions)
      {| world := w';
         trace := trace st ++ [EvScanRegions startKey endKey limit (regions, None)] |}.
Proof.
  intros Hscan Hlen%Z.ltb_lt. cbn [scan_pages].
  rewrite (bind_Done _ _ _ _ _ (rpc_run _ _ _ _ _ Hscan)).
  by rewrite Hlen.
Qed.

Lemma scan_attempt_rejected fuel startKey endKey limit l (st st1 : State W)
    regions e :
  scan_pages fuel endKey limit startKey [] st = Done (None, regions) st1 ->
  checkRegionConsistency startKey endKey regions = Some e ->
  scan_attempt fuel startKey endKey limit l st
  = Done (Some e, regions)
      {| world := world st1;
         trace := trace st1 ++ [EvLog WarnLevel "failed to scan region, retrying"] |}.
Proof.
  intros Hpages Hcheck. unfold scan_attempt.
  rewrite (bind_Done _ _ _ _ _ Hpages). cbv beta iota. by rewrite Hcheck.
Qed.

(** C1.  [checkRegionConsistency] accepts a region list for
    [startKey, endKey) exactly when the list tiles the interval in the
    spec's sense: it is not empty, its first region starts at or before
    [startKey], its last region ends at or after [endKey] or is
    open-ended, and every region ends where the next one starts.  Every
    rejection is the inconsistent-scan error, and the scan is retried
    on it: when the pages of an attempt add up to a list the check
    rejects, [PaginateScanRegion]'s retry loop does not hand the list
    out but logs, waits 500ms and scans again from scratch with one
    attempt less. *)
Theorem checkRegionConsistency_tiles (startKey endKey : key)
    (regions : list RegionInfo) :
  (checkRegionConsistency startKey endKey regions = None
     <-> tiles_interval startKey endKey regions)
  /\ (forall e, checkRegionConsistency startKey endKey regions = Some e ->
        is_inconsistent_scan e
        /\ forall (fuel fuel' : nat) (limit : Z) (st st1 : State W)
                  (l : list RegionInfo) (lastErr : option error),
             scan_pages fuel endKey limit startKey [] st = Done (None, regions) st1 ->
             WithRetry (S fuel') (scan_attempt fuel startKey endKey limit)
               newScanRegionBackoffer l lastErr st
             = WithRetry fuel' (scan_attempt fuel startKey endKey limit)
                 {| attempt := 2 |} regions (Some e)
                 {| world := time_Sleep (500 * time.Millisecond) (world st1);
                    trace := trace st1
                      ++ [EvLog WarnLevel "failed to scan region, retrying";
                          EvSleep (500 * time.Millisecond)] |}).
Proof.
  destruct (checkRegionConsistency_spec startKey endKey regions) as [Hiff Hrej].
  split; [done|]. intros e He. destruct (Hrej e He) as [Hcls Hnext].
  split; [done|]. intros fuel fuel' limit st st1 l lastErr Hpages.
  cbn [WithRetry]. change (Attempt newScanRegionBackoffer >? 0) with true. cbv iota.
  rewrite (bind_Done _ _ _ _ _
    (scan_attempt_rejected _ _ _ _ l _ _ _ _ Hpages He)).
  cbv beta iota. rewrite Hnext.
  rewrite (bind_Done _ _ _ _ _ (eq_refl : sleep _ _ = Done tt _)).
  cbn [world trace]. by rewrite <- app_assoc.
Qed.

(** C5.  A bounded range whose start is not before its end is refused
    on the spot: the result is the invalid-range error and the state is
    untouched, so the cluster was not asked and nothing was retried.
    With an empty [endKey] no start key is refused: whenever the
    cluster answers the scan of [startKey, +inf) with a consistent page
    shorter than the limit, that page is the result, after exactly one
    [ScanRegions] call. *)
Theorem PaginateScanRegion_range_check (fuel : nat) (startKey endKey : key)
    (limit : Z) (st : State W) :
  (endKey <> [] -> bytes.ge startKey endKey = true ->
     exists e,
       PaginateScanRegion fuel startKey endKey limit st = Done ([], Some e) st
       /\ errors.Equal berrors.ErrRestoreInvalidRange (Some e) = true
       /\ errors.Equal berrors.ErrPDBatchScanRegion (Some e) = false)
  /\ (endKey = [] ->
      forall regions w',
        ScanRegions startKey endKey limit (world st) = ((regions, None), w') ->
        Z.of_nat (length regions) < limit ->
        checkRegionConsistency startKey endKey regions = None ->
        PaginateScanRegion (S fuel) startKey endKey limit st
        = Done (regions, None)
            {| world := w';
               trace := trace st
                 ++ [EvScanRegions startKey endKey limit (regions, None)] |}).
Proof.
  split.
  - intros Hne Hge. unfold PaginateScanRegion.
    destruct endKey as [|b endKey']; [done|]. simpl is_empty. simpl negb.
    rewrite Hge. simpl. eexists. split; [reflexivity|]. done.
  - intros -> regions w' Hscan Hlen Hcheck.
    unfold PaginateScanRegion. simpl is_empty. simpl negb. simpl andb. cbv iota.
    assert (Hattempt : forall l,
      scan_attempt (S fuel) startKey [] limit l st
      = Done (None, regions)
          {| world := w';
             trace := trace st ++ [EvScanRegions startKey [] limit (regions, None)] |}).
    { intros l. unfold scan_attempt.
      rewrite (bind_Done _ _ _ _ _
        (scan_pages_short_page fuel _ _ _ [] _ _ _ Hscan Hlen)).
      cbn [app]. by rewrite Hcheck. }
    unfold PaginateScanRegion. cbn [is_empty negb andb].
    rewrite (bind_Done _ _ _ (None, newScanRegionBackoffer, regions)
      {| world := w';
         trace := trace st ++ [EvScanRegions startKey [] limit (regions, None)] |});
      [reflexivity|].
    cbn [WithRetry]. change (Attempt newScanRegionBackoffer >? 0) with true.
    cbv iota. by rewrite (bind_Done _ _ _ _ _ (Hattempt [])).
Qed.

End PaginateFacts.

(** C5, on a cluster: the range [m, a) is refused without a call, and
    the unbounded scan from [zzz] is served by one call. *)
Lemma PaginateScanRegion_range_check_witness :
  (exists e,
     PaginateScanRegion (client := Examples.scripted Examples.whole_space)
       (runtime := Examples.wall_clock) (collab := Examples.collaborators)
       5 (bs "m") (bs "a") 128 Examples.start_state
     = Done ([], Some e) Examples.start_state
     /\ errors.Equal berrors.ErrRestoreInvalidRange (Some e) = true
     /\ errors.Equal berrors.ErrPDBatchScanRegion (Some e) = false)
  /\ PaginateScanRegion (client := Examples.scripted Examples.whole_space)
       (runtime := Examples.wall_clock) (collab := Examples.collaborators)
       5 (bs "zzz") [] 128 Examples.start_state
     = Done ([Examples.region 1 "" ""], None)
         {| world := 0;
            trace := [EvScanRegions (bs "zzz") [] 128
                        ([Examples.region 1 "" ""], None)] |}.
Proof.
  split.
  - apply (PaginateScanRegion_range_check (client := Examples.scripted Examples.whole_space)
             5 (bs "m") (bs "a") 128 Examples.start_state); [done | reflexivity].
  - apply (PaginateScanRegion_range_check (client := Examples.scripted Examples.whole_space)
             4 (bs "zzz") [] 128 Examples.start_state);
      [reflexivity | reflexivity | reflexivity | reflexivity].
Defined.

(** C6.  The scan policy starts with three attempts.  On the
    inconsistent-scan error it answers 500ms and takes one attempt off
    (Go's [attempt--]; no wrap-around above the least [int]), so three
    such errors leave none; on any other error, nil included, it
    answers 0 and leaves no attempt at all. *)
Theorem scanRegionBackoffer_policy (b : scanRegionBackoffer) (err : option error) :
  (errors.Equal berrors.ErrPDBatchScanRegion err = true ->
     NextBackoff b err
       = (500 * time.Millisecond, {| attempt := int_wrap (attempt b - 1) |})
     /\ (- 2 ^ 63 < attempt b < 2 ^ 63 ->
         Attempt (snd (NextBackoff b err)) = Attempt b - 1))
  /\ (errors.Equal berrors.ErrPDBatchScanRegion err = false ->
        NextBackoff b err = (0, {| attempt := 0 |}))
  /\ Attempt newScanRegionBackoffer = 3
  /\ (errors.Equal berrors.ErrPDBatchScanRegion err = true ->
        let b1 := snd (NextBackoff newScanRegionBackoffer err) in
        let b2 := snd (NextBackoff b1 err) in
        let b3 := snd (NextBackoff b2 err) in
        Attempt b1 = 2 /\ Attempt b2 = 1 /\ Attempt b3 = 0).
Proof.
  assert (Hstep : forall b' : scanRegionBackoffer,
    NextBackoff b' err
    = if errors.Equal berrors.ErrPDBatchScanRegion err
      then (500 * time.Millisecond, {| attempt := int_wrap (attempt b' - 1) |})
      else (0, {| attempt := 0 |})) by reflexivity.
  split_and!.
  - intros Heq. rewrite Hstep, Heq. split; [done|]. intros Hrange.
    cbn [snd Attempt scanRegionBackoffer_Backoffer attempt].
    unfold int_wrap. rewrite Z.mod_small; lia.
  - intros Heq. by rewrite Hstep, Heq.
  - done.
  - intros Heq. cbv zeta. rewrite !Hstep, !Heq. done.
Qed.

(** C10.  [Split] on an empty list of ranges returns nil at once: the
    cluster is left as it was and the only trace is the log line. *)
Theorem Split_no_range {W : Type} {client : SplitClient W} {runtime : Runtime W}
    {collab : Collaborators} (fuel : nat) (rewriteRules : RewriteRules)
    (st : State W) :
  Split fuel [] rewriteRules st
  = Done None
      {| world := world st;
         trace := trace st ++ [EvLog InfoLevel "skip split regions, no range"] |}.
Proof. reflexivity. Qed.

(** ** Split-key planner *)

Section PlannerFacts.
Import bytes_facts.

Lemma EncodeBytes_nonempty (k : key) : codec.EncodeBytes k <> [].
Proof.
  unfold codec.EncodeBytes. rewrite Nat.add_1_r. cbn [codec.EncodeBytes_from].
  destruct (codec.encGroupSize <=? length k)%nat.
  - by destruct (take codec.encGroupSize k).
  - destruct k; [|done]. by cbn.
Qed.

Lemma NeedSplit_scan_Some k regions r :
  NeedSplit_scan k regions = Some r ->
  r ∈ regions /\ ContainsInterior r k = true /\ k <> rStart r.
Proof.
  induction regions as [|r' rest IH]; cbn [NeedSplit_scan]; [done|].
  destruct (bytes.Equal k (rStart r')) eqn:Heq; [done|].
  destruct (ContainsInterior r' k) eqn:Hin.
  - intros [= <-]. split_and!; [left|done|by apply Equal_false].
  - intros H. destruct (IH H) as (? & ? & ?). split_and!; [by right|done|done].
Qed.

Lemma NeedSplit_Some k regions r :
  NeedSplit k regions = Some r ->
  r ∈ regions /\ strictly_inside k r /\ codec.EncodeBytes k <> rStart r.
Proof.
  unfold NeedSplit, strictly_inside. destruct k as [|b k]; [done|]. cbn [is_empty].
  intros (? & ? & ?)%NeedSplit_scan_Some. split_and!; done.
Qed.

Lemma regions_overlap_sym r1 r2 : regions_overlap r1 r2 = regions_overlap r2 r1.
Proof. unfold regions_overlap. apply andb_comm. Qed.

Lemma pairwise_disjoint_elem regions r1 r2 :
  pairwise_disjoint regions = true -> r1 ∈ regions -> r2 ∈ regions ->
  r1 <> r2 -> regions_overlap r1 r2 = false.
Proof.
  induction regions as [|r rest IH]; [by intros _ ?%elem_of_nil|].
  cbn [pairwise_disjoint]. rewrite andb_true_iff, forallb_forall.
  intros [Hhd Htl] H1 H2 Hne.
  apply elem_of_cons in H1, H2. destruct H1 as [->|H1], H2 as [->|H2]; try done.
  - apply list_elem_of_In, Hhd in H2. by apply negb_true_iff.
  - apply list_elem_of_In, Hhd in H1. rewrite regions_overlap_sym.
    by apply negb_true_iff.
  - by apply IH.
Qed.

Lemma beforeEnd_lt_trans a b e :
  bytes.lt a b = true -> beforeEnd b e = true -> beforeEnd a e = true.
Proof.
  unfold beforeEnd. rewrite !orb_true_iff. intros Hab [Hbe|He]; [|by right].
  left. by apply (lt_trans a b e).
Qed.

Lemma ContainsInterior_spec r k :
  ContainsInterior r k = true <->
  bytes.lt (rStart r) k = true /\ beforeEnd k (rEnd r) = true.
Proof.
  unfold ContainsInterior, beforeEnd. rewrite gt_lt, andb_true_iff.
  by rewrite (orb_comm (is_empty _)).
Qed.

(** A key on the boundary of one region and strictly inside another
    makes the two regions overlap. *)
Lemma boundary_inside_overlap r r' k :
  k <> [] -> region_nonempty r = true ->
  k = rStart r \/ k = rEnd r ->
  ContainsInterior r' k = true ->
  r <> r' /\ regions_overlap r' r = true.
Proof.
  intros Hk Hne Hb [Hlt Hend]%ContainsInterior_spec.
  unfold regions_overlap, region_nonempty in *. rewrite andb_true_iff.
  destruct Hb as [->| ->].
  - split; [intros <-; by rewrite lt_irrefl in Hlt|].
    split; [by apply (beforeEnd_lt_trans _ (rStart r)) | done].
  - split.
    + intros <-. unfold beforeEnd in Hend. rewrite lt_irrefl in Hend.
      by destruct (rEnd r).
    + split.
      * unfold beforeEnd. by rewrite Hlt.
      * unfold beforeEnd in Hne. apply orb_true_iff in Hne as [Hne|Hne];
          [|by destruct (rEnd r)].
        by apply (beforeEnd_lt_trans _ (rEnd r)).
Qed.

Lemma sound_topology_elem regions r :
  sound_topology regions = true -> r ∈ regions -> region_nonempty r = true.
Proof.
  unfold sound_topology. rewrite andb_true_iff, forallb_forall.
  intros [H _] Hin. by apply H, list_elem_of_In.
Qed.

Lemma NeedSplit_scan_boundary k regions r :
  sound_topology regions = true -> k <> [] -> r ∈ regions ->
  k = rStart r \/ k = rEnd r ->
  NeedSplit_scan k regions = None.
Proof.
  intros Hsound Hk Hin Hb.
  destruct (NeedSplit_scan k regions) as [r'|] eqn:Hscan; [|done]. exfalso.
  apply NeedSplit_scan_Some in Hscan as (Hin' & Hinside & _).
  destruct (boundary_inside_overlap r r' k) as [Hne Hov]; try done.
  { by apply (sound_topology_elem regions). }
  apply andb_true_iff in Hsound as [_ Hdis].
  rewrite (pairwise_disjoint_elem regions r' r) in Hov; done.
Qed.

Lemma NeedSplit_scan_inside k regions r :
  sound_topology regions = true -> r ∈ regions ->
  ContainsInterior r k = true ->
  NeedSplit_scan k regions = Some r.
Proof.
  intros Hsound Hin Hinside.
  assert (Hk : k <> []).
  { apply ContainsInterior_spec in Hinside as [Hlt _]. intros ->.
    by rewrite lt_nil_r in Hlt. }
  induction regions as [|r' rest IH]; [by apply elem_of_nil in Hin|].
  cbn [NeedSplit_scan].
  destruct (bytes.Equal k (rStart r')) eqn:Heq.
  { apply Equal_true in Heq. exfalso.
    destruct (boundary_inside_overlap r' r k) as [Hne Hov]; auto.
    { apply (sound_topology_elem (r' :: rest)); [done|left]. }
    apply andb_true_iff in Hsound as [_ Hdis].
    rewrite (pairwise_disjoint_elem (r' :: rest) r r') in Hov; try done.
    left. }
  destruct (ContainsInterior r' k) eqn:Hin'.
  - f_equal. apply elem_of_cons in Hin as [->|Hin]; [done|]. exfalso.
    apply andb_true_iff in Hsound as [_ Hdis].
    assert (Hov : regions_overlap r' r = true).
    { apply ContainsInterior_spec in Hinside as [H1 H2].
      apply ContainsInterior_spec in Hin' as [H3 H4].
      unfold regions_overlap. apply andb_true_iff.
      split; by eapply beforeEnd_lt_trans. }
    cbn [pairwise_disjoint] in Hdis. apply andb_true_iff in Hdis as [Hhd _].
    rewrite forallb_forall in Hhd. apply list_elem_of_In, Hhd in Hin.
    by rewrite Hov in Hin.
  - apply elem_of_cons in Hin as [->|Hin]; [congruence|].
    apply IH; [|done]. unfold sound_topology in *.
    cbn [forallb pairwise_disjoint] in Hsound.
    rewrite !andb_true_iff in Hsound. destruct Hsound as [[_ ->] [_ ->]]. done.
Qed.

Lemma keys_for_cons id regions k ks :
  keys_for id regions (k :: ks)
  = if decide (rId <$> NeedSplit k regions = Some id)
    then k :: keys_for id regions ks else keys_for id regions ks.
Proof. unfold keys_for. by rewrite filter_cons. Qed.

Lemma record_keys_lookup regions (m : gmap N (list key)) checkKeys id :
  foldl (record_key regions) m checkKeys !! id
  = match keys_for id regions checkKeys with
    | [] => m !! id
    | ks => Some (default [] (m !! id) ++ ks)
    end.
Proof.
  revert m. induction checkKeys as [|k ks IH]; intros m; [done|].
  cbn [foldl]. rewrite IH, keys_for_cons. unfold record_key.
  destruct (NeedSplit k regions) as [r|] eqn:Hneed; cbn [fmap option_fmap option_map].
  - destruct (decide (Some (rId r) = Some id)) as [[= Hid]|Hne].
    + rewrite Hid, lookup_insert_eq. cbn [default].
      destruct (keys_for id regions ks); [done|].
      unfold Datatypes.id. by rewrite <- app_assoc.
    + rewrite lookup_insert_ne by congruence. done.
  - destruct (decide (None = Some id)); done.
Qed.

Lemma record_keys_none regions (m : gmap N (list key)) checkKeys :
  Forall (fun k => NeedSplit k regions = None) checkKeys ->
  foldl (record_key regions) m checkKeys = m.
Proof.
  induction 1 as [|k ks Hk _ IH]; [done|].
  cbn [foldl]. unfold record_key at 2. by rewrite Hk.
Qed.

(** C7, as the spec states it, fails.  [NeedSplit] compares the key in
    its encoded form and answers the first region that contains it.
    The chain [a,m) [m,c) [c,z) is accepted by the scanner's check for
    [a,z); the key [c], encoded, is the start key of its third region,
    and yet [NeedSplit] answers the first region, which also contains
    [c], so the plan for a range ending at [c] is not empty.  Read on
    plain keys the claim fails as well, on a sorted topology: the key
    [m] is the start key of the region [m,+inf), its encoded form lies
    inside that region, and [NeedSplit] answers it. *)
Lemma NeedSplit_start_key_counterexample :
  (checkRegionConsistency (collab := Examples.collaborators)
     (codec.EncodeBytes (bs "a")) (codec.EncodeBytes (bs "z"))
     Examples.folded_chain = None
   /\ Examples.enc_region 3 "c" "z" ∈ Examples.folded_chain
   /\ codec.EncodeBytes (bs "c") = rStart (Examples.enc_region 3 "c" "z")
   /\ NeedSplit (bs "c") Examples.folded_chain = Some (Examples.enc_region 1 "a" "m")
   /\ getSplitKeys Examples.no_rules [Examples.range "a" "c"] Examples.folded_chain !! 1%N
      = Some [bs "c"]
   /\ ~ (forall (splitKey : key) (regions : list RegionInfo) (r : RegionInfo),
           r ∈ regions -> codec.EncodeBytes splitKey = rStart r ->
           NeedSplit splitKey regions = None))
  /\ (sound_topology Examples.plain_topology = true
      /\ Examples.region 2 "m" "" ∈ Examples.plain_topology
      /\ bs "m" = rStart (Examples.region 2 "m" "")
      /\ NeedSplit (bs "m") Examples.plain_topology = Some (Examples.region 2 "m" "")
      /\ ~ (forall (splitKey : key) (regions : list RegionInfo) (r : RegionInfo),
              r ∈ regions -> splitKey = rStart r ->
              NeedSplit splitKey regions = None)).
Proof.
  split; split_and!; try reflexivity.
  - in_list.
  - intros H.
    specialize (H (bs "c") Examples.folded_chain (Examples.enc_region 3 "c" "z")).
    discriminate H; [in_list | reflexivity].
  - in_list.
  - intros H.
    specialize (H (bs "m") Examples.plain_topology (Examples.region 2 "m" "")).
    discriminate H; [in_list | reflexivity].
Qed.

(** C7, amended.  A key of zero length never needs a split, whatever
    the regions.  On a list of non-empty, pairwise non-overlapping
    regions, a key whose encoded form is the start key (or the end key)
    of some region needs no split either; so the plan for ranges whose
    end keys are all empty or on such a boundary is empty. *)
Theorem NeedSplit_on_boundary (regions : list RegionInfo) :
  (forall splitKey, splitKey = [] -> NeedSplit splitKey regions = None)
  /\ (sound_topology regions = true ->
      (forall splitKey, on_boundary splitKey regions ->
         NeedSplit splitKey regions = None)
      /\ (forall rewriteRules ranges,
            Forall (fun rg => rtree.EndKey rg = []
                              \/ on_boundary (rtree.EndKey rg) regions) ranges ->
            getSplitKeys rewriteRules ranges regions = ∅)).
Proof.
  split; [by intros ? ->|]. intros Hsound.
  assert (Hb : forall splitKey, on_boundary splitKey regions ->
                                NeedSplit splitKey regions = None).
  { intros k (r & Hin & Hk). unfold NeedSplit. destruct (is_empty k); [done|].
    apply (NeedSplit_scan_boundary _ _ r); auto using EncodeBytes_nonempty. }
  split; [done|]. intros rewriteRules ranges Hall.
  unfold getSplitKeys. apply record_keys_none.
  apply Forall_fmap. eapply Forall_impl; [exact Hall|].
  intros rg [Hrg|Hrg]; simpl; [by rewrite Hrg | by apply Hb].
Qed.

Lemma NeedSplit_on_boundary_witness :
  NeedSplit [] Examples.sorted_topology = None
  /\ NeedSplit (bs "g") Examples.sorted_topology = None
  /\ getSplitKeys Examples.no_rules
       [Examples.range "a" "g"; Examples.range "g" "m"; Examples.range "m" "z";
        Examples.range "z" ""]
       Examples.sorted_topology = ∅.
Proof.
  destruct (NeedSplit_on_boundary Examples.sorted_topology) as [Hempty Hsound].
  destruct (Hsound eq_refl) as [Hkey Hplan].
  split_and!.
  - by apply Hempty.
  - apply Hkey. exists (Examples.enc_region 2 "g" "m").
    split; [in_list | by left].
  - apply Hplan. repeat apply Forall_cons_2; try apply Forall_nil_2.
    + right. exists (Examples.enc_region 2 "g" "m").
      split; [in_list | by left].
    + right. exists (Examples.enc_region 3 "m" "z").
      split; [in_list | by left].
    + right. exists (Examples.enc_region 3 "m" "z").
      split; [in_list | by right].
    + by left.
Defined.

Lemma getSplitKeys_lookup rewriteRules ranges regions id :
  getSplitKeys rewriteRules ranges regions !! id
  = match keys_for id regions (map rtree.EndKey ranges) with
    | [] => None
    | ks => Some ks
    end.
Proof.
  unfold getSplitKeys. rewrite record_keys_lookup, lookup_empty.
  by destruct (keys_for _ _ _).
Qed.

(** C8, as the spec states it, fails.  On the chain [a,m) [m,c) [c,z),
    which the scanner's check accepts for [a,z), the end key [h] lies
    strictly inside the third region, and the planner records nothing
    under that region's id: the key goes to the first region, the
    first in list order to contain it. *)
Lemma getSplitKeys_inside_counterexample :
  checkRegionConsistency (collab := Examples.collaborators)
    (codec.EncodeBytes (bs "a")) (codec.EncodeBytes (bs "z"))
    Examples.folded_chain = None
  /\ Examples.enc_region 3 "c" "z" ∈ Examples.folded_chain
  /\ strictly_inside (bs "h") (Examples.enc_region 3 "c" "z")
  /\ getSplitKeys Examples.no_rules [Examples.range "a" "h"] Examples.folded_chain !! 3%N
     = None
  /\ getSplitKeys Examples.no_rules [Examples.range "a" "h"] Examples.folded_chain !! 1%N
     = Some [bs "h"]
  /\ ~ (forall rewriteRules ranges regions rg r,
          rg ∈ ranges -> r ∈ regions -> strictly_inside (rtree.EndKey rg) r ->
          exists ks, getSplitKeys rewriteRules ranges regions !! rId r = Some ks
                     /\ rtree.EndKey rg ∈ ks).
Proof.
  split_and!; try reflexivity.
  - in_list.
  - by split.
  - intros H.
    destruct (H Examples.no_rules [Examples.range "a" "h"] Examples.folded_chain
                (Examples.range "a" "h") (Examples.enc_region 3 "c" "z"))
      as (ks & Hks & _).
    + in_list.
    + in_list.
    + by split.
    + discriminate Hks.
Qed.

(** C8, amended.  The planner looks at the end key of each range and
    at nothing else: under a region id it holds exactly the end keys
    for which [NeedSplit] answers a region of that id, in the order of
    the ranges, repeated as often as they occur; an id with no such key
    is absent.  The region answered strictly contains the key (in its
    encoded form) and does not start at it.  On a list of non-empty,
    pairwise non-overlapping regions the answer is the one region that
    strictly contains the key, so every end key lying strictly inside a
    region is recorded under that region's id. *)
Theorem getSplitKeys_groups (rewriteRules : RewriteRules)
    (ranges : list rtree.Range) (regions : list RegionInfo) :
  (forall id,
     getSplitKeys rewriteRules ranges regions !! id
     = match keys_for id regions (map rtree.EndKey ranges) with
       | [] => None
       | ks => Some ks
       end)
  /\ (forall k r, NeedSplit k regions = Some r ->
        r ∈ regions /\ strictly_inside k r /\ codec.EncodeBytes k <> rStart r)
  /\ (sound_topology regions = true ->
      (forall k r, r ∈ regions -> strictly_inside k r ->
         NeedSplit k regions = Some r)
      /\ (forall rg r, rg ∈ ranges -> r ∈ regions ->
            strictly_inside (rtree.EndKey rg) r ->
            exists ks, getSplitKeys rewriteRules ranges regions !! rId r = Some ks
                       /\ rtree.EndKey rg ∈ ks)).
Proof.
  split; [apply getSplitKeys_lookup|].
  split; [intros k r; apply NeedSplit_Some|]. intros Hsound.
  assert (Hinside : forall k r, r ∈ regions -> strictly_inside k r ->
                                NeedSplit k regions = Some r).
  { intros k r Hin [Hk Hr]. unfold NeedSplit.
    destruct k; [done|]. cbn [is_empty]. by apply NeedSplit_scan_inside. }
  split; [done|]. intros rg r Hrg Hr Hkey.
  rewrite getSplitKeys_lookup.
  assert (Hmem : rtree.EndKey rg ∈ keys_for (rId r) regions (map rtree.EndKey ranges)).
  { unfold keys_for. apply list_elem_of_filter. split.
    - by rewrite (Hinside _ _ Hr Hkey).
    - apply list_elem_of_fmap. by exists rg. }
  destruct (keys_for _ _ _) as [|k ks]; [by apply elem_of_nil in Hmem|].
  by exists (k :: ks).
Qed.

Lemma getSplitKeys_groups_witness :
  getSplitKeys Examples.no_rules
    [Examples.range "a" "k"; Examples.range "k" "h"; Examples.range "h" "k";
     Examples.range "k" "g"; Examples.range "g" "b"]
    Examples.sorted_topology !! 2%N
  = Some [bs "k"; bs "h"; bs "k"]
  /\ NeedSplit (bs "h") Examples.sorted_topology = Some (Examples.enc_region 2 "g" "m").
Proof.
  destruct (getSplitKeys_groups Examples.no_rules
    [Examples.range "a" "k"; Examples.range "k" "h"; Examples.range "h" "k";
     Examples.range "k" "g"; Examples.range "g" "b"]
    Examples.sorted_topology) as (Hlookup & _ & Hsound).
  destruct (Hsound eq_refl) as [Hinside _].
  split.
  - rewrite Hlookup. reflexivity.
  - apply Hinside; [in_list | by split].
Defined.

End PlannerFacts.

(** ** Split executor: what is scattered after a split *)

Section SplitFacts.
Context {W : Type} {client : SplitClient W} {runtime : Runtime W}
  {collab : Collaborators}.

Lemma last_snoc_Some {A} (l : list A) (x : A) : last (l ++ [x]) = Some x.
Proof. apply last_snoc. Qed.

(** C2.  After a successful split at a non-empty key list, with
    [lastRegion] the last region created: the regions handed to the
    scatter coordinator, which are also the regions [Split] adds to its
    scatter list, are all the new regions but [lastRegion] when
    [lastRegion] starts at the last key asked for, and all the new
    regions, [lastRegion] included, otherwise. *)
Theorem splitAndScatterRegions_scatter_set (fuel : nat) (regionInfo : RegionInfo)
    (keys : list key) (lastKey : key) (init : list RegionInfo)
    (lastRegion : RegionInfo) (st : State W) (w' : W) :
  last keys = Some lastKey ->
  BatchSplitRegions regionInfo keys (world st) = ((init ++ [lastRegion], None), w') ->
  splitAndScatterRegions fuel regionInfo keys st
  = (ScatterRegions fuel (scatter_set init lastRegion lastKey) ;;
     ret (scatter_set init lastRegion lastKey, None))
      {| world := w';
         trace := trace st
           ++ [EvBatchSplitRegions regionInfo keys (init ++ [lastRegion], None)] |}
  /\ (rStart lastRegion = lastKey -> scatter_set init lastRegion lastKey = init)
  /\ (rStart lastRegion <> lastKey ->
      scatter_set init lastRegion lastKey = init ++ [lastRegion]).
Proof.
  intros Hkeys Hsplit. split_and!.
  - unfold splitAndScatterRegions. destruct keys as [|k keys']; [done|].
    rewrite (bind_Done _ _ _ _ _ (rpc_run _ _ _ _ _ Hsplit)).
    cbv beta iota. rewrite last_snoc_Some, Hkeys. unfold scatter_set.
    destruct (bytes.Equal (rStart lastRegion) lastKey); [|done].
    rewrite length_app, Nat.add_sub. by rewrite take_app_length.
  - intros H%bytes_facts.Equal_true. unfold scatter_set. by rewrite H.
  - intros H%bytes_facts.Equal_false. unfold scatter_set. by rewrite H.
Qed.

End SplitFacts.

(** C2 on the spec's example: [a,z) split at [m] gives [a,m) and
    [m,z); the second starts at the split key and is not scattered. *)
Lemma splitAndScatterRegions_scatter_set_witness :
  exists st',
    splitAndScatterRegions (client := Examples.scripted Examples.splits_at_m)
      (runtime := Examples.wall_clock) (collab := Examples.collaborators)
      7 (Examples.region 1 "a" "z") [bs "m"] Examples.start_state
    = Done ([Examples.region 2 "a" "m"], None) st'
    /\ omap (fun e => match e with EvScatterRegion r _ => Some r | _ => None end)
         (trace st')
       = [Examples.region 2 "a" "m"].
Proof.
  eexists.
  destruct (splitAndScatterRegions_scatter_set
    (client := Examples.scripted Examples.splits_at_m)
    (runtime := Examples.wall_clock) (collab := Examples.collaborators)
    7 (Examples.region 1 "a" "z") [bs "m"] (bs "m")
    [Examples.region 2 "a" "m"] (Examples.region 3 "m" "z")
    Examples.start_state 0 eq_refl eq_refl) as (-> & _ & _).
  split; vm_compute; reflexivity.
Defined.

(** ** Scatter coordinator *)

Section ScatterFacts.
Context {W : Type} {client : SplitClient W} {runtime : Runtime W}
  {collab : Collaborators}.

Lemma scatter_answers_app d1 d2 :
  scatter_answers (d1 ++ d2) = scatter_answers d1 ++ scatter_answers d2.
Proof. apply omap_app. Qed.

Lemma count_log_app lvl text d1 d2 :
  count_log lvl text (d1 ++ d2)
  = (count_log lvl text d1 + count_log lvl text d2)%nat.
Proof. unfold count_log. by rewrite List.filter_app, length_app. Qed.

Lemma quiet_nil : quiet [].
Proof. done. Qed.

Lemma quiet_app d1 d2 : quiet d1 -> quiet d2 -> quiet (d1 ++ d2).
Proof.
  unfold quiet, count_passes, count_skipped.
  intros (A1 & P1 & S1) (A2 & P2 & S2).
  by rewrite scatter_answers_app, !count_log_app, A1, A2, P1, P2, S1, S2.
Qed.

Lemma quiet_one e :
  is_log InfoLevel "trying to scatter regions..." e = false ->
  is_log WarnLevel "scatter meet error cannot be retried, skipping" e = false ->
  match e with EvScatterRegion _ _ => False | _ => True end ->
  quiet [e].
Proof.
  intros H1 H2 H3. unfold quiet, count_passes, count_skipped, count_log.
  cbn [List.filter]. rewrite H1, H2. by destruct e.
Qed.

Lemma hasRegion_quiet regionID :
  delivers (hasRegion regionID) (fun _ d => quiet d).
Proof.
  unfold hasRegion. eapply delivers_bind; [apply delivers_rpc|].
  intros [regionInfo [e|]] d1 ->; apply delivers_ret; by rewrite app_nil_r.
Qed.

Lemma waitForSplit_loop_quiet n interval regionID :
  delivers (waitForSplit_loop n interval regionID) (fun _ d => quiet d).
Proof.
  revert interval. induction n as [|n IH]; intros interval; cbn [waitForSplit_loop].
  { by apply delivers_ret. }
  eapply delivers_bind; [apply hasRegion_quiet|].
  intros [ok [e|]] d1 Hd1.
  - eapply delivers_weaken; [apply delivers_log|].
    intros ? d2 ->. apply quiet_app; [done|by apply quiet_one].
  - destruct ok.
    + apply delivers_ret. by rewrite app_nil_r.
    + eapply delivers_bind; [apply delivers_sleep|].
      intros [] d2 ->. eapply delivers_weaken; [apply IH|].
      intros ? d3 Hd3. cbv beta in *. repeat apply quiet_app; done.
Qed.

Lemma waitForSplit_quiet regionID :
  delivers (waitForSplit regionID) (fun _ d => quiet d).
Proof. apply waitForSplit_loop_quiet. Qed.

(** One region of a pass: one scatter request; the region leaves the
    pending set exactly when the answer settles it, with a warning
    when it is given up. *)
Lemma scatter_one_delivers errs set region :
  delivers (scatter_one (errs, set) region)
    (fun r d => exists a,
       scatter_answers d = [(region, a)]
       /\ count_passes d = 0%nat
       /\ count_skipped d = (if given_up a then 1 else 0)%nat
       /\ r = (multierr.Append errs a,
               if settled a then delete (rId region) set else set)).
Proof.
  unfold scatter_one.
  eapply delivers_bind; [apply waitForSplit_quiet|].
  intros [] d1 (A1 & P1 & S1).
  eapply delivers_bind; [apply delivers_rpc|].
  intros a d2 ->.
  assert (Hbase : forall d3 n,
            scatter_answers d3 = [] -> count_passes d3 = 0%nat ->
            count_skipped d3 = n ->
            scatter_answers (d1 ++ [EvScatterRegion region a] ++ d3) = [(region, a)]
            /\ count_passes (d1 ++ [EvScatterRegion region a] ++ d3) = 0%nat
            /\ count_skipped (d1 ++ [EvScatterRegion region a] ++ d3) = n).
  { intros d3 n A3 P3 S3. unfold count_passes, count_skipped in *.
    rewrite !scatter_answers_app, !count_log_app, A1, A3, P1, P3, S1, S3. done. }
  destruct a as [e|]; cbn [settled given_up].
  - destruct (pdErrorCanRetry e) eqn:Hretry; cbn [negb].
    + eapply delivers_bind; [apply delivers_ret_eq|].
      intros set' d3 [-> ->]. apply delivers_ret. exists (Some e).
      cbn [settled given_up]. rewrite Hretry. cbn [negb].
      destruct (Hbase [] 0%nat eq_refl eq_refl eq_refl) as (HA & HP & HS).
      rewrite !app_nil_r in *. done.
    + eapply (delivers_bind _ _ (fun set' d =>
        set' = delete (rId region) set
        /\ d = [EvLog WarnLevel "scatter meet error cannot be retried, skipping"])).
      { eapply delivers_bind; [apply delivers_log|].
        intros [] d3 ->. by apply delivers_ret. }
      intros set' d3 [-> ->]. apply delivers_ret. exists (Some e).
      cbn [settled given_up]. rewrite Hretry. cbn [negb].
      destruct (Hbase [EvLog WarnLevel "scatter meet error cannot be retried, skipping"] 1%nat
                  eq_refl eq_refl eq_refl) as (HA & HP & HS).
      rewrite !app_nil_r in *. done.
  - eapply delivers_bind; [apply delivers_ret_eq|].
    intros set' d3 [-> ->]. apply delivers_ret. exists None.
    destruct (Hbase [] 0%nat eq_refl eq_refl eq_refl) as (HA & HP & HS).
    rewrite !app_nil_r in *. done.
Qed.

Lemma still_pending_cons set r a answers :
  still_pending set ((r, a) :: answers)
  = still_pending (if settled a then delete (rId r) set else set) answers.
Proof. done. Qed.

Lemma count_given_up_cons r a answers :
  count_given_up ((r, a) :: answers)
  = ((if given_up a then 1 else 0) + count_given_up answers)%nat.
Proof. unfold count_given_up. cbn [List.filter snd]. by destruct (given_up a). Qed.

Lemma scatter_each_delivers todo errs set :
  delivers (scatter_each todo (errs, set))
    (fun r d =>
       map fst (scatter_answers d) = todo
       /\ count_passes d = 0%nat
       /\ count_skipped d = count_given_up (scatter_answers d)
       /\ snd r = still_pending set (scatter_answers d)).
Proof.
  revert errs set. induction todo as [|region rest IH]; intros errs set;
    cbn [scatter_each].
  { by apply delivers_ret. }
  eapply delivers_bind; [apply scatter_one_delivers|].
  intros acc d1 (a & A1 & P1 & S1 & ->).
  eapply delivers_weaken; [apply IH|].
  intros [errs' set'] d2 (A2 & P2 & S2 & Hset). cbn [snd] in *.
  unfold count_passes, count_skipped in *.
  rewrite scatter_answers_app, !count_log_app, A1, P1, P2, S1, S2.
  cbn [app map fst]. rewrite A2, still_pending_cons, count_given_up_cons. done.
Qed.

Lemma scatter_pass_delivers set :
  delivers (scatter_pass set)
    (fun r d =>
       count_passes d = 1%nat
       /\ map fst (scatter_answers d) ≡ₚ map snd (map_to_list set)
       /\ count_skipped d = count_given_up (scatter_answers d)
       /\ snd r = still_pending set (scatter_answers d)).
Proof.
  unfold scatter_pass.
  eapply delivers_bind; [apply delivers_log|]. intros [] d1 ->.
  eapply delivers_bind; [apply delivers_get_world|]. intros w d2 ->.
  eapply delivers_weaken; [apply scatter_each_delivers|].
  intros r d3 (A3 & P3 & S3 & Hset).
  unfold count_passes, count_skipped in *.
  change (scatter_answers ([EvLog InfoLevel "trying to scatter regions..."] ++ [] ++ d3))
    with (scatter_answers d3).
  rewrite !count_log_app, P3, S3, A3.
  split_and!; try done.
  apply fmap_Permutation, map_range_perm.
Qed.

(** *** The pending set *)

Lemma still_pending_lookup_Some set answers id r :
  still_pending set answers !! id = Some r -> set !! id = Some r.
Proof.
  revert set. induction answers as [|[r' a] rest IH]; intros set; [done|].
  rewrite still_pending_cons. intros H%IH. destruct (settled a); [|done].
  by apply lookup_delete_Some in H as [_ H].
Qed.

Lemma still_pending_settled set answers r a :
  (r, a) ∈ answers -> settled a = true ->
  still_pending set answers !! rId r = None.
Proof.
  revert set. induction answers as [|[r' a'] rest IH]; intros set Hin Ha.
  { by apply elem_of_nil in Hin. }
  rewrite still_pending_cons. apply elem_of_cons in Hin as [[= <- <-]|Hin].
  - rewrite Ha. destruct (still_pending _ rest !! rId r) eqn:E; [|done].
    apply still_pending_lookup_Some in E. by rewrite lookup_delete_eq in E.
  - by apply IH.
Qed.

Lemma keyed_still_pending set answers :
  keyed set -> keyed (still_pending set answers).
Proof. intros Hk id r H%still_pending_lookup_Some. by apply Hk. Qed.

Lemma index_regions_from (m : gmap N RegionInfo) rs id r :
  foldl (fun set newRegion => <[rId newRegion := newRegion]> set) m rs !! id = Some r ->
  (r ∈ rs /\ rId r = id) \/ m !! id = Some r.
Proof.
  revert m. induction rs as [|r' rest IH]; intros m; cbn [foldl]; [by right|].
  intros [[Hin Hid]|H]%IH.
  - left. split; [by right|done].
  - apply lookup_insert_Some in H as [[<- <-]|[_ H]]; [|by right].
    left. split; [by left|done].
Qed.

Lemma index_regions_lookup rs id r :
  index_regions rs !! id = Some r -> r ∈ rs /\ rId r = id.
Proof. by intros [H|H]%index_regions_from. Qed.

Lemma index_regions_keyed rs : keyed (index_regions rs).
Proof. intros id r H%index_regions_lookup. tauto. Qed.

Lemma index_regions_from_is_Some (m : gmap N RegionInfo) rs r :
  r ∈ rs \/ is_Some (m !! rId r) ->
  is_Some (foldl (fun set newRegion => <[rId newRegion := newRegion]> set) m rs
             !! rId r).
Proof.
  revert m. induction rs as [|r' rest IH]; intros m; cbn [foldl].
  { intros [Hin|H]; [by apply elem_of_nil in Hin|done]. }
  intros H. apply IH. rewrite lookup_insert_is_Some.
  destruct H as [[->|Hin]%elem_of_cons|H]; [right; by left|by left|].
  right. destruct (decide (rId r' = rId r)); [by left|by right].
Qed.

Lemma index_regions_is_Some rs r :
  r ∈ rs -> is_Some (index_regions rs !! rId r).
Proof. intros Hin. apply index_regions_from_is_Some. by left. Qed.

(** *** No second request for a settled region *)

Lemma never_rescattered_nil : never_rescattered [].
Proof. intros [|? l1] r a l2 H; discriminate H. Qed.

Lemma never_rescattered_cons r a rest :
  (settled a = true -> forall r' a', (r', a') ∈ rest -> rId r' <> rId r) ->
  never_rescattered rest ->
  never_rescattered ((r, a) :: rest).
Proof.
  intros Hhd Htl [|x l1] r0 a0 l2 Heq Hs r' a' Hin.
  - cbn [app] in Heq. injection Heq as Hr Ha Hl. subst r0 a0 l2.
    by apply (Hhd Hs r' a').
  - cbn [app] in Heq. injection Heq as Hx Heq.
    by apply (Htl l1 r0 a0 l2 Heq Hs r' a').
Qed.

Lemma never_rescattered_app answers1 answers2 :
  NoDup (map (fun ra => rId (fst ra)) answers1) ->
  never_rescattered answers2 ->
  (forall r a, (r, a) ∈ answers1 -> settled a = true ->
     forall r' a', (r', a') ∈ answers2 -> rId r' <> rId r) ->
  never_rescattered (answers1 ++ answers2).
Proof.
  intros Hnd H2 Hcross. induction answers1 as [|[r a] rest IH]; [done|].
  cbn [app]. cbn [map fst] in Hnd. apply NoDup_cons in Hnd as [Hfresh Hnd].
  apply never_rescattered_cons.
  - intros Hs r' a' [Hin|Hin]%elem_of_app.
    + intros Heq. apply Hfresh. rewrite <- Heq.
      apply list_elem_of_fmap. by exists (r', a').
    + eapply (Hcross r a); [by left|done|exact Hin].
  - apply IH; [done|]. intros r0 a0 Hin. apply Hcross. by right.
Qed.

Lemma pass_ids_NoDup (set : gmap N RegionInfo)
    (answers : list (RegionInfo * option error)) :
  keyed set -> map fst answers ≡ₚ map snd (map_to_list set) ->
  NoDup (map (fun ra => rId (fst ra)) answers).
Proof.
  intros Hk Hperm.
  assert (Hcomp : map (fun ra => rId (fst ra)) answers = map rId (map fst answers)).
  { by rewrite map_map. }
  rewrite Hcomp, Hperm.
  assert (Heq : map rId (map snd (map_to_list set)) = map fst (map_to_list set)).
  { rewrite map_map. apply map_ext_in.
    intros [id r] Hl%list_elem_of_In%elem_of_map_to_list. cbn. by apply Hk. }
  rewrite Heq. apply NoDup_fst_map_to_list.
Qed.

Lemma pass_answers_pending (set : gmap N RegionInfo)
    (answers : list (RegionInfo * option error)) r a :
  keyed set -> map fst answers ≡ₚ map snd (map_to_list set) ->
  (r, a) ∈ answers -> set !! rId r = Some r.
Proof.
  intros Hk Hperm Hin.
  assert (Hr : r ∈ map snd (map_to_list set)).
  { rewrite <- Hperm. apply list_elem_of_fmap. by exists (r, a). }
  apply list_elem_of_fmap in Hr as ([id r'] & -> & Hl%elem_of_map_to_list).
  cbn. by rewrite (Hk _ _ Hl).
Qed.

(** The retry loop of [ScatterRegions] on a pending set: it ends, in at
    most as many passes as the policy has attempts; it asks only for
    regions of the set, and never again for a region an answer has
    settled. *)
Lemma WithRetry_scatter fuel (b : exponentialBackoffer) set lastErr :
  keyed set -> exp_attempt b <= Z.of_nat fuel ->
  delivers (WithRetry fuel scatter_pass b set lastErr)
    (fun _ d =>
       (Z.of_nat (count_passes d) <= Z.max 0 (exp_attempt b))
       /\ (forall r a, (r, a) ∈ scatter_answers d -> set !! rId r = Some r)
       /\ never_rescattered (scatter_answers d)
       /\ count_skipped d = count_given_up (scatter_answers d)).
Proof.
  revert b set lastErr. induction fuel as [|fuel IH]; intros b set lastErr Hk Hfuel.
  { cbn [WithRetry]. change (Attempt b) with (exp_attempt b).
    destruct (exp_attempt b >? 0) eqn:E; [lia|].
    apply delivers_ret. split_and!.
    - cbn. lia.
    - intros r a Hin. by apply elem_of_nil in Hin.
    - apply never_rescattered_nil.
    - done. }
  cbn [WithRetry]. change (Attempt b) with (exp_attempt b).
  destruct (exp_attempt b >? 0) eqn:E.
  2: { apply delivers_ret. split_and!.
       - cbn. lia.
       - intros r a Hin. by apply elem_of_nil in Hin.
       - apply never_rescattered_nil.
       - done. }
  apply Z.gtb_lt in E.
  eapply delivers_bind; [apply scatter_pass_delivers|].
  intros [err set'] d1 (P1 & A1 & S1 & Hset). cbn [snd] in Hset.
  pose proof (pass_ids_NoDup _ _ Hk A1) as Hnd.
  assert (Hpass : never_rescattered (scatter_answers d1)).
  { rewrite <- (app_nil_r (scatter_answers d1)).
    apply never_rescattered_app; [done|apply never_rescattered_nil|].
    intros ? ? ? ? ? ? Hin. by apply elem_of_nil in Hin. }
  destruct err as [e|].
  - cbn [NextBackoff exponentialBackoffer_Backoffer].
    eapply delivers_bind; [apply delivers_sleep|]. intros [] d2 ->.
    eapply delivers_weaken.
    { apply (IH {| exp_attempt := exp_attempt b - 1;
                   baseBackoff := 2 * baseBackoff b |} set' (Some e)).
      - subst set'. by apply keyed_still_pending.
      - cbn. lia. }
    intros u d3 (P3 & A3 & N3 & S3). clear u. cbn [exp_attempt] in P3.
    unfold count_passes, count_skipped in *.
    rewrite !scatter_answers_app, !count_log_app, P1, S1, S3.
    change (scatter_answers [EvSleep (baseBackoff b)]) with
      (@nil (RegionInfo * option error)).
    cbn [app]. split_and!.
    + change (count_log InfoLevel "trying to scatter regions..."
                [EvSleep (baseBackoff b)]) with 0%nat. lia.
    + intros r a [Hin|Hin]%elem_of_app.
      * by apply (pass_answers_pending set (scatter_answers d1) r a).
      * apply A3 in Hin. subst set'. by apply still_pending_lookup_Some in Hin.
    + apply never_rescattered_app; [done|done|].
      intros r a Hin Hs r' a' Hin' Heq. apply A3 in Hin'. subst set'.
      rewrite Heq, (still_pending_settled _ _ r a) in Hin'; done.
    + unfold count_given_up. rewrite List.filter_app, length_app.
      change (count_log WarnLevel "scatter meet error cannot be retried, skipping"
                [EvSleep (baseBackoff b)]) with 0%nat. lia.
  - apply delivers_ret. rewrite app_nil_r. split_and!.
    + lia.
    + intros r a Hin. by apply (pass_answers_pending set (scatter_answers d1) r a).
    + done.
    + done.
Qed.

Lemma ScatterRegions_delivers fuel newRegions :
  (7 <= fuel)%nat ->
  delivers (ScatterRegions fuel newRegions)
    (fun _ d =>
       (count_passes d <= 7)%nat
       /\ (forall r a, (r, a) ∈ scatter_answers d -> r ∈ newRegions)
       /\ never_rescattered (scatter_answers d)
       /\ count_skipped d = count_given_up (scatter_answers d)).
Proof.
  intros Hfuel. unfold ScatterRegions, ScatterRegionsWithBackoffer.
  eapply delivers_bind.
  { apply WithRetry_scatter; [apply index_regions_keyed|cbn; lia]. }
  intros [[err b] set] d1 (P1 & A1 & N1 & S1). cbn [exp_attempt] in P1.
  assert (Hin : forall r a, (r, a) ∈ scatter_answers d1 -> r ∈ newRegions).
  { intros r a H%A1%index_regions_lookup. tauto. }
  destruct err as [e|].
  - eapply delivers_weaken; [apply delivers_log|]. intros ? d2 ->.
    unfold count_passes, count_skipped in *.
    rewrite scatter_answers_app, !count_log_app.
    change (scatter_answers [EvLog WarnLevel _]) with
      (@nil (RegionInfo * option error)).
    rewrite app_nil_r, S1.
    split_and!; [cbn; lia|done|done|cbn; lia].
  - apply delivers_ret. rewrite app_nil_r. split_and!; [lia|done|done|done].
Qed.

End ScatterFacts.

(** ** Split executor: the retry loop *)

Section ExecutorFacts.
Context {W : Type} {client : SplitClient W} {runtime : Runtime W}
  {collab : Collaborators}.

Lemma log_run lvl text (st : State W) :
  log lvl text st
  = Done tt {| world := world st; trace := trace st ++ [EvLog lvl text] |}.
Proof. done. Qed.

Lemma log_no_valid_key_run keys (st : State W) :
  log_no_valid_key keys st
  = Done tt
      {| world := world st;
         trace := trace st
           ++ replicate (length keys) (EvLog ErrorLevel "split regions no valid key") |}.
Proof.
  revert st. induction keys as [|k keys IH]; intros st.
  { cbn. rewrite app_nil_r. by destruct st. }
  cbn [log_no_valid_key]. rewrite (bind_Done _ _ _ _ _ (log_run _ _ st)), IH.
  cbn [world trace length replicate]. by rewrite <- app_assoc.
Qed.

Lemma splitAndScatterRegions_error fuel region keys st newRegions e w' :
  keys <> [] ->
  BatchSplitRegions region keys (world st) = ((newRegions, Some e), w') ->
  splitAndScatterRegions fuel region keys st
  = Done ([], Some e)
      {| world := w';
         trace := trace st ++ [EvBatchSplitRegions region keys (newRegions, Some e)] |}.
Proof.
  intros Hkeys Hsplit. unfold splitAndScatterRegions.
  destruct keys as [|k keys']; [done|].
  by rewrite (bind_Done _ _ _ _ _ (rpc_run _ _ _ _ _ Hsplit)).
Qed.

(** A split that the cluster refuses with "no valid key" ends the walk
    over the plan with a [return] of that error: the rest of the plan
    is not touched. *)
Lemma split_plan_abort fuel regionMap regionID keys rest vars st region
    newRegions e w' :
  regionMap !! regionID = Some region -> keys <> [] ->
  BatchSplitRegions region keys (world st) = ((newRegions, Some e), w') ->
  strings.Contains (errors.msg e) "no valid key" = true ->
  split_plan fuel regionMap ((regionID, keys) :: rest) vars st
  = Done (Return e,
          {| interval := interval vars; scatterRegions := scatterRegions vars;
             errSplit := Some e |})
      {| world := w';
         trace := trace st
           ++ [EvLog InfoLevel "split regions";
               EvBatchSplitRegions region keys (newRegions, Some e)]
           ++ replicate (length keys) (EvLog ErrorLevel "split regions no valid key") |}.
Proof.
  intros Hregion Hkeys Hsplit Hmsg. cbn [split_plan]. rewrite Hregion.
  rewrite (bind_Done _ _ _ _ _ (log_run _ _ st)). cbv beta.
  rewrite (bind_Done _ _ _ _ _
    (splitAndScatterRegions_error fuel region keys
       {| world := world st; trace := trace st ++ [EvLog InfoLevel "split regions"] |}
       newRegions e w' Hkeys Hsplit)).
  cbv beta iota. rewrite Hmsg.
  rewrite (bind_Done _ _ _ _ _ (log_no_valid_key_run _ _)).
  cbn [world trace ret]. unfold errors.Trace. by rewrite <- !app_assoc.
Qed.

(** Any other split error makes the walk back off and
    [continue SplitRegions]. *)
Lemma split_plan_retry fuel regionMap regionID keys rest vars st region
    newRegions e w' :
  regionMap !! regionID = Some region -> keys <> [] ->
  BatchSplitRegions region keys (world st) = ((newRegions, Some e), w') ->
  strings.Contains (errors.msg e) "no valid key" = false ->
  split_plan fuel regionMap ((regionID, keys) :: rest) vars st
  = Done (ContinueSplitRegions,
          {| interval := double_capped (interval vars) SplitMaxRetryInterval;
             scatterRegions := scatterRegions vars;
             errSplit := Some e |})
      {| world := time_Sleep (double_capped (interval vars) SplitMaxRetryInterval) w';
         trace := trace st
           ++ [EvLog InfoLevel "split regions";
               EvBatchSplitRegions region keys (newRegions, Some e);
               EvSleep (double_capped (interval vars) SplitMaxRetryInterval);
               EvLog WarnLevel "split regions failed, retry"] |}.
Proof.
  intros Hregion Hkeys Hsplit Hmsg. cbn [split_plan]. rewrite Hregion.
  rewrite (bind_Done _ _ _ _ _ (log_run _ _ st)). cbv beta.
  rewrite (bind_Done _ _ _ _ _
    (splitAndScatterRegions_error fuel region keys
       {| world := world st; trace := trace st ++ [EvLog InfoLevel "split regions"] |}
       newRegions e w' Hkeys Hsplit)).
  cbv beta iota. rewrite Hmsg. cbn. by rewrite <- !app_assoc.
Qed.

Lemma split_plan_step fuel regionMap regionID keys rest vars st region
    newRegions s' :
  regionMap !! regionID = Some region ->
  splitAndScatterRegions fuel region keys
    {| world := world st; trace := trace st ++ [EvLog InfoLevel "split regions"] |}
  = Done (newRegions, None) s' ->
  split_plan fuel regionMap ((regionID, keys) :: rest) vars st
  = split_plan fuel regionMap rest (add_scatter vars newRegions)
      (after_split keys newRegions s').
Proof.
  intros Hregion Hsplit. cbn [split_plan]. rewrite Hregion.
  rewrite (bind_Done _ _ _ _ _ (log_run _ _ st)). cbv beta.
  rewrite (bind_Done _ _ _ _ _ Hsplit). cbv beta iota.
  unfold after_split, add_scatter.
  destruct (negb (length newRegions =? length keys)%nat).
  - rewrite (bind_Done _ _ _ _ _ (log_run _ _ s')). cbv beta.
    unfold bind, emit. cbn [world trace]. by rewrite <- app_assoc.
  - unfold bind, emit, ret. cbn [world trace]. done.
Qed.

Lemma split_plan_cons_inv fuel regionMap regionID keys pre vars st vars1 st1 :
  split_plan fuel regionMap ((regionID, keys) :: pre) vars st
  = Done (FallThrough, vars1) st1 ->
  exists region newRegions s',
    regionMap !! regionID = Some region
    /\ splitAndScatterRegions fuel region keys
         {| world := world st; trace := trace st ++ [EvLog InfoLevel "split regions"] |}
       = Done (newRegions, None) s'.
Proof.
  cbn [split_plan]. destruct (regionMap !! regionID) as [region|]; [|done].
  rewrite (bind_Done _ _ _ _ _ (log_run _ _ st)). cbv beta.
  destruct (splitAndScatterRegions fuel region keys
              {| world := world st;
                 trace := trace st ++ [EvLog InfoLevel "split regions"] |})
    as [[newRegions [e|]] s'| |] eqn:Hsplit.
  - rewrite (bind_Done _ _ _ _ _ Hsplit). cbv beta iota.
    destruct (strings.Contains (errors.msg e) "no valid key").
    + rewrite (bind_Done _ _ _ _ _ (log_no_valid_key_run _ _)). done.
    + done.
  - intros _. by exists region, newRegions, s'.
  - by rewrite (bind_Panicked _ _ _ _ Hsplit).
  - unfold bind. by rewrite Hsplit.
Qed.

Lemma split_plan_app fuel regionMap pre rest vars st vars1 st1 :
  split_plan fuel regionMap pre vars st = Done (FallThrough, vars1) st1 ->
  split_plan fuel regionMap (pre ++ rest) vars st
  = split_plan fuel regionMap rest vars1 st1.
Proof.
  revert vars st. induction pre as [|[regionID keys] pre IH]; intros vars st.
  { cbn. by intros [= -> ->]. }
  intros Hpre.
  destruct (split_plan_cons_inv _ _ _ _ _ _ _ _ _ Hpre)
    as (region & newRegions & s' & Hregion & Hsplit).
  cbn [app]. rewrite (split_plan_step _ _ _ _ pre _ _ _ _ _ Hregion Hsplit) in Hpre.
  rewrite (split_plan_step _ _ _ _ (pre ++ rest) _ _ _ _ _ Hregion Hsplit).
  by apply IH.
Qed.

(** *** Waiting for the scatter to settle *)

Lemma isScatterRegionFinished_delivers i regionID :
  delivers (isScatterRegionFinished i regionID) (fun _ _ => True).
Proof.
  unfold isScatterRegionFinished. eapply delivers_bind; [apply delivers_rpc|].
  intros [resp [e|]] d1 _; [by apply delivers_ret|].
  destruct (pdpb.HeaderError resp) as [[]|]; try by apply delivers_ret.
  eapply delivers_bind with (Q1 := fun _ _ => True).
  - destruct (3 <? i)%nat; [|by apply delivers_ret].
    eapply delivers_weaken; [apply delivers_log|done].
  - intros. by apply delivers_ret.
Qed.

Lemma waitForScatterRegion_loop_delivers n i interval regionInfo :
  delivers (waitForScatterRegion_loop n i interval regionInfo) (fun _ _ => True).
Proof.
  revert i interval. induction n as [|n IH]; intros i interval;
    cbn [waitForScatterRegion_loop]; [by apply delivers_ret|].
  eapply delivers_bind; [apply isScatterRegionFinished_delivers|].
  intros [ok [e|]] d1 _.
  - eapply delivers_weaken; [apply delivers_log|done].
  - destruct ok; [by apply delivers_ret|].
    eapply delivers_bind; [apply delivers_sleep|]. intros [] d2 _.
    eapply delivers_weaken; [apply IH|done].
Qed.

Lemma wait_scattered_delivers startTime regions scatterCount :
  delivers (wait_scattered startTime regions scatterCount) (fun _ _ => True).
Proof.
  revert scatterCount. induction regions as [|region rest IH]; intros scatterCount;
    cbn [wait_scattered]; [by apply delivers_ret|].
  eapply delivers_bind; [apply waitForScatterRegion_loop_delivers|]. intros [] d1 _.
  eapply delivers_bind; [apply delivers_get_world|]. intros w d2 _.
  destruct (time_Now w - startTime >? ScatterWaitUpperInterval);
    [by apply delivers_ret|].
  eapply delivers_weaken; [apply IH|done].
Qed.

(** Once the loop is left without a split error, [Split] returns nil,
    however the wait for the scattered regions goes. *)
Lemma Split_finish_nil vars :
  errSplit vars = None ->
  delivers (Split_finish (inr vars)) (fun r _ => r = None).
Proof.
  intros Herr. unfold Split_finish. rewrite Herr.
  eapply delivers_bind; [apply delivers_log|]. intros [] d1 _.
  eapply delivers_bind; [apply delivers_get_world|]. intros w d2 _.
  eapply delivers_bind; [apply wait_scattered_delivers|]. intros count d3 _.
  eapply delivers_bind with (Q1 := fun _ _ => True).
  - destruct (count =? _)%nat; (eapply delivers_weaken; [apply delivers_log|done]).
  - intros. by apply delivers_ret.
Qed.

(** *** A plan whose every split goes through *)

Lemma splitAndScatterRegions_ok fuel region keys st :
  splits_succeed -> (7 <= fuel)%nat -> keys <> [] ->
  exists newRegions s',
    splitAndScatterRegions fuel region keys st = Done (newRegions, None) s'.
Proof.
  intros Hsplit Hfuel Hkeys. unfold splitAndScatterRegions.
  destruct keys as [|k keys']; [done|].
  destruct (Hsplit region (k :: keys') (world st)) as (init & lastRegion & w' & Hrpc).
  rewrite (bind_Done _ _ _ _ _ (rpc_run _ _ _ _ _ Hrpc)). cbv beta iota.
  rewrite last_snoc.
  destruct (last (k :: keys')) as [lastKey|] eqn:Hlast.
  2: { by apply last_None in Hlast. }
  match goal with
  | |- context [ScatterRegions fuel ?rs] =>
      destruct (ScatterRegions_delivers fuel rs Hfuel
                  {| world := w';
                     trace := trace st ++ [EvBatchSplitRegions region (k :: keys')
                                             (init ++ [lastRegion], None)] |})
        as ([] & s' & d & Hrun & _); exists rs, s'
  end.
  by rewrite (bind_Done _ _ _ _ _ Hrun).
Qed.

Lemma split_plan_all_ok fuel regionMap plan vars st :
  splits_succeed -> (7 <= fuel)%nat ->
  (forall regionID keys, (regionID, keys) ∈ plan ->
     keys <> [] /\ is_Some (regionMap !! regionID)) ->
  errSplit vars = None ->
  exists vars' st',
    split_plan fuel regionMap plan vars st = Done (FallThrough, vars') st'
    /\ errSplit vars' = None.
Proof.
  intros Hsplit Hfuel. revert vars st.
  induction plan as [|[regionID keys] plan IH]; intros vars st Hplan Herr.
  { by exists vars, st. }
  destruct (Hplan regionID keys) as [Hkeys [region Hregion]]; [left|].
  destruct (splitAndScatterRegions_ok fuel region keys
              {| world := world st;
                 trace := trace st ++ [EvLog InfoLevel "split regions"] |}
              Hsplit Hfuel Hkeys) as (newRegions & s' & Hrun).
  rewrite (split_plan_step _ _ _ _ _ _ _ _ _ _ Hregion Hrun).
  apply IH; [|done]. intros id ks Hin. apply Hplan. by right.
Qed.

Lemma plan_entry_ok w rewriteRules ranges regions regionID keys :
  (regionID, keys) ∈ map_range w (getSplitKeys rewriteRules ranges regions) ->
  keys <> [] /\ is_Some (index_regions regions !! regionID).
Proof.
  rewrite (map_range_perm _ w), elem_of_map_to_list, getSplitKeys_lookup.
  destruct (keys_for regionID regions (map rtree.EndKey ranges)) as [|k ks] eqn:E;
    [done|].
  intros [= <-]. split; [done|].
  assert (Hk : k ∈ keys_for regionID regions (map rtree.EndKey ranges)).
  { rewrite E. left. }
  unfold keys_for in Hk. apply list_elem_of_filter in Hk as [Hk _].
  destruct (NeedSplit k regions) as [r|] eqn:Hneed; [|done].
  injection Hk as <-. apply index_regions_is_Some.
  by apply NeedSplit_Some in Hneed as [? _].
Qed.

Lemma Split_starts_loop fuel ranges rewriteRules sortedRanges firstRange lastRange
    (st : State W) :
  ranges <> [] ->
  SortRanges ranges rewriteRules = (sortedRanges, None) ->
  head sortedRanges = Some firstRange -> last sortedRanges = Some lastRange ->
  Split fuel ranges rewriteRules st
  = Split_resume SplitRetryTimes fuel rewriteRules sortedRanges
      (codec.EncodeBytes (rtree.StartKey firstRange))
      (codec.EncodeBytes (rtree.EndKey lastRange))
      {| interval := SplitRetryInterval; scatterRegions := []; errSplit := None |}
      st.
Proof.
  intros Hne Hsort Hfirst Hlast. unfold Split.
  destruct ranges as [|rg ranges']; [exfalso; apply Hne; reflexivity|].
  rewrite Hsort, Hfirst, Hlast. unfold Split_resume. reflexivity.
Qed.

(** *** Scans that stay inconsistent *)

Lemma sleep_run d (st : State W) :
  sleep d st
  = Done tt {| world := time_Sleep d (world st); trace := trace st ++ [EvSleep d] |}.
Proof. done. Qed.

(** The loop of [Split] runs out of attempts on scans that stay
    inconsistent, and leaves its variables as they were: the scan
    error is recorded nowhere. *)
Lemma SplitRegions_loop_inconsistent n fuel rewriteRules sortedRanges
    minKey maxKey vars (st : State W) :
  scans_stay_inconsistent fuel minKey maxKey ->
  exists st',
    SplitRegions_loop n fuel rewriteRules sortedRanges minKey maxKey vars st
    = Done (inr vars) st'.
Proof.
  intros Hscan. revert st. induction n as [|n IH]; intros st.
  { by exists st. }
  cbn [SplitRegions_loop].
  destruct (Hscan st) as (regions & e & s' & Hrun & Hinc).
  rewrite (bind_Done _ _ _ _ _ Hrun). cbv beta iota.
  unfold is_inconsistent_scan in Hinc. rewrite Hinc.
  rewrite (bind_Done _ _ _ _ _ (log_run _ _ _)). cbv beta.
  rewrite (bind_Done _ _ _ _ _ (sleep_run _ _)). cbv beta.
  apply IH.
Qed.

(** So [Split] returns nil when every scan of every attempt fails with
    the inconsistent-scan error. *)
Lemma Split_nil_on_inconsistent_scans fuel ranges rewriteRules sortedRanges
    firstRange lastRange (st : State W) :
  ranges <> [] ->
  SortRanges ranges rewriteRules = (sortedRanges, None) ->
  head sortedRanges = Some firstRange -> last sortedRanges = Some lastRange ->
  scans_stay_inconsistent fuel
    (codec.EncodeBytes (rtree.StartKey firstRange))
    (codec.EncodeBytes (rtree.EndKey lastRange)) ->
  exists st', Split fuel ranges rewriteRules st = Done None st'.
Proof.
  intros Hne Hsort Hfirst Hlast Hscan.
  rewrite (Split_starts_loop _ _ _ _ _ _ _ Hne Hsort Hfirst Hlast).
  unfold Split_resume.
  destruct (SplitRegions_loop_inconsistent SplitRetryTimes fuel rewriteRules
              sortedRanges _ _
              {| interval := SplitRetryInterval; scatterRegions := [];
                 errSplit := None |} st Hscan) as (st1 & Hloop).
  rewrite (bind_Done _ _ _ _ _ Hloop).
  destruct (Split_finish_nil
              {| interval := SplitRetryInterval; scatterRegions := [];
                 errSplit := None |} eq_refl st1)
    as (r & st' & d & Hrun & _ & ->).
  by exists st'.
Qed.

(** C9.  Scatter failures stay inside the scatter coordinator.
    One pass over a pending set asks for the scatter of exactly the
    pending regions, and what is pending afterwards is the set without
    the regions whose answer was a success or an error that cannot be
    retried.  [ScatterRegions] always ends, with nothing to return, in
    at most 7 passes; it asks only for regions it was given; once an
    answer settled a region (success, or a non-retryable error) it
    never asks for that region again; and it logs one warning per
    region given up.  And when the scan and every batch split go
    through, [Split] returns nil whatever the scatter, get-region and
    get-operator calls answer. *)
Theorem ScatterRegions_never_fatal :
  (forall (set : gmap N RegionInfo) (st : State W),
     exists errs set' st' delta,
       scatter_pass set st = Done (errs, set') st'
       /\ trace st' = trace st ++ delta
       /\ count_passes delta = 1%nat
       /\ map fst (scatter_answers delta) ≡ₚ map snd (map_to_list set)
       /\ count_skipped delta = count_given_up (scatter_answers delta)
       /\ set' = still_pending set (scatter_answers delta))
  /\ (forall (fuel : nat) (newRegions : list RegionInfo) (st : State W),
        (7 <= fuel)%nat ->
        exists st' delta,
          ScatterRegions fuel newRegions st = Done tt st'
          /\ trace st' = trace st ++ delta
          /\ (count_passes delta <= 7)%nat
          /\ (forall r a, (r, a) ∈ scatter_answers delta -> r ∈ newRegions)
          /\ never_rescattered (scatter_answers delta)
          /\ count_skipped delta = count_given_up (scatter_answers delta))
  /\ (forall (fuel : nat) (ranges : list rtree.Range) (rewriteRules : RewriteRules)
             (sortedRanges : list rtree.Range) (firstRange lastRange : rtree.Range)
             (regions : list RegionInfo) (st st1 : State W),
        (7 <= fuel)%nat -> ranges <> [] ->
        SortRanges ranges rewriteRules = (sortedRanges, None) ->
        head sortedRanges = Some firstRange ->
        last sortedRanges = Some lastRange ->
        PaginateScanRegion fuel
          (codec.EncodeBytes (rtree.StartKey firstRange))
          (codec.EncodeBytes (rtree.EndKey lastRange))
          ScanRegionPaginationLimit st
        = Done (regions, None) st1 ->
        splits_succeed ->
        exists st', Split fuel ranges rewriteRules st = Done None st').
Proof.
  split_and!.
  - intros set st.
    destruct (scatter_pass_delivers set st)
      as ([errs set'] & st' & delta & Hrun & Htr & P & A & S & Hset).
    exists errs, set', st', delta. by split_and!.
  - intros fuel newRegions st Hfuel.
    destruct (ScatterRegions_delivers fuel newRegions Hfuel st)
      as ([] & st' & delta & Hrun & Htr & P & A & N & S).
    exists st', delta. by split_and!.
  - intros fuel ranges rewriteRules sortedRanges firstRange lastRange regions
      st st1 Hfuel Hne Hsort Hfirst Hlast Hscan Hsplit.
    rewrite (Split_starts_loop _ _ _ _ _ _ _ Hne Hsort Hfirst Hlast).
    unfold Split_resume. change SplitRetryTimes with (S 31).
    generalize 31%nat. intros n. cbn [SplitRegions_loop].
    rewrite bind_assoc, (bind_Done _ _ _ _ _ Hscan). cbv beta iota.
    rewrite bind_assoc, (bind_Done _ _ _ _ _ (get_world_run st1)). cbv beta.
    destruct (split_plan_all_ok fuel (index_regions regions)
                (map_range (world st1) (getSplitKeys rewriteRules sortedRanges regions))
                {| interval := SplitRetryInterval; scatterRegions := [];
                   errSplit := None |} st1 Hsplit Hfuel)
      as (vars' & st2 & Hplan & Herr); [|done|].
    { intros regionID keys Hin. by apply plan_entry_ok in Hin. }
    rewrite bind_assoc, (bind_Done _ _ _ _ _ Hplan). cbv beta iota.
    destruct (Split_finish_nil vars' Herr st2) as (r & st' & d & Hrun & _ & ->).
    exists st'. exact Hrun.
Qed.

(** C4.  Take any attempt of the loop of [Split]: the run from [st0]
    has come to the loop head with [S n] attempts left, which is so at
    the start ([Split_starts_loop]) and, by the second part below,
    again after every split error that is retried.  Let the scan of
    that attempt go through and, after the plan entries [pre] were
    split, let the batch-split RPC for the next entry fail with [e].  If the text of
    [e] contains "no valid key", [Split] returns [e] right there: the
    trace ends with that RPC and the error log lines, so no scan, split
    or scatter follows.  Otherwise the loop sleeps the doubled interval
    (at most one second) and goes back to its head with one attempt
    less, the error kept in [errSplit]: the next attempt starts with a
    fresh scan, and when no attempt is left [Split] returns [e]. *)
Theorem Split_split_error (fuel n : nat) (ranges : list rtree.Range)
    (rewriteRules : RewriteRules) (sortedRanges : list rtree.Range)
    (minKey maxKey : key) (st0 st st1 st2 : State W) (vars vars1 : SplitVars)
    (regions : list RegionInfo) (pre rest : list (N * list key))
    (regionID : N) (keys : list key) (region : RegionInfo)
    (newRegions : list RegionInfo) (e : error) (w' : W) :
  Split fuel ranges rewriteRules st0
    = Split_resume (S n) fuel rewriteRules sortedRanges minKey maxKey vars st ->
  PaginateScanRegion fuel minKey maxKey ScanRegionPaginationLimit st
    = Done (regions, None) st1 ->
  map_range (world st1) (getSplitKeys rewriteRules sortedRanges regions)
    = pre ++ (regionID, keys) :: rest ->
  split_plan fuel (index_regions regions) pre vars st1
    = Done (FallThrough, vars1) st2 ->
  index_regions regions !! regionID = Some region ->
  BatchSplitRegions region keys (world st2) = ((newRegions, Some e), w') ->
  (strings.Contains (errors.msg e) "no valid key" = true ->
     Split fuel ranges rewriteRules st0
     = Done (Some e)
         {| world := w';
            trace := trace st2
              ++ [EvLog InfoLevel "split regions";
                  EvBatchSplitRegions region keys (newRegions, Some e)]
              ++ replicate (length keys)
                   (EvLog ErrorLevel "split regions no valid key") |})
  /\ (strings.Contains (errors.msg e) "no valid key" = false ->
      Split fuel ranges rewriteRules st0
      = Split_resume n fuel rewriteRules sortedRanges minKey maxKey
          {| interval := double_capped (interval vars1) SplitMaxRetryInterval;
             scatterRegions := scatterRegions vars1;
             errSplit := Some e |}
          {| world := time_Sleep
                        (double_capped (interval vars1) SplitMaxRetryInterval) w';
             trace := trace st2
               ++ [EvLog InfoLevel "split regions";
                   EvBatchSplitRegions region keys (newRegions, Some e);
                   EvSleep (double_capped (interval vars1) SplitMaxRetryInterval);
                   EvLog WarnLevel "split regions failed, retry"] |}
      /\ (n = 0%nat ->
          Split fuel ranges rewriteRules st0
          = Done (Some e)
              {| world := time_Sleep
                            (double_capped (interval vars1) SplitMaxRetryInterval) w';
                 trace := trace st2
                   ++ [EvLog InfoLevel "split regions";
                       EvBatchSplitRegions region keys (newRegions, Some e);
                       EvSleep (double_capped (interval vars1) SplitMaxRetryInterval);
                       EvLog WarnLevel "split regions failed, retry"] |})).
Proof.
  intros Hreach Hscan Hplan Hpre Hregion Hsplit.
  assert (Hkeys : keys <> []).
  { apply (plan_entry_ok (world st1) rewriteRules sortedRanges regions regionID).
    rewrite Hplan. apply elem_of_app. right. left. }
  rewrite Hreach. unfold Split_resume at 1 2 4. cbn [SplitRegions_loop].
  rewrite bind_assoc, (bind_Done _ _ _ _ _ Hscan). cbv beta iota.
  rewrite bind_assoc, (bind_Done _ _ _ _ _ (get_world_run st1)). cbv beta.
  rewrite Hplan, bind_assoc.
  rewrite (bind_run_eq _ _ _ _ _ (split_plan_app _ _ _ _ _ _ _ _ Hpre)).
  split.
  - intros Hmsg.
    by rewrite (bind_Done _ _ _ _ _
      (split_plan_abort _ _ _ _ _ _ _ _ _ _ _ Hregion Hkeys Hsplit Hmsg)).
  - intros Hmsg.
    rewrite (bind_Done _ _ _ _ _
      (split_plan_retry _ _ _ _ _ _ _ _ _ _ _ Hregion Hkeys Hsplit Hmsg)).
    cbv beta iota. split; [unfold Split_resume; reflexivity|].
    by intros ->.
Qed.

End ExecutorFacts.

(** C4 on a cluster of one region that refuses the split at [m]: with
    "no valid key" in the message [Split] returns after the first
    split RPC; with another message it sleeps 100ms and takes up the
    loop again with 31 attempts left. *)
Lemma Split_split_error_witness :
  Split (client := Examples.scripted (Examples.refuses_split "split: no valid key found"))
    (runtime := Examples.wall_clock) (collab := Examples.collaborators)
    7 [Examples.range "a" "m"] Examples.no_rules Examples.start_state
  = Done (Some (Examples.refusal "split: no valid key found"))
      {| world := 0;
         trace :=
           [Examples.scan_a_m;
            EvLog InfoLevel "split regions";
            EvBatchSplitRegions Examples.whole [bs "m"]
              ([], Some (Examples.refusal "split: no valid key found"));
            EvLog ErrorLevel "split regions no valid key"] |}
  /\ Split (client := Examples.scripted (Examples.refuses_split "epoch not match"))
       (runtime := Examples.wall_clock) (collab := Examples.collaborators)
       7 [Examples.range "a" "m"] Examples.no_rules Examples.start_state
     = Split_resume (client := Examples.scripted (Examples.refuses_split "epoch not match"))
         (runtime := Examples.wall_clock) (collab := Examples.collaborators)
         31 7 Examples.no_rules [Examples.range "a" "m"]
         (codec.EncodeBytes (bs "a")) (codec.EncodeBytes (bs "m"))
         {| interval := 100 * time.Millisecond; scatterRegions := [];
            errSplit := Some (Examples.refusal "epoch not match") |}
         {| world := 100 * time.Millisecond;
            trace :=
              [Examples.scan_a_m;
               EvLog InfoLevel "split regions";
               EvBatchSplitRegions Examples.whole [bs "m"]
                 ([], Some (Examples.refusal "epoch not match"));
               EvSleep (100 * time.Millisecond);
               EvLog WarnLevel "split regions failed, retry"] |}.
Proof.
  split.
  - apply (Split_split_error
      (client := Examples.scripted (Examples.refuses_split "split: no valid key found"))
      (runtime := Examples.wall_clock) (collab := Examples.collaborators)
      7 31 [Examples.range "a" "m"] Examples.no_rules [Examples.range "a" "m"]
      (codec.EncodeBytes (bs "a")) (codec.EncodeBytes (bs "m"))
      Examples.start_state Examples.start_state
      {| world := 0; trace := [Examples.scan_a_m] |}
      {| world := 0; trace := [Examples.scan_a_m] |}
      Examples.first_attempt Examples.first_attempt
      [Examples.whole] [] [] 1%N [bs "m"] Examples.whole []
      (Examples.refusal "split: no valid key found") 0);
      [ apply (Split_starts_loop (client := Examples.scripted _) 7
                 [Examples.range "a" "m"] Examples.no_rules [Examples.range "a" "m"]
                 (Examples.range "a" "m") (Examples.range "a" "m"));
          [discriminate | reflexivity | reflexivity | reflexivity]
      | vm_compute; reflexivity | vm_compute; reflexivity | reflexivity
      | reflexivity | reflexivity | vm_compute; reflexivity ].
  - apply (Split_split_error
      (client := Examples.scripted (Examples.refuses_split "epoch not match"))
      (runtime := Examples.wall_clock) (collab := Examples.collaborators)
      7 31 [Examples.range "a" "m"] Examples.no_rules [Examples.range "a" "m"]
      (codec.EncodeBytes (bs "a")) (codec.EncodeBytes (bs "m"))
      Examples.start_state Examples.start_state
      {| world := 0; trace := [Examples.scan_a_m] |}
      {| world := 0; trace := [Examples.scan_a_m] |}
      Examples.first_attempt Examples.first_attempt
      [Examples.whole] [] [] 1%N [bs "m"] Examples.whole []
      (Examples.refusal "epoch not match") 0);
      [ apply (Split_starts_loop (client := Examples.scripted _) 7
                 [Examples.range "a" "m"] Examples.no_rules [Examples.range "a" "m"]
                 (Examples.range "a" "m") (Examples.range "a" "m"));
          [discriminate | reflexivity | reflexivity | reflexivity]
      | vm_compute; reflexivity | vm_compute; reflexivity | reflexivity
      | reflexivity | reflexivity | vm_compute; reflexivity ].
Defined.

(** C9 on a cluster: the region cut out at [m] is refused by the
    scatter call for good, and [Split] still returns nil. *)
Lemma ScatterRegions_never_fatal_witness :
  exists st',
    Split (client := Examples.scripted Examples.scatter_refused)
      (runtime := Examples.wall_clock) (collab := Examples.collaborators)
      7 [Examples.range "a" "m"] Examples.no_rules Examples.start_state
    = Done None st'.
Proof.
  destruct (ScatterRegions_never_fatal
              (client := Examples.scripted Examples.scatter_refused)
              (runtime := Examples.wall_clock) (collab := Examples.collaborators))
    as (_ & _ & Hsplit).
  apply (Hsplit 7%nat [Examples.range "a" "m"] Examples.no_rules
           [Examples.range "a" "m"] (Examples.range "a" "m") (Examples.range "a" "m")
           [Examples.whole] Examples.start_state
           {| world := 0; trace := [Examples.scan_a_m] |});
    [lia | discriminate | reflexivity | reflexivity | reflexivity
    | vm_compute; reflexivity | ].
  intros region keys w.
  by exists [Examples.region 2 "" "m"], (Examples.region 3 "n" ""), w.
Defined.

(** C3 does not hold of the code.  On a cluster whose scans come back
    empty, every scan is rejected as inconsistent; [Split] uses up its
    32 attempts (3 scans each, 80 seconds of sleep) and then returns
    nil: the scan error was never stored, and only [errSplit] is
    looked at after the loop. *)
Theorem Split_swallows_exhausted_scans :
  exists st',
    Split (client := Examples.scripted Examples.empty_scans)
      (runtime := Examples.wall_clock) (collab := Examples.collaborators)
      7 [Examples.range "a" "m"] Examples.no_rules Examples.start_state
    = Done None st'
    /\ length (List.filter is_cluster_change (trace st')) = 96%nat
    /\ count_log WarnLevel "inconsistent region info get." (trace st') = 32%nat
    /\ world st' = 80 * time.Second.
Proof. eexists. split; [vm_compute; reflexivity|]. vm_compute. done. Qed.

(** * Further properties *)

(** ** Byte order, continued *)

Module bytes_order.
Import bytes bytes_facts.

Lemma Compare_Lt_Gt a b : Compare a b = Lt <-> Compare b a = Gt.
Proof. rewrite (Compare_antisym a b). destruct (Compare a b); cbn; split; congruence. Qed.

Lemma le_trans a b c : le a b = true -> le b c = true -> le a c = true.
Proof.
  unfold le. intros H1 H2.
  destruct (Compare a c) eqn:Hac; try done.
  apply Compare_Lt_Gt in Hac.
  destruct (Compare a b) eqn:Hab; try done.
  - apply Compare_eq in Hab. subst. apply Compare_Lt_Gt in Hac. by rewrite Hac in H2.
  - destruct (Compare b c) eqn:Hbc; try done.
    + apply Compare_eq in Hbc. subst. apply Compare_Lt_Gt in Hac. by rewrite Hac in Hab.
    + pose proof (Compare_lt_trans _ _ _ Hbc Hac) as H.
      apply Compare_Lt_Gt in H. by rewrite H in Hab.
Qed.

Lemma lt_le_trans a b c : lt a b = true -> le b c = true -> lt a c = true.
Proof.
  unfold lt, le. intros H1 H2.
  destruct (Compare a b) eqn:Hab; try done.
  destruct (Compare b c) eqn:Hbc; try done.
  - apply Compare_eq in Hbc. subst. by rewrite Hab.
  - by rewrite (Compare_lt_trans _ _ _ Hab Hbc).
Qed.

Lemma le_lt_trans a b c : le a b = true -> lt b c = true -> lt a c = true.
Proof.
  unfold lt, le. intros H1 H2.
  destruct (Compare b c) eqn:Hbc; try done.
  destruct (Compare a b) eqn:Hab; try done.
  - apply Compare_eq in Hab. subst. by rewrite Hbc.
  - by rewrite (Compare_lt_trans _ _ _ Hab Hbc).
Qed.

Lemma lt_le a b : lt a b = true -> le a b = true.
Proof. unfold lt, le. by destruct (Compare a b). Qed.

Lemma le_refl a : le a a = true.
Proof. unfold le. by rewrite Compare_refl. Qed.

Lemma le_nil_l a : le [] a = true.
Proof. by destruct a. Qed.

Lemma le_total a b : le a b = true \/ le b a = true.
Proof.
  unfold le. rewrite (Compare_antisym a b). destruct (Compare a b); cbn; auto.
Qed.

End bytes_order.

(** ** The memcomparable encoding *)

Section CodecFacts.
Import bytes codec bytes_facts bytes_order.

Lemma marker_to_N p :
  (p <= 8)%nat -> Byte.to_N (marker p) = (255 - N.of_nat p)%N.
Proof. intros Hp. do 9 (destruct p as [|p]; [reflexivity|]). lia. Qed.

Lemma cmp_byte_marker n m :
  (m < n <= 8)%nat -> cmp_byte (marker n) (marker m) = Lt.
Proof.
  intros H. unfold cmp_byte. rewrite !marker_to_N by lia.
  apply N.compare_lt_iff. lia.
Qed.

Lemma cmp_byte_x00 y : cmp_byte x00 y = Lt \/ y = x00.
Proof.
  unfold cmp_byte. change (Byte.to_N x00) with 0%N.
  destruct (Byte.to_N y) eqn:E; [right|by left].
  apply (f_equal Byte.of_N) in E. rewrite Byte.of_to_N in E.
  change (Byte.of_N 0) with (Some x00) in E. congruence.
Qed.

Lemma Compare_app_l p x y : Compare (p ++ x) (p ++ y) = Compare x y.
Proof. induction p as [|c p IH]; [done|]. cbn. by rewrite cmp_byte_refl. Qed.

Lemma EncodeBytes_at_0 data :
  EncodeBytes_at 0 data = marker 0 :: EncodeBytes_at 8 data.
Proof. by destruct data. Qed.

Lemma EncodeBytes_at_short n data :
  (length data < n)%nat ->
  EncodeBytes_at n data
  = data ++ replicate (n - length data) x00 ++ [marker (n - length data)].
Proof.
  revert n. induction data as [|x data IH]; intros n Hn; cbn [length] in *.
  - destruct n; [lia|]. by rewrite Nat.sub_0_r.
  - destruct n; [lia|]. cbn [EncodeBytes_at]. rewrite IH by lia. done.
Qed.

Lemma EncodeBytes_at_long n data :
  (n <= length data)%nat -> (0 < n)%nat ->
  EncodeBytes_at n data = take n data ++ EncodeBytes_at 0 (drop n data).
Proof.
  revert n. induction data as [|x data IH]; intros n Hn Hpos; cbn [length] in *.
  - lia.
  - destruct n as [|n]; [lia|]. cbn [EncodeBytes_at take drop app].
    destruct n as [|n].
    + by rewrite take_0, drop_0.
    + rewrite IH by lia. done.
Qed.

Lemma EncodeBytes_from_at fuel data :
  (length data < 8 * fuel)%nat ->
  EncodeBytes_from fuel data = EncodeBytes_at 8 data.
Proof.
  revert data. induction fuel as [|fuel IH]; intros data Hlen; [lia|].
  cbn [EncodeBytes_from]. unfold encGroupSize.
  destruct (8 <=? length data)%nat eqn:E.
  - apply Nat.leb_le in E.
    rewrite EncodeBytes_at_long, EncodeBytes_at_0 by lia.
    rewrite IH; [done|]. rewrite length_drop. lia.
  - apply Nat.leb_gt in E. by rewrite EncodeBytes_at_short.
Qed.

Lemma EncodeBytes_at_8 data : EncodeBytes data = EncodeBytes_at 8 data.
Proof.
  unfold EncodeBytes. apply EncodeBytes_from_at. unfold encGroupSize.
  pose proof (Nat.div_mod_eq (length data) 8).
  pose proof (Nat.mod_upper_bound (length data) 8). lia.
Qed.

Lemma EncodeBytes_short data :
  (length data < 8)%nat ->
  EncodeBytes data
  = data ++ replicate (8 - length data) x00 ++ [marker (8 - length data)].
Proof. intros H. by rewrite EncodeBytes_at_8, EncodeBytes_at_short. Qed.

Lemma EncodeBytes_long data :
  (8 <= length data)%nat ->
  EncodeBytes data = take 8 data ++ marker 0 :: EncodeBytes (drop 8 data).
Proof.
  intros H.
  by rewrite !EncodeBytes_at_8, EncodeBytes_at_long, EncodeBytes_at_0 by lia.
Qed.

(** Padding is below whatever the encoding of more data writes in its
    place. *)
Lemma Compare_pad_lt k n b :
  (k < n <= 8)%nat ->
  Compare (replicate k x00 ++ [marker n]) (EncodeBytes_at k b) = Lt.
Proof.
  revert b. induction k as [|k IH]; intros b Hk.
  - rewrite EncodeBytes_at_0. cbn. by rewrite cmp_byte_marker by lia.
  - destruct b as [|y b]; cbn [EncodeBytes_at].
    + rewrite Compare_app_l. cbn. by rewrite cmp_byte_marker by lia.
    + cbn [replicate app Compare].
      destruct (cmp_byte_x00 y) as [->| ->]; [done|].
      rewrite cmp_byte_refl. apply IH. lia.
Qed.

Lemma Compare_EncodeBytes_at_nil n y b :
  (0 < n <= 8)%nat ->
  Compare (EncodeBytes_at n []) (EncodeBytes_at n (y :: b)) = Lt.
Proof.
  intros Hn. destruct n as [|n]; [lia|]. cbn [EncodeBytes_at replicate app Compare].
  destruct (cmp_byte_x00 y) as [->| ->]; [done|].
  rewrite cmp_byte_refl. apply Compare_pad_lt. lia.
Qed.

Lemma Compare_EncodeBytes_at n a b :
  (0 < n <= 8)%nat ->
  Compare (EncodeBytes_at n a) (EncodeBytes_at n b) = Compare a b.
Proof.
  revert n b. induction a as [|x a IH]; intros n b Hn.
  - destruct b as [|y b]; [apply Compare_refl|].
    by rewrite Compare_EncodeBytes_at_nil.
  - destruct b as [|y b].
    + rewrite Compare_antisym, Compare_EncodeBytes_at_nil; done.
    + destruct n as [|n]; [lia|]. cbn [EncodeBytes_at Compare].
      destruct (cmp_byte x y); try done.
      destruct n as [|n].
      * rewrite !EncodeBytes_at_0. cbn [Compare]. rewrite cmp_byte_refl.
        apply IH. lia.
      * apply IH. lia.
Qed.

(** The encoding keeps the order of the keys. *)
Lemma Compare_EncodeBytes a b :
  Compare (EncodeBytes a) (EncodeBytes b) = Compare a b.
Proof. rewrite !EncodeBytes_at_8. apply Compare_EncodeBytes_at. lia. Qed.

Lemma EncodeBytes_inj a b : EncodeBytes a = EncodeBytes b -> a = b.
Proof.
  intros H. apply Compare_eq. rewrite <- Compare_EncodeBytes, H. apply Compare_refl.
Qed.

Lemma length_EncodeBytes data :
  length (EncodeBytes data) = (9 * (length data / 8 + 1))%nat.
Proof.
  remember (length data) as n eqn:Hn. revert data Hn.
  induction n as [n IH] using lt_wf_ind. intros data ->.
  destruct (Nat.lt_ge_cases (length data) 8) as [Hs|Hl].
  - rewrite EncodeBytes_short by done.
    rewrite !length_app, length_replicate. cbn [length].
    rewrite Nat.div_small by done. lia.
  - rewrite EncodeBytes_long by done. rewrite length_app. cbn [length].
    rewrite length_take, (IH (length data - 8)%nat) by (rewrite ?length_drop; lia).
    replace (length data) with ((length data - 8) + 1 * 8)%nat at 3 by lia.
    rewrite Nat.div_add by lia. lia.
Qed.

Lemma DecodeBytes_from_long fuel g rest data :
  length g = 8%nat ->
  DecodeBytes_from (S fuel) (g ++ marker 0 :: rest) data
  = DecodeBytes_from fuel rest (data ++ g).
Proof.
  intros Hg. cbn [DecodeBytes_from]. unfold encGroupSize, encMarker.
  rewrite length_app, Hg. cbn [length].
  replace (8 + S (length rest) <? 8 + 1)%nat with false
    by (symmetry; apply Nat.ltb_ge; lia).
  rewrite lookup_app_r by lia. rewrite Hg. cbn [lookup list_lookup Nat.sub].
  rewrite marker_to_N by lia. cbn.
  rewrite take_app_length' by done. rewrite firstn_all2 by lia.
  replace 9%nat with (length g + 1)%nat by lia.
  rewrite <- drop_drop, drop_app_length. done.
Qed.

Lemma Equal_refl a : Equal a a = true.
Proof. by apply Equal_true. Qed.

Lemma DecodeBytes_from_short fuel k rest data :
  (length k < 8)%nat ->
  DecodeBytes_from (S fuel)
    ((k ++ replicate (8 - length k) x00 ++ [marker (8 - length k)]) ++ rest) data
  = (rest, data ++ k, None).
Proof.
  intros Hk. cbn [DecodeBytes_from]. unfold encGroupSize, encMarker.
  set (p := (8 - length k)%nat).
  assert (Hg : length (k ++ replicate p x00) = 8%nat).
  { rewrite length_app, length_replicate. lia. }
  replace ((k ++ replicate p x00 ++ [marker p]) ++ rest)
    with ((k ++ replicate p x00) ++ marker p :: rest)
    by (by rewrite <- !app_assoc).
  rewrite length_app, Hg. cbn [length].
  replace (8 + S (length rest) <? 8 + 1)%nat with false
    by (symmetry; apply Nat.ltb_ge; lia).
  rewrite lookup_app_r by lia. rewrite Hg. cbn [lookup list_lookup Nat.sub].
  rewrite marker_to_N by lia.
  replace (N.to_nat (255 - (255 - N.of_nat p))) with p by lia.
  replace (8 <? p)%nat with false by (symmetry; apply Nat.ltb_ge; lia).
  replace (p =? 0)%nat with false by (symmetry; apply Nat.eqb_neq; lia).
  cbn [negb].
  rewrite take_app_length' by done.
  replace (8 - p)%nat with (length k) by lia.
  rewrite take_app_length, drop_app_length, Equal_refl. cbn [negb].
  replace (8 + 1)%nat with (length (k ++ replicate p x00) + 1)%nat by lia.
  rewrite <- drop_drop, drop_app_length. done.
Qed.

Lemma DecodeBytes_from_EncodeBytes fuel k rest data :
  (length k / 8 < fuel)%nat ->
  DecodeBytes_from fuel (EncodeBytes k ++ rest) data = (rest, data ++ k, None).
Proof.
  revert k data. induction fuel as [|fuel IH]; intros k data Hfuel; [lia|].
  destruct (Nat.lt_ge_cases (length k) 8) as [Hs|Hl].
  - rewrite EncodeBytes_short by done. by apply DecodeBytes_from_short.
  - rewrite EncodeBytes_long by done.
    rewrite <- app_assoc. cbn [app].
    rewrite DecodeBytes_from_long by (rewrite length_take; lia).
    rewrite IH.
    + by rewrite <- app_assoc, take_drop.
    + rewrite length_drop.
      replace (length k) with ((length k - 8) + 1 * 8)%nat in Hfuel by lia.
      rewrite Nat.div_add in Hfuel by lia. lia.
Qed.

(** Decoding an encoded key gives the key back, with nothing left
    over. *)
Lemma DecodeBytes_EncodeBytes k :
  DecodeBytes (EncodeBytes k) = ([], k, None).
Proof.
  unfold DecodeBytes.
  rewrite <- (app_nil_r (EncodeBytes k)) at 2.
  rewrite DecodeBytes_from_EncodeBytes; [done|].
  rewrite length_EncodeBytes.
  pose proof (Nat.Div0.div_le_upper_bound (length k) 8 (length k)). lia.
Qed.

End CodecFacts.

(** ** Key rewriting *)

Section RewriteFacts.
Import bytes_facts bytes_order.

Lemma HasPrefix_spec s prefix :
  bytes.HasPrefix s prefix = true <-> has_prefix s prefix.
Proof.
  unfold bytes.HasPrefix, has_prefix. rewrite andb_true_iff, Nat.leb_le, Equal_true.
  split.
  - intros [_ H]. exists (drop (length prefix) s).
    by rewrite <- H at 1; rewrite take_drop.
  - intros [tail ->]. rewrite length_app, take_app_length. split; [lia|done].
Qed.

Lemma HasPrefix_false s prefix :
  bytes.HasPrefix s prefix = false <-> ~ has_prefix s prefix.
Proof. rewrite <- HasPrefix_spec. by destruct (bytes.HasPrefix s prefix). Qed.

Lemma replacePrefix_rules_Some s rules s' rule :
  replacePrefix_rules s rules = (s', Some rule) ->
  rule ∈ rules /\ bytes.HasPrefix s (OldKeyPrefix rule) = true
  /\ s' = NewKeyPrefix rule ++ drop (length (OldKeyPrefix rule)) s.
Proof.
  induction rules as [|r rules IH]; cbn [replacePrefix_rules]; [done|].
  destruct (bytes.HasPrefix s (OldKeyPrefix r)) eqn:E.
  - intros [= <- <-]. split_and!; [left|done|done].
  - intros H. destruct (IH H) as (? & ? & ?). split_and!; [by right|done|done].
Qed.

Lemma replacePrefix_rules_first (s tail : key) (pre rest : list RewriteRule)
    (rule : RewriteRule) :
  s = OldKeyPrefix rule ++ tail ->
  Forall (fun r => ~ has_prefix s (OldKeyPrefix r)) pre ->
  replacePrefix_rules s (pre ++ rule :: rest)
  = (NewKeyPrefix rule ++ tail, Some rule).
Proof.
  intros Hs Hpre.
  induction Hpre as [|r pre Hr _ IH]; cbn [app replacePrefix_rules].
  - assert (H : bytes.HasPrefix s (OldKeyPrefix rule) = true).
    { apply HasPrefix_spec. by exists tail. }
    rewrite H, Hs, drop_app_length. done.
  - apply HasPrefix_false in Hr. by rewrite Hr.
Qed.

(** X1.  The first rule whose old prefix the key begins with is the one
    applied: the key's prefix is replaced by the rule's new prefix, the
    rest of the key is kept, and that rule is reported, whatever rules
    come after it. *)
Theorem replacePrefix_first_match (s tail : key) (pre rest : list RewriteRule)
    (rule : RewriteRule) :
  s = OldKeyPrefix rule ++ tail ->
  Forall (fun r => ~ has_prefix s (OldKeyPrefix r)) pre ->
  replacePrefix s {| Data := pre ++ rule :: rest |}
  = (NewKeyPrefix rule ++ tail, Some rule).
Proof.
  intros Hs Hpre. unfold replacePrefix. cbn [Data].
  by apply replacePrefix_rules_first.
Qed.

Lemma replacePrefix_first_match_witness :
  replacePrefix (bs "t1_r5")
    {| Data := [ {| OldKeyPrefix := bs "t2"; NewKeyPrefix := bs "t9" |};
                 {| OldKeyPrefix := bs "t1"; NewKeyPrefix := bs "t77" |};
                 {| OldKeyPrefix := bs "t"; NewKeyPrefix := bs "x" |} ] |}
  = (bs "t77_r5", Some {| OldKeyPrefix := bs "t1"; NewKeyPrefix := bs "t77" |}).
Proof.
  apply (replacePrefix_first_match (bs "t1_r5") (bs "_r5")
           [ {| OldKeyPrefix := bs "t2"; NewKeyPrefix := bs "t9" |} ]
           [ {| OldKeyPrefix := bs "t"; NewKeyPrefix := bs "x" |} ]
           {| OldKeyPrefix := bs "t1"; NewKeyPrefix := bs "t77" |}).
  - reflexivity.
  - apply Forall_cons_2; [|apply Forall_nil_2].
    apply HasPrefix_false. reflexivity.
Defined.

(** X2.  A key that begins with no rule's old prefix is handed back
    unchanged and with no rule; and no rule is reported only then. *)
Theorem replacePrefix_no_match (s : key) (rewriteRules : RewriteRules) :
  (snd (replacePrefix s rewriteRules) = None
   <-> Forall (fun r => ~ has_prefix s (OldKeyPrefix r)) (Data rewriteRules))
  /\ (snd (replacePrefix s rewriteRules) = None ->
      fst (replacePrefix s rewriteRules) = s).
Proof.
  unfold replacePrefix. destruct rewriteRules as [rules]. cbn [Data].
  induction rules as [|r rules [IH1 IH2]]; cbn [replacePrefix_rules].
  - split; [|done]. split; [intros _; apply Forall_nil_2|done].
  - destruct (bytes.HasPrefix s (OldKeyPrefix r)) eqn:E.
    + split; [|done]. split; [done|].
      intros H%Forall_cons_1. destruct H as [H _].
      by apply HasPrefix_false in H; rewrite H in E.
    + apply HasPrefix_false in E. split; [|done]. rewrite IH1. split.
      * intros H. by apply Forall_cons_2.
      * by intros [_ H]%Forall_cons_1.
Qed.

(** X3.  A rewrite can be undone with the rule that was reported:
    rewriting the new key by the inverse rule gives the old key back.
    The rule reported is one of the rules, and the key changes in
    length by the difference of the two prefixes. *)
Theorem replacePrefix_undo (s s' : key) (rewriteRules : RewriteRules)
    (rule : RewriteRule) :
  replacePrefix s rewriteRules = (s', Some rule) ->
  replacePrefix s' {| Data := [inverse rule] |} = (s, Some (inverse rule))
  /\ rule ∈ Data rewriteRules
  /\ (length s' + length (OldKeyPrefix rule)
      = length s + length (NewKeyPrefix rule))%nat.
Proof.
  unfold replacePrefix at 1.
  intros (Hin & [tail ->]%HasPrefix_spec & ->)%replacePrefix_rules_Some.
  rewrite drop_app_length. split_and!.
  - unfold replacePrefix. cbn [Data].
    apply (replacePrefix_rules_first _ tail [] [] (inverse rule)); [done|].
    apply Forall_nil_2.
  - done.
  - rewrite !length_app. lia.
Qed.

Lemma replacePrefix_undo_witness :
  replacePrefix (bs "t77_r5")
    {| Data := [inverse {| OldKeyPrefix := bs "t1"; NewKeyPrefix := bs "t77" |}] |}
  = (bs "t1_r5", Some (inverse {| OldKeyPrefix := bs "t1"; NewKeyPrefix := bs "t77" |})).
Proof.
  apply (replacePrefix_undo (bs "t1_r5") (bs "t77_r5")
           {| Data := [ {| OldKeyPrefix := bs "t2"; NewKeyPrefix := bs "t9" |};
                        {| OldKeyPrefix := bs "t1"; NewKeyPrefix := bs "t77" |} ] |}
           {| OldKeyPrefix := bs "t1"; NewKeyPrefix := bs "t77" |}).
  reflexivity.
Defined.

End RewriteFacts.

(** ** Keys, regions and ranges *)

Section RangeFacts.
Import bytes_facts bytes_order.
Context {collab : Collaborators}.

Lemma lt_not_ge a b : bytes.lt a b = negb (bytes.ge a b).
Proof. unfold bytes.lt, bytes.ge. by destruct (bytes.Compare a b). Qed.

Lemma ge_trans a b c :
  bytes.ge a b = true -> bytes.ge b c = true -> bytes.ge a c = true.
Proof. rewrite !ge_le. intros H1 H2. by apply (le_trans c b a). Qed.

Lemma beforeEnd_nil_l e : beforeEnd [] e = true.
Proof. by destruct e. Qed.

Lemma beforeEnd_le_trans a b e :
  bytes.le a b = true -> beforeEnd b e = true -> beforeEnd a e = true.
Proof.
  unfold beforeEnd. rewrite !orb_true_iff. intros Hab [Hbe|He]; [|by right].
  left. by apply (le_lt_trans a b e).
Qed.

Lemma beforeEnd_nonempty k e : e <> [] -> beforeEnd k e = bytes.lt k e.
Proof. unfold beforeEnd. destruct e; [done|]. intros _. cbn. apply orb_false_r. Qed.

(** X4.  Cutting a region at a key inside it gives two regions that
    share the keys of the region between them: every key is inside the
    region exactly when it is inside one of the two halves, and never
    inside both. *)
Theorem keyInsideRegion_split (region left right : metapb.Region) (m k : key) :
  m <> [] -> keyInsideRegion region m = true ->
  metapb.StartKey left = metapb.StartKey region -> metapb.EndKey left = m ->
  metapb.StartKey right = m -> metapb.EndKey right = metapb.EndKey region ->
  keyInsideRegion region k
  = xorb (keyInsideRegion left k) (keyInsideRegion right k).
Proof.
  unfold keyInsideRegion. intros Hm [Hs He]%andb_true_iff -> -> -> ->.
  rewrite (beforeEnd_nonempty k m Hm), lt_not_ge.
  destruct (bytes.ge k m) eqn:Hkm; cbn [negb].
  - rewrite andb_false_r. cbn [xorb andb].
    by rewrite (ge_trans _ _ _ Hkm Hs).
  - rewrite andb_true_r, xorb_false_r.
    assert (Hlt : bytes.lt k m = true) by (by rewrite lt_not_ge, Hkm).
    by rewrite (beforeEnd_lt_trans _ _ _ Hlt He), andb_true_r.
Qed.

Lemma keyInsideRegion_split_witness :
  keyInsideRegion
    {| metapb.Id := 1; metapb.StartKey := bs "a"; metapb.EndKey := bs "z";
       metapb.Peers := [] |} (bs "q")
  = xorb
      (keyInsideRegion
         {| metapb.Id := 2; metapb.StartKey := bs "a"; metapb.EndKey := bs "m";
            metapb.Peers := [] |} (bs "q"))
      (keyInsideRegion
         {| metapb.Id := 3; metapb.StartKey := bs "m"; metapb.EndKey := bs "z";
            metapb.Peers := [] |} (bs "q")).
Proof.
  apply (keyInsideRegion_split _ _ _ (bs "m") (bs "q")); done.
Defined.

(** X5.  When an SST file is inside a region, so is every key between
    the file's start key and its end key. *)
Theorem insideRegion_covers (region : metapb.Region) (meta : sst.SSTMeta)
    (rg : sst.Range) (k : key) :
  sst.GetRange meta = Some rg -> insideRegion region meta = true ->
  bytes.le (sst.Start rg) k = true -> bytes.le k (sst.End rg) = true ->
  keyInsideRegion region k = true.
Proof.
  unfold insideRegion, keyInsideRegion. intros -> H Hlo Hhi. cbn [sst.GetStart sst.GetEnd] in H.
  apply andb_true_iff in H as [[H1 _]%andb_true_iff [_ H2]%andb_true_iff].
  apply andb_true_iff. split.
  - rewrite ge_le in *. by apply (le_trans _ (sst.Start rg)).
  - by apply (beforeEnd_le_trans _ (sst.End rg)).
Qed.

Lemma insideRegion_covers_witness :
  keyInsideRegion
    {| metapb.Id := 1; metapb.StartKey := bs "a"; metapb.EndKey := bs "z";
       metapb.Peers := [] |} (bs "h")
  = true.
Proof.
  apply (insideRegion_covers _
           {| sst.Range_ := Some {| sst.Start := bs "c"; sst.End := bs "k" |} |}
           {| sst.Start := bs "c"; sst.End := bs "k" |} (bs "h")); reflexivity.
Defined.

(** X6.  An SST file that carries no range has empty start and end
    keys: it is inside exactly the regions that start at the beginning
    of the key space. *)
Theorem insideRegion_no_range (region : metapb.Region) (meta : sst.SSTMeta) :
  sst.GetRange meta = None ->
  insideRegion region meta = is_empty (metapb.StartKey region).
Proof.
  unfold insideRegion, keyInsideRegion. intros ->. cbn [sst.GetStart sst.GetEnd].
  rewrite beforeEnd_nil_l, andb_true_r, andb_diag.
  by destruct (metapb.StartKey region).
Qed.

Lemma insideRegion_no_range_witness :
  insideRegion
    {| metapb.Id := 1; metapb.StartKey := bs "a"; metapb.EndKey := bs "z";
       metapb.Peers := [] |} {| sst.Range_ := None |}
  = false.
Proof.
  apply (insideRegion_no_range
           {| metapb.Id := 1; metapb.StartKey := bs "a"; metapb.EndKey := bs "z";
              metapb.Peers := [] |} {| sst.Range_ := None |}).
  reflexivity.
Defined.

Lemma decoded_bound k :
  (if negb (is_empty (encode_bound k))
   then snd (fst (codec.DecodeBytes (encode_bound k))) else []) = k.
Proof.
  unfold encode_bound. destruct k as [|b k]; [done|]. cbn [is_empty].
  destruct (codec.EncodeBytes (b :: k)) eqn:E.
  - by apply EncodeBytes_nonempty in E.
  - cbn [is_empty negb]. by rewrite <- E, DecodeBytes_EncodeBytes.
Qed.

(** X7.  For a region that holds the raw interval from [s] to [e] in
    encoded form (an empty key is stored empty) and a range with an end
    key, a key lies in [intersectRange] exactly when it lies in the
    range and in the region's raw interval. *)
Theorem intersectRange_bounded (region : metapb.Region) (s e : key) (rg : Range)
    (k : key) :
  metapb.StartKey region = encode_bound s ->
  metapb.EndKey region = encode_bound e ->
  End rg <> [] ->
  in_range (intersectRange region rg) k
  = in_range rg k && in_range {| Start := s; End := e |} k.
Proof.
  intros Hs He Hrg. unfold intersectRange. rewrite Hs, He, !decoded_bound.
  unfold in_range. cbn [Start End].
  assert (Hlo : bytes.ge k (if bytes.lt s (Start rg) then Start rg else s)
                = bytes.ge k (Start rg) && bytes.ge k s).
  { destruct (bytes.lt s (Start rg)) eqn:E.
    - destruct (bytes.ge k (Start rg)) eqn:E1; [|done]. cbn [andb].
      symmetry. rewrite ge_le in *. apply (le_trans _ (Start rg)); [|done].
      by apply lt_le.
    - destruct (bytes.ge k s) eqn:E1; [|by rewrite andb_false_r].
      rewrite andb_true_r. symmetry.
      apply (ge_trans _ s); [done|]. by rewrite ge_not_lt, E. }
  assert (Hhi : beforeEnd k (if beforeEnd (End rg) e then End rg else e)
                = beforeEnd k (End rg) && beforeEnd k e).
  { destruct (beforeEnd (End rg) e) eqn:E.
    - destruct (beforeEnd k (End rg)) eqn:E1; [|done]. cbn [andb].
      rewrite (beforeEnd_nonempty _ _ Hrg) in E1. symmetry.
      by apply (beforeEnd_lt_trans _ (End rg)).
    - destruct (beforeEnd k e) eqn:E1; [|by rewrite andb_false_r].
      rewrite andb_true_r. symmetry.
      unfold beforeEnd in E, E1. apply orb_false_iff in E as [E E'].
      rewrite E', orb_false_r in E1.
      rewrite (beforeEnd_nonempty _ _ Hrg).
      apply (lt_le_trans _ e); [done|]. by rewrite le_not_gt, gt_lt, E. }
  transitivity ((bytes.ge k (Start rg) && bytes.ge k s)
                && (beforeEnd k (End rg) && beforeEnd k e)).
  { f_equal; [exact Hlo | exact Hhi]. }
  destruct (bytes.ge k (Start rg)), (bytes.ge k s), (beforeEnd k (End rg)),
    (beforeEnd k e); done.
Qed.

Lemma intersectRange_bounded_witness :
  in_range
    (intersectRange
       {| metapb.Id := 1; metapb.StartKey := codec.EncodeBytes (bs "b");
          metapb.EndKey := codec.EncodeBytes (bs "m"); metapb.Peers := [] |}
       {| Start := bs "a"; End := bs "k" |}) (bs "c")
  = in_range {| Start := bs "a"; End := bs "k" |} (bs "c")
    && in_range {| Start := bs "b"; End := bs "m" |} (bs "c").
Proof.
  apply (intersectRange_bounded _ (bs "b") (bs "m")
           {| Start := bs "a"; End := bs "k" |} (bs "c")); done.
Defined.

(** X8.  A range with no end key keeps no end key: the end of the
    region is not taken over, so every key from the start of the
    result on lies in the result, also keys past the region's end. *)
Theorem intersectRange_unbounded (region : metapb.Region) (rg : Range) (k : key) :
  End rg = [] ->
  End (intersectRange region rg) = []
  /\ in_range (intersectRange region rg) k
     = bytes.ge k (Start (intersectRange region rg)).
Proof.
  intros Hrg.
  assert (H : End (intersectRange region rg) = []).
  { unfold intersectRange. cbn [End]. by rewrite Hrg, beforeEnd_nil_l. }
  split; [done|]. unfold in_range. rewrite H. unfold beforeEnd. cbn [is_empty].
  by rewrite orb_true_r, andb_true_r.
Qed.

Lemma intersectRange_unbounded_witness :
  End (intersectRange
         {| metapb.Id := 1; metapb.StartKey := codec.EncodeBytes (bs "b");
            metapb.EndKey := codec.EncodeBytes (bs "m"); metapb.Peers := [] |}
         {| Start := bs "a"; End := [] |}) = []
  /\ in_range
       (intersectRange
          {| metapb.Id := 1; metapb.StartKey := codec.EncodeBytes (bs "b");
             metapb.EndKey := codec.EncodeBytes (bs "m"); metapb.Peers := [] |}
          {| Start := bs "a"; End := [] |}) (bs "x")
     = bytes.ge (bs "x")
         (Start (intersectRange
            {| metapb.Id := 1; metapb.StartKey := codec.EncodeBytes (bs "b");
               metapb.EndKey := codec.EncodeBytes (bs "m"); metapb.Peers := [] |}
            {| Start := bs "a"; End := [] |})).
Proof.
  apply (intersectRange_unbounded
           {| metapb.Id := 1; metapb.StartKey := codec.EncodeBytes (bs "b");
              metapb.EndKey := codec.EncodeBytes (bs "m"); metapb.Peers := [] |}
           {| Start := bs "a"; End := [] |} (bs "x")).
  reflexivity.
Defined.

Lemma NeedSplit_scan_nil regions : NeedSplit_scan [] regions = None.
Proof.
  induction regions as [|r regions IH]; cbn [NeedSplit_scan]; [done|].
  destruct (bytes.Equal [] (rStart r)); [done|].
  unfold ContainsInterior, bytes.gt. by destruct (rStart r).
Qed.

Lemma Equal_EncodeBytes_bound k s :
  k <> [] -> bytes.Equal (codec.EncodeBytes k) (encode_bound s) = bytes.Equal k s.
Proof.
  intros Hk. unfold encode_bound. destruct s as [|b s]; cbn [is_empty].
  - destruct k; [done|]. destruct (codec.EncodeBytes _) eqn:E; [|done].
    by apply EncodeBytes_nonempty in E.
  - destruct (bytes.Equal k (b :: s)) eqn:E.
    + apply Equal_true in E. subst. by apply Equal_true.
    + apply Equal_false. apply Equal_false in E. by intros ?%EncodeBytes_inj.
Qed.

Lemma EncodeBytes_gt_nil k : bytes.gt (codec.EncodeBytes k) [] = true.
Proof.
  destruct (codec.EncodeBytes k) eqn:E; [|done]. by apply EncodeBytes_nonempty in E.
Qed.

Lemma ContainsInterior_stored r k :
  k <> [] ->
  ContainsInterior (stored r) (codec.EncodeBytes k) = ContainsInterior r k.
Proof.
  intros Hk. unfold ContainsInterior.
  change (rStart (stored r)) with (encode_bound (rStart r)).
  change (rEnd (stored r)) with (encode_bound (rEnd r)).
  unfold encode_bound. f_equal.
  - destruct (rStart r) as [|b s]; cbn [is_empty].
    + rewrite EncodeBytes_gt_nil. by destruct k.
    + unfold bytes.gt. by rewrite Compare_EncodeBytes.
  - destruct (rEnd r) as [|b e]; cbn [is_empty]; [done|].
    destruct (codec.EncodeBytes (b :: e)) eqn:E.
    { by apply EncodeBytes_nonempty in E. }
    cbn [is_empty orb]. rewrite <- E. unfold bytes.lt.
    by rewrite Compare_EncodeBytes.
Qed.

(** X9.  Encoding is transparent to the planner.  On a cluster that
    keeps its region boundaries encoded (an empty boundary stays
    empty), [NeedSplit] answers for a raw key what the plain comparison
    of that key with the raw boundaries gives: the same region, or no
    region. *)
Theorem NeedSplit_stored (splitKey : key) (regions : list RegionInfo) :
  NeedSplit splitKey (map stored regions)
  = stored <$> NeedSplit_scan splitKey regions.
Proof.
  unfold NeedSplit. destruct splitKey as [|b k].
  { cbn [is_empty]. by rewrite NeedSplit_scan_nil. }
  cbn [is_empty].
  induction regions as [|r regions IH]; cbn [map NeedSplit_scan]; [done|].
  change (rStart (stored r)) with (encode_bound (rStart r)).
  rewrite Equal_EncodeBytes_bound, ContainsInterior_stored by done.
  destruct (bytes.Equal (b :: k) (rStart r)); [done|].
  by destruct (ContainsInterior r (b :: k)).
Qed.

(** X10.  A region list accepted for an interval is accepted for every
    interval inside it: the start key may move up and the end key
    down. *)
Theorem checkRegionConsistency_narrow (startKey endKey startKey' endKey' : key)
    (regions : list RegionInfo) :
  checkRegionConsistency startKey endKey regions = None ->
  bytes.le startKey startKey' = true -> bytes.le endKey' endKey = true ->
  checkRegionConsistency startKey' endKey' regions = None.
Proof.
  intros H Hs He.
  apply (proj1 (checkRegionConsistency_spec _ _ _)) in H.
  apply (proj1 (checkRegionConsistency_spec _ _ _)).
  destruct H as (Hne & Hfirst & Hlast & Hadj). split_and!; [done| | |done].
  - intros first Hf. by apply (le_trans _ startKey), Hs; apply Hfirst.
  - intros lastRegion Hl. destruct (Hlast _ Hl) as [?|Hge]; [by left|right].
    rewrite ge_le in *. by apply (le_trans _ endKey).
Qed.

End RangeFacts.

Lemma checkRegionConsistency_narrow_witness :
  checkRegionConsistency (collab := Examples.collaborators)
    (codec.EncodeBytes (bs "b")) (codec.EncodeBytes (bs "y"))
    Examples.sorted_topology = None.
Proof.
  apply (checkRegionConsistency_narrow (collab := Examples.collaborators)
           (codec.EncodeBytes (bs "a")) (codec.EncodeBytes (bs "z"))); reflexivity.
Defined.

(** ** The wait loops *)

Section WaitFacts.
Import bytes_facts bytes_order.
Context {W : Type} {client : SplitClient W} {runtime : Runtime W}
  {collab : Collaborators}.

Lemma total_sleep_app d1 d2 : total_sleep (d1 ++ d2) = total_sleep d1 + total_sleep d2.
Proof.
  induction d1 as [|e d1 IH]; [done|]. cbn [app total_sleep foldr] in *.
  fold (total_sleep (d1 ++ d2)). fold (total_sleep d1). destruct e; lia.
Qed.

Lemma count_events_app f d1 d2 :
  count_events f (d1 ++ d2) = (count_events f d1 + count_events f d2)%nat.
Proof. unfold count_events. by rewrite List.filter_app, length_app. Qed.

Lemma double_capped_range interval cap :
  0 <= interval -> 0 <= cap -> 0 <= double_capped interval cap <= cap.
Proof. intros. unfold double_capped. destruct (2 * interval >? cap) eqn:E; lia. Qed.

Lemma wait_budget_nonneg n interval cap :
  0 <= interval -> 0 <= cap -> 0 <= wait_budget n interval cap.
Proof.
  revert interval. induction n as [|n IH]; intros interval Hi Hc; cbn [wait_budget]; [lia|].
  pose proof (double_capped_range interval cap Hi Hc).
  pose proof (IH (double_capped interval cap)). lia.
Qed.

Lemma hasRegion_polls regionID :
  delivers (hasRegion regionID)
    (fun _ d => exists res, d = [EvGetRegionByID regionID res]).
Proof.
  unfold hasRegion. eapply delivers_bind; [apply delivers_rpc|].
  intros [regionInfo [e|]] d1 ->; apply delivers_ret; rewrite app_nil_r; eauto.
Qed.

Lemma waitForSplit_loop_bounded n interval regionID :
  0 <= interval ->
  delivers (waitForSplit_loop n interval regionID)
    (fun _ d =>
       (count_events is_get_region d <= n)%nat
       /\ 0 <= total_sleep d <= wait_budget n interval SplitMaxCheckInterval
       /\ Forall (polls_region regionID) d).
Proof.
  revert interval. induction n as [|n IH]; intros interval Hi; cbn [waitForSplit_loop].
  { apply delivers_ret. cbn. split_and!; [lia|lia|lia|apply Forall_nil_2]. }
  pose proof (double_capped_range interval SplitMaxCheckInterval Hi
                ltac:(done)) as Hd.
  pose proof (wait_budget_nonneg n (double_capped interval SplitMaxCheckInterval)
                SplitMaxCheckInterval ltac:(lia) ltac:(done)) as Hb.
  eapply delivers_bind; [apply hasRegion_polls|].
  intros [ok err] d1 [res ->]. cbn [wait_budget].
  destruct err as [e|]; [|destruct ok].
  - eapply delivers_weaken; [apply delivers_log|]. intros [] d2 ->.
    cbn. split_and!; [lia|lia|lia|]. by repeat constructor.
  - apply delivers_ret. cbn. split_and!; [lia|lia|lia|]. by repeat constructor.
  - eapply delivers_bind; [apply delivers_sleep|]. intros [] d2 ->.
    eapply delivers_weaken; [apply (IH _ (proj1 Hd))|].
    intros [] d3 (Hc & Hs & Hp).
    rewrite !count_events_app, !total_sleep_app. cbn. split_and!; [lia|lia|lia|].
    by repeat constructor.
Qed.

Lemma waitForSplit_polls (regionID : N) (st : State W) :
  exists st' delta,
    waitForSplit regionID st = Done tt st'
    /\ trace st' = trace st ++ delta
    /\ Forall (polls_region regionID) delta.
Proof.
  destruct (waitForSplit_loop_bounded SplitCheckMaxRetryTimes SplitCheckInterval
              regionID ltac:(done) st) as ([] & st' & delta & Hrun & Htr & _ & _ & Hp).
  exists st', delta. split_and!; [exact Hrun|exact Htr|exact Hp].
Qed.

(** X11.  [waitForSplit] always ends.  It asks for the region at most 64
    times and for nothing else, and it sleeps at most 59.008s in all:
    16ms, 32ms and so on doubling up to one second, then one second
    after each further poll. *)
Theorem waitForSplit_bounded (regionID : N) (st : State W) :
  exists st' delta,
    waitForSplit regionID st = Done tt st'
    /\ trace st' = trace st ++ delta
    /\ (count_events is_get_region delta <= 64)%nat
    /\ 0 <= total_sleep delta <= 59008 * time.Millisecond
    /\ Forall (polls_region regionID) delta.
Proof.
  destruct (waitForSplit_loop_bounded SplitCheckMaxRetryTimes SplitCheckInterval
              regionID ltac:(done) st) as ([] & st' & delta & Hrun & Htr & Hc & Hs & Hp).
  exists st', delta. split_and!; try done.
  - apply Hs.
  - etrans; [apply Hs|]. by vm_compute.
Qed.

Lemma isScatterRegionFinished_polls i regionID :
  delivers (isScatterRegionFinished i regionID)
    (fun _ d => count_events is_get_operator d = 1%nat
                /\ total_sleep d = 0
                /\ Forall (polls_operator regionID) d).
Proof.
  unfold isScatterRegionFinished. eapply delivers_bind; [apply delivers_rpc|].
  intros [resp [e|]] d1 ->.
  { apply delivers_ret. cbn. split_and!; [done|done|]. by repeat constructor. }
  destruct (pdpb.HeaderError resp) as [[]|];
    try (apply delivers_ret; cbn; split_and!; [done|done|]; by repeat constructor).
  eapply delivers_bind with (Q1 := fun _ d => d = [] \/ d = [EvLog InfoLevel "get operator"]).
  - destruct (3 <? i)%nat.
    + eapply delivers_weaken; [apply delivers_log|]. intros ? ? ->. by right.
    + apply delivers_ret. by left.
  - intros [] d2 [-> | ->]; apply delivers_ret; cbn; (split_and!; [done|done|]).
    + by repeat constructor.
    + apply Forall_cons_2; [done|]. apply Forall_cons_2; [by left|done].
Qed.

Lemma waitForScatterRegion_loop_bounded n i interval regionInfo :
  0 <= interval ->
  delivers (waitForScatterRegion_loop n i interval regionInfo)
    (fun _ d =>
       (count_events is_get_operator d <= n)%nat
       /\ 0 <= total_sleep d <= wait_budget n interval ScatterMaxWaitInterval
       /\ Forall (polls_operator (rId regionInfo)) d).
Proof.
  revert i interval. induction n as [|n IH]; intros i interval Hi;
    cbn [waitForScatterRegion_loop].
  { apply delivers_ret. cbn. split_and!; [lia|lia|lia|apply Forall_nil_2]. }
  pose proof (double_capped_range interval ScatterMaxWaitInterval Hi
                ltac:(done)) as Hd.
  pose proof (wait_budget_nonneg n (double_capped interval ScatterMaxWaitInterval)
                ScatterMaxWaitInterval ltac:(lia) ltac:(done)) as Hb.
  eapply delivers_bind; [apply isScatterRegionFinished_polls|].
  intros [ok err] d1 (Hc1 & Hs1 & Hp1). cbn [wait_budget].
  destruct err as [e|]; [|destruct ok].
  - eapply delivers_weaken; [apply delivers_log|]. intros [] d2 ->.
    rewrite count_events_app, total_sleep_app, Hc1, Hs1. cbn.
    split_and!; [lia|lia|lia|]. apply Forall_app. split; [done|].
    apply Forall_cons_2; [by right|done].
  - apply delivers_ret. rewrite app_nil_r, Hc1, Hs1. split_and!; [lia|lia|lia|done].
  - eapply delivers_bind; [apply delivers_sleep|]. intros [] d2 ->.
    eapply delivers_weaken; [apply (IH _ _ (proj1 Hd))|].
    intros [] d3 (Hc & Hs & Hp).
    rewrite !count_events_app, !total_sleep_app, Hc1, Hs1. cbn.
    split_and!; [lia|lia|lia|].
    apply Forall_app. split; [done|]. apply Forall_cons_2; [done|done].
Qed.

Lemma waitForScatterRegion_polls (regionInfo : RegionInfo) (st : State W) :
  exists st' delta,
    waitForScatterRegion regionInfo st = Done tt st'
    /\ trace st' = trace st ++ delta
    /\ Forall (polls_operator (rId regionInfo)) delta.
Proof.
  destruct (waitForScatterRegion_loop_bounded ScatterWaitMaxRetryTimes 0
              ScatterWaitInterval regionInfo ltac:(done) st)
    as ([] & st' & delta & Hrun & Htr & _ & _ & Hp).
  exists st', delta. split_and!; [exact Hrun|exact Htr|exact Hp].
Qed.

(** X12.  [waitForScatterRegion] always ends.  It asks for the region's
    operator at most 64 times and for nothing else, and it sleeps at
    most 61.5s in all: 100ms, 200ms, 400ms, 800ms, then one second
    after each further poll. *)
Theorem waitForScatterRegion_bounded (regionInfo : RegionInfo) (st : State W) :
  exists st' delta,
    waitForScatterRegion regionInfo st = Done tt st'
    /\ trace st' = trace st ++ delta
    /\ (count_events is_get_operator delta <= 64)%nat
    /\ 0 <= total_sleep delta <= 61500 * time.Millisecond
    /\ Forall (polls_operator (rId regionInfo)) delta.
Proof.
  destruct (waitForScatterRegion_loop_bounded ScatterWaitMaxRetryTimes 0
              ScatterWaitInterval regionInfo ltac:(done) st)
    as ([] & st' & delta & Hrun & Htr & Hc & Hs & Hp).
  exists st', delta. split_and!; try done.
  - apply Hs.
  - etrans; [apply Hs|]. by vm_compute.
Qed.

End WaitFacts.

(** ** Scattering on a willing cluster *)

Section ScatterAccepted.
Import bytes_facts bytes_order.
Context {W : Type} {client : SplitClient W} {runtime : Runtime W}
  {collab : Collaborators}.

Lemma polls_region_quiet regionID d :
  Forall (polls_region regionID) d ->
  quiet d /\ count_unscattered d = 0%nat.
Proof.
  induction 1 as [|e d He _ [IHq IHc]]; [done|].
  change (e :: d) with ([e] ++ d).
  unfold count_unscattered in *. rewrite count_log_app, IHc.
  split; [apply quiet_app; [|done]|].
  - destruct e; try done; destruct He as [-> ->]; done.
  - destruct e; try done. by destruct He as [-> ->].
Qed.

Lemma scatter_one_accepted errs set region :
  scatter_accepted ->
  delivers (scatter_one (errs, set) region)
    (fun r d =>
       scatter_answers d = [(region, None)]
       /\ count_passes d = 0%nat /\ count_skipped d = 0%nat
       /\ count_unscattered d = 0%nat
       /\ r = (errs, delete (rId region) set)).
Proof.
  intros Hok st. unfold scatter_one.
  destruct (waitForSplit_polls (rId region) st) as (st1 & d1 & Hrun1 & Htr1 & Hp).
  destruct (polls_region_quiet _ _ Hp) as [(A1 & P1 & S1) U1].
  destruct (ScatterRegion region (world st1)) as [a w] eqn:Hrpc.
  assert (a = None) as -> by (by rewrite <- (Hok region (world st1)), Hrpc).
  eexists _, _, (d1 ++ [EvScatterRegion region None]). split_and!.
  - rewrite (bind_Done _ _ _ _ _ Hrun1). cbv beta.
    rewrite (bind_Done _ _ _ _ _ (rpc_run _ _ _ _ _ Hrpc)). cbv beta iota.
    unfold bind, ret. reflexivity.
  - cbn [trace]. by rewrite Htr1, app_assoc.
  - by rewrite scatter_answers_app, A1.
  - unfold count_passes in *. by rewrite count_log_app, P1.
  - unfold count_skipped in *. by rewrite count_log_app, S1.
  - unfold count_unscattered in *. by rewrite count_log_app, U1.
  - by destruct errs.
Qed.

Lemma scatter_each_accepted todo errs set :
  scatter_accepted ->
  delivers (scatter_each todo (errs, set))
    (fun r d =>
       scatter_answers d = map (fun region => (region, None)) todo
       /\ count_passes d = 0%nat /\ count_skipped d = 0%nat
       /\ count_unscattered d = 0%nat
       /\ fst r = errs).
Proof.
  intros Hok. revert errs set. induction todo as [|region rest IH]; intros errs set;
    cbn [scatter_each].
  { by apply delivers_ret. }
  eapply delivers_bind; [by apply scatter_one_accepted|].
  intros acc d1 (A1 & P1 & S1 & U1 & ->).
  eapply delivers_weaken; [apply IH|].
  intros r d2 (A2 & P2 & S2 & U2 & Hr).
  unfold count_passes, count_skipped, count_unscattered in *.
  rewrite scatter_answers_app, !count_log_app, A1, A2, P1, P2, S1, S2, U1, U2.
  done.
Qed.

Lemma index_regions_from_perm (m : gmap N RegionInfo) rs :
  NoDup (map rId rs) -> (forall r, r ∈ rs -> m !! rId r = None) ->
  map_to_list (foldl (fun set newRegion => <[rId newRegion := newRegion]> set) m rs)
  ≡ₚ map_to_list m ++ map (fun r => (rId r, r)) rs.
Proof.
  revert m. induction rs as [|r rs IH]; intros m Hnd Hfresh; cbn [foldl map].
  { by rewrite app_nil_r. }
  apply NoDup_cons in Hnd as [Hr Hnd].
  rewrite IH; [|done|].
  - rewrite map_to_list_insert by (apply Hfresh; left).
    by rewrite <- Permutation_middle.
  - intros r' Hr'. rewrite lookup_insert_ne.
    + apply Hfresh. by right.
    + intros Heq. apply Hr. rewrite Heq. apply list_elem_of_fmap. by exists r'.
Qed.

Lemma index_regions_perm rs :
  NoDup (map rId rs) -> map snd (map_to_list (index_regions rs)) ≡ₚ rs.
Proof.
  intros Hnd. unfold index_regions.
  rewrite index_regions_from_perm; [|done|by intros; apply lookup_empty].
  rewrite map_to_list_empty. cbn [app]. rewrite map_map. cbn [snd].
  by rewrite map_id.
Qed.

Lemma scatter_pass_accepted set :
  scatter_accepted ->
  delivers (scatter_pass set)
    (fun r d =>
       count_passes d = 1%nat
       /\ map fst (scatter_answers d) ≡ₚ map snd (map_to_list set)
       /\ Forall (fun ra => snd ra = None) (scatter_answers d)
       /\ count_skipped d = 0%nat /\ count_unscattered d = 0%nat
       /\ fst r = None).
Proof.
  intros Hok. unfold scatter_pass.
  eapply delivers_bind; [apply delivers_log|]. intros [] d1 ->.
  eapply delivers_bind; [apply delivers_get_world|]. intros w d2 ->.
  eapply delivers_weaken; [by apply scatter_each_accepted|].
  intros r d3 (A & P & S & U & Hr).
  change (scatter_answers ([EvLog InfoLevel "trying to scatter regions..."] ++ [] ++ d3))
    with (scatter_answers d3).
  unfold count_passes, count_skipped, count_unscattered in *.
  rewrite !count_log_app, P, S, U, A. split_and!; try done.
  - rewrite map_map. cbn [fst]. rewrite map_id.
    apply fmap_Permutation, map_range_perm.
  - apply Forall_fmap. by apply Forall_true.
Qed.

(** X13.  On a cluster that accepts every scatter request,
    [ScatterRegions] is done after one pass: every region id it was
    given receives exactly one request, which is accepted; nothing is
    skipped and no region is reported as left unscattered.  Regions
    that share an id count once; with distinct ids the requests are
    the regions given, each once. *)
Theorem ScatterRegions_all_accepted (fuel : nat) (newRegions : list RegionInfo)
    (st : State W) :
  scatter_accepted -> (1 <= fuel)%nat ->
  exists st' delta,
    ScatterRegions fuel newRegions st = Done tt st'
    /\ trace st' = trace st ++ delta
    /\ count_passes delta = 1%nat
    /\ map fst (scatter_answers delta)
       ≡ₚ map snd (map_to_list (index_regions newRegions))
    /\ Forall (fun ra => snd ra = None) (scatter_answers delta)
    /\ count_skipped delta = 0%nat
    /\ count_unscattered delta = 0%nat
    /\ (NoDup (map rId newRegions) ->
        map fst (scatter_answers delta) ≡ₚ newRegions).
Proof.
  intros Hok Hfuel. destruct fuel as [|fuel]; [lia|].
  assert (H : delivers (ScatterRegions (S fuel) newRegions)
    (fun _ d =>
       count_passes d = 1%nat
       /\ map fst (scatter_answers d)
          ≡ₚ map snd (map_to_list (index_regions newRegions))
       /\ Forall (fun ra => snd ra = None) (scatter_answers d)
       /\ count_skipped d = 0%nat /\ count_unscattered d = 0%nat)).
  { unfold ScatterRegions, ScatterRegionsWithBackoffer. cbn [WithRetry].
    change (Attempt {| exp_attempt := 7; baseBackoff := 100 * time.Millisecond |} >? 0)
      with true. cbv iota.
    eapply delivers_bind with (Q1 := fun r d =>
      fst (fst r) = None
      /\ count_passes d = 1%nat
      /\ map fst (scatter_answers d)
         ≡ₚ map snd (map_to_list (index_regions newRegions))
      /\ Forall (fun ra => snd ra = None) (scatter_answers d)
      /\ count_skipped d = 0%nat /\ count_unscattered d = 0%nat).
    - eapply delivers_bind; [by apply scatter_pass_accepted|].
      intros [errs set'] d1 (P & A & F & S & U & Herr). cbn [fst] in Herr. subst errs.
      apply delivers_ret. rewrite app_nil_r.
      split_and!; [reflexivity|exact P|exact A|exact F|exact S|exact U].
    - intros [[err b] set'] d1 (Herr & H). cbn [fst] in Herr. subst err.
      apply delivers_ret. rewrite app_nil_r. exact H. }
  destruct (H st) as ([] & st' & delta & Hrun & Htr & P & A & F & S & U).
  exists st', delta.
  split_and!; [exact Hrun|exact Htr|exact P|exact A|exact F|exact S|exact U|].
  intros Hnd. rewrite A. by apply index_regions_perm.
Qed.

End ScatterAccepted.

Lemma ScatterRegions_all_accepted_witness :
  exists st' delta,
    ScatterRegions (client := Examples.scripted Examples.whole_space)
      (runtime := Examples.wall_clock) (collab := Examples.collaborators)
      1 [Examples.region 2 "a" "m"; Examples.region 3 "m" "z"] Examples.start_state
    = Done tt st'
    /\ trace st' = trace Examples.start_state ++ delta
    /\ count_passes delta = 1%nat
    /\ map fst (scatter_answers delta)
       ≡ₚ [Examples.region 2 "a" "m"; Examples.region 3 "m" "z"].
Proof.
  destruct (ScatterRegions_all_accepted
              (client := Examples.scripted Examples.whole_space)
              (runtime := Examples.wall_clock) (collab := Examples.collaborators)
              1 [Examples.region 2 "a" "m"; Examples.region 3 "m" "z"]
              Examples.start_state)
    as (st' & delta & Hrun & Htr & P & _ & _ & _ & _ & Hnd).
  - intros region w. reflexivity.
  - lia.
  - exists st', delta. split_and!; [done|done|done|].
    apply Hnd. cbn [map]. apply NoDup_cons_2; [|apply NoDup_singleton].
    intros H. apply list_elem_of_singleton in H. discriminate H.
Defined.

(** ** Runs that end normally *)

Section Yields.
Context {W : Type}.

Lemma bind_Done_inv {A B} (m : M W A) (k : A -> M W B) st b st' :
  bind m k st = Done b st' ->
  exists a s1, m st = Done a s1 /\ k a s1 = Done b st'.
Proof. unfold bind. destruct (m st) as [a s1| |]; [eauto|done|done]. Qed.

Lemma bind_panicked {A B} (m : M W A) (k : A -> M W B) st :
  panicked (m st) = false ->
  (forall a s1, m st = Done a s1 -> panicked (k a s1) = false) ->
  panicked (bind m k st) = false.
Proof. unfold bind. destruct (m st) as [a s1| |]; [auto|done|done]. Qed.

Lemma yields_ret {A} (a : A) (Q : A -> list Event -> Prop) :
  Q a [] -> yields (W := W) (ret a) Q.
Proof. intros HQ st a' st' [= <- <-]. exists []. by rewrite app_nil_r. Qed.

Lemma yields_bind {A B} (m : M W A) (k : A -> M W B)
    (Q1 : A -> list Event -> Prop) (Q : B -> list Event -> Prop) :
  yields m Q1 ->
  (forall a d1, Q1 a d1 -> yields (k a) (fun b d2 => Q b (d1 ++ d2))) ->
  yields (bind m k) Q.
Proof.
  intros Hm Hk st b st' (a & s1 & Hrun & Hrun')%bind_Done_inv.
  destruct (Hm _ _ _ Hrun) as (d1 & Htr1 & HQ1).
  destruct (Hk a d1 HQ1 _ _ _ Hrun') as (d2 & Htr2 & HQ).
  exists (d1 ++ d2). by rewrite Htr2, Htr1, app_assoc.
Qed.

Lemma yields_weaken {A} (m : M W A) (Q Q' : A -> list Event -> Prop) :
  yields m Q -> (forall a d, Q a d -> Q' a d) -> yields m Q'.
Proof.
  intros Hm HQ st a st' Hrun. destruct (Hm _ _ _ Hrun) as (d & Htr & H).
  exists d. auto.
Qed.

Lemma delivers_yields {A} (m : M W A) (Q : A -> list Event -> Prop) :
  delivers m Q -> yields m Q.
Proof.
  intros Hm st a st' Hrun. destruct (Hm st) as (a' & s' & d & Hrun' & Htr & HQ).
  rewrite Hrun in Hrun'. injection Hrun' as <- <-. by exists d.
Qed.

Lemma yields_out_of_fuel {A} (Q : A -> list Event -> Prop) :
  yields (W := W) out_of_fuel Q.
Proof. by intros st a st'. Qed.

Lemma yields_panic {A} (Q : A -> list Event -> Prop) : yields (W := W) panic Q.
Proof. by intros st a st'. Qed.

End Yields.

Section ScanFacts.
Context {W : Type} {client : SplitClient W} {runtime : Runtime W}
  {collab : Collaborators}.

Lemma scan_pages_yields fuel endKey limit scanStartKey acc :
  yields (scan_pages fuel endKey limit scanStartKey acc)
    (fun r d =>
       d <> [] /\ Forall (is_scan endKey limit) d
       /\ chained limit scanStartKey (scan_calls d)
       /\ snd r = acc ++ pages (scan_calls d)
       /\ exists s batch, last (scan_calls d) = Some (s, (batch, fst r))).
Proof.
  revert scanStartKey acc. induction fuel as [|fuel IH]; intros scanStartKey acc;
    cbn [scan_pages]; [apply yields_out_of_fuel|].
  eapply yields_bind; [apply delivers_yields, delivers_rpc|].
  intros [batch err] d1 ->.
  assert (Hone : forall r : option error * list RegionInfo,
    r = (err, acc ++ match err with None => batch | Some _ => [] end) ->
    [EvScanRegions scanStartKey endKey limit (batch, err)] <> []
    /\ Forall (is_scan endKey limit)
         [EvScanRegions scanStartKey endKey limit (batch, err)]
    /\ chained limit scanStartKey
         (scan_calls [EvScanRegions scanStartKey endKey limit (batch, err)])
    /\ snd r = acc ++ pages
         (scan_calls [EvScanRegions scanStartKey endKey limit (batch, err)])
    /\ exists s b,
         last (scan_calls [EvScanRegions scanStartKey endKey limit (batch, err)])
         = Some (s, (b, fst r))).
  { intros r ->. split_and!.
    - done.
    - apply Forall_cons_2; [by split|apply Forall_nil_2].
    - cbn. by split.
    - cbn. destruct err; cbn; rewrite ?app_nil_r; reflexivity.
    - by eexists _, _. }
  destruct err as [e|].
  { apply yields_ret. rewrite app_nil_r. apply Hone. by rewrite app_nil_r. }
  destruct (Z.of_nat (length batch) <? limit) eqn:Hlen.
  { apply yields_ret. rewrite app_nil_r. by apply Hone. }
  destruct (last batch) as [lastRegion|] eqn:Hlast; [|apply yields_panic].
  destruct (is_empty (rEnd lastRegion)
            || negb (is_empty endKey) && bytes.ge (rEnd lastRegion) endKey).
  { apply yields_ret. rewrite app_nil_r. by apply Hone. }
  eapply yields_weaken; [apply IH|].
  intros [err regions] d2 (Hne & Hall & Hch & Hreg & s & b & Hl). cbn [fst snd] in *.
  assert (Hcalls : scan_calls d2 <> []).
  { intros H. by rewrite H in Hl. }
  split_and!.
  - done.
  - apply Forall_cons_2; [by split|done].
  - cbn. split; [done|]. intros _. split_and!; [done|by apply Z.ltb_ge|].
    by exists lastRegion.
  - rewrite Hreg. cbn. by rewrite <- app_assoc.
  - exists s, b.
    change (last ((scanStartKey, (batch, None)) :: scan_calls d2)
            = Some (s, (b, err))).
    by rewrite last_cons, Hl.
Qed.

End ScanFacts.

(** ** The topology scan, continued *)

Section ScanFacts2.
Import bytes_facts bytes_order.
Context {W : Type} {client : SplitClient W} {runtime : Runtime W}
  {collab : Collaborators}.

Lemma count_sleeps_app d1 d2 :
  count_sleeps (d1 ++ d2) = (count_sleeps d1 + count_sleeps d2)%nat.
Proof. apply count_events_app. Qed.

Lemma is_scan_silent endKey limit d :
  Forall (is_scan endKey limit) d ->
  count_scan_retries d = 0%nat /\ count_sleeps d = 0%nat /\ total_sleep d = 0.
Proof.
  induction 1 as [|e d He _ (IH1 & IH2 & IH3)]; [done|].
  destruct e; try done.
Qed.

(** X14.  The pages of one scan attempt follow one another: every call
    is a [ScanRegions] call with the same end key and limit, the first
    from the start key, each next one from the end key of the last
    region of the page before, which was full; the regions handed out
    are the pages in order, after what had been gathered before; and
    the attempt's error is the error of the last call. *)
Theorem scan_pages_chain (fuel : nat) (endKey : key) (limit : Z)
    (scanStartKey : key) (acc : list RegionInfo) (st st' : State W)
    (err : option error) (regions : list RegionInfo) :
  scan_pages fuel endKey limit scanStartKey acc st = Done (err, regions) st' ->
  exists delta,
    trace st' = trace st ++ delta
    /\ delta <> []
    /\ Forall (is_scan endKey limit) delta
    /\ chained limit scanStartKey (scan_calls delta)
    /\ regions = acc ++ pages (scan_calls delta)
    /\ exists s batch, last (scan_calls delta) = Some (s, (batch, err)).
Proof.
  intros Hrun.
  destruct (scan_pages_yields fuel endKey limit scanStartKey acc _ _ _ Hrun)
    as (delta & Htr & Hne & Hall & Hch & Hreg & Hlast).
  exists delta. split_and!; [exact Htr|exact Hne|exact Hall|exact Hch|exact Hreg|exact Hlast].
Qed.

Lemma scan_attempt_yields fuel startKey endKey limit l :
  yields (scan_attempt fuel startKey endKey limit l)
    (fun r d =>
       (fst r = None -> checkRegionConsistency startKey endKey (snd r) = None)
       /\ (count_scan_retries d <= 1)%nat
       /\ count_sleeps d = 0%nat /\ total_sleep d = 0).
Proof.
  unfold scan_attempt.
  eapply yields_bind; [apply scan_pages_yields|].
  intros [err regions] d1 (_ & Hall & _). apply is_scan_silent in Hall as (R1 & S1 & T1).
  assert (Hsilent : count_scan_retries (d1 ++ []) = 0%nat
                    /\ count_sleeps (d1 ++ []) = 0%nat /\ total_sleep (d1 ++ []) = 0).
  { by rewrite app_nil_r. }
  destruct err as [e|].
  { apply yields_ret. destruct Hsilent as (-> & -> & ->). split_and!; [done|lia|done|done]. }
  destruct (checkRegionConsistency startKey endKey regions) as [e|] eqn:Hcheck.
  - eapply yields_bind; [apply delivers_yields, delivers_log|]. intros [] d2 ->.
    apply yields_ret. rewrite app_nil_r.
    unfold count_scan_retries in *.
    rewrite count_log_app, count_sleeps_app, total_sleep_app, R1, S1, T1.
    split_and!; [done|cbn; lia|done|done].
  - apply yields_ret. destruct Hsilent as (-> & -> & ->). split_and!; [done|lia|done|done].
Qed.

Lemma WithRetry_scan_yields fuel fuel' startKey endKey limit
    (b : scanRegionBackoffer) l lastErr :
  attempt b <= 3 -> (0 < attempt b \/ lastErr <> None) ->
  yields (WithRetry fuel (scan_attempt fuel' startKey endKey limit) b l lastErr)
    (fun r d =>
       (fst (fst r) = None -> checkRegionConsistency startKey endKey (snd r) = None)
       /\ Z.of_nat (count_scan_retries d) <= Z.max 0 (attempt b)
       /\ Z.of_nat (count_sleeps d) <= Z.max 0 (attempt b)
       /\ 0 <= total_sleep d <= 500 * time.Millisecond * Z.max 0 (attempt b)).
Proof.
  revert b l lastErr. induction fuel as [|fuel IH]; intros b l lastErr Hb Hinit;
    cbn [WithRetry]; change (Attempt b) with (attempt b).
  - destruct (Z.gtb_spec (attempt b) 0) as [E|E]; [apply yields_out_of_fuel|].
    apply yields_ret. nil_counts. cbn [fst snd]. split_and!; [|lia|lia|lia|lia].
    intros ->. destruct Hinit; [exfalso; lia|done].
  - destruct (Z.gtb_spec (attempt b) 0) as [E|E].
    2: { apply yields_ret. nil_counts. cbn [fst snd]. split_and!; [|lia|lia|lia|lia].
         intros ->. destruct Hinit; [exfalso; lia|done]. }
    eapply yields_bind; [apply scan_attempt_yields|].
    intros [err regions] d1 (Hok & R1 & S1 & T1). cbn [fst snd] in *.
    destruct err as [e|].
    2: { apply yields_ret. rewrite app_nil_r, T1. cbn [fst snd].
         change time.Millisecond with 1000000.
         split_and!; [auto|lia|lia|lia|lia]. }
    cbn [NextBackoff scanRegionBackoffer_Backoffer].
    destruct (errors.Equal berrors.ErrPDBatchScanRegion (Some e)).
    + eapply yields_bind; [apply delivers_yields, delivers_sleep|]. intros [] d2 ->.
      assert (Hw : int_wrap (attempt b - 1) = attempt b - 1).
      { unfold int_wrap. rewrite Z.mod_small; lia. }
      eapply yields_weaken.
      { apply (IH {| attempt := int_wrap (attempt b - 1) |} regions (Some e)).
        - cbn. lia.
        - by right. }
      intros r d3 (Hok3 & R3 & S3 & T3). cbn [attempt] in *. rewrite Hw in *.
      unfold count_scan_retries in *.
      rewrite !count_log_app, !count_sleeps_app, !total_sleep_app, T1.
      change (count_log WarnLevel "failed to scan region, retrying"
                [EvSleep (500 * time.Millisecond)]) with 0%nat.
      change (count_sleeps [EvSleep (500 * time.Millisecond)]) with 1%nat.
      change (total_sleep [EvSleep (500 * time.Millisecond)])
        with (500 * time.Millisecond).
      change time.Millisecond with 1000000 in *.
      split_and!; [done|lia|lia|lia|lia].
    + eapply yields_bind; [apply delivers_yields, delivers_sleep|]. intros [] d2 ->.
      eapply yields_weaken.
      { apply (IH {| attempt := 0 |} regions (Some e)); [cbn; lia|by right]. }
      intros r d3 (Hok3 & R3 & S3 & T3). cbn [attempt] in *.
      unfold count_scan_retries in *.
      rewrite !count_log_app, !count_sleeps_app, !total_sleep_app, T1.
      change (count_log WarnLevel "failed to scan region, retrying" [EvSleep 0])
        with 0%nat.
      change (count_sleeps [EvSleep 0]) with 1%nat.
      change (total_sleep [EvSleep 0]) with 0.
      change time.Millisecond with 1000000 in *.
      split_and!; [done|lia|lia|lia|lia].
Qed.

Lemma PaginateScanRegion_yields fuel startKey endKey limit :
  yields (PaginateScanRegion fuel startKey endKey limit)
    (fun r d =>
       (snd r = None ->
        checkRegionConsistency startKey endKey (fst r) = None
        /\ (endKey = [] \/ bytes.lt startKey endKey = true))
       /\ (count_scan_retries d <= 3)%nat
       /\ (count_sleeps d <= 3)%nat
       /\ 0 <= total_sleep d <= 1500 * time.Millisecond).
Proof.
  unfold PaginateScanRegion.
  destruct (negb (is_empty endKey) && bytes.ge startKey endKey) eqn:Hrange.
  { apply yields_ret. nil_counts. cbn [fst snd]. split_and!; [done|lia|lia|lia|lia]. }
  eapply yields_bind.
  { apply (WithRetry_scan_yields fuel fuel startKey endKey limit
             newScanRegionBackoffer [] None); cbn; [lia|left; lia]. }
  intros [[err b] regions] d1 (Hok & R & S & T). cbn [fst snd attempt newScanRegionBackoffer] in *.
  apply yields_ret. rewrite app_nil_r. cbn [fst snd].
  change time.Millisecond with 1000000 in *.
  split_and!; [|lia|lia|lia|lia].
  intros ->. split; [auto|].
  destruct endKey as [|c endKey']; [by left|right].
  cbn in Hrange. by rewrite lt_not_ge, Hrange.
Qed.

End ScanFacts2.

Section ScanTheorems.
Import bytes_facts bytes_order.
Context {W : Type} {client : SplitClient W} {runtime : Runtime W}
  {collab : Collaborators}.

(** X15.  What [PaginateScanRegion] returns without an error has passed
    the consistency check: the regions tile the interval asked for,
    which is unbounded or has its start key before its end key. *)
Theorem PaginateScanRegion_consistent (fuel : nat) (startKey endKey : key)
    (limit : Z) (st st' : State W) (regions : list RegionInfo) :
  PaginateScanRegion fuel startKey endKey limit st = Done (regions, None) st' ->
  tiles_interval startKey endKey regions
  /\ (endKey = [] \/ bytes.lt startKey endKey = true).
Proof.
  intros Hrun.
  destruct (PaginateScanRegion_yields fuel startKey endKey limit _ _ _ Hrun)
    as (d & _ & Hok & _).
  destruct (Hok eq_refl) as [Hcheck Hrange]. split; [|exact Hrange].
  by apply (proj1 (checkRegionConsistency_spec _ _ _)).
Qed.

(** X16.  [PaginateScanRegion] backs off at most three times and sleeps
    at most 1.5s in all, whatever the cluster answers; the warning
    about a rejected scan is logged at most three times. *)
Theorem PaginateScanRegion_bounded (fuel : nat) (startKey endKey : key)
    (limit : Z) (st st' : State W) (r : list RegionInfo * option error) :
  PaginateScanRegion fuel startKey endKey limit st = Done r st' ->
  exists delta,
    trace st' = trace st ++ delta
    /\ (count_scan_retries delta <= 3)%nat
    /\ (count_sleeps delta <= 3)%nat
    /\ 0 <= total_sleep delta <= 1500 * time.Millisecond.
Proof.
  intros Hrun.
  destruct (PaginateScanRegion_yields fuel startKey endKey limit _ _ _ Hrun)
    as (d & Htr & _ & R & S & T).
  exists d. split_and!; [exact Htr|exact R|exact S|apply T|apply T].
Qed.

Lemma scan_pages_no_panic fuel endKey limit scanStartKey acc (st : State W) :
  0 < limit ->
  panicked (scan_pages fuel endKey limit scanStartKey acc st) = false.
Proof.
  intros Hlimit. revert scanStartKey acc st.
  induction fuel as [|fuel IH]; intros scanStartKey acc st; [done|].
  cbn [scan_pages]. unfold bind at 1. unfold rpc.
  destruct (ScanRegions scanStartKey endKey limit (world st)) as [[batch err] w].
  destruct err as [e|]; [done|].
  destruct (Z.of_nat (length batch) <? limit) eqn:Hlen; [done|].
  destruct (last batch) as [lastRegion|] eqn:Hlast.
  - destruct (is_empty (rEnd lastRegion)
              || negb (is_empty endKey) && bytes.ge (rEnd lastRegion) endKey);
      [done|apply IH].
  - apply last_None in Hlast. subst batch. apply Z.ltb_ge in Hlen. cbn in Hlen. lia.
Qed.

Lemma scan_attempt_no_panic fuel startKey endKey limit l (st : State W) :
  0 < limit ->
  panicked (scan_attempt fuel startKey endKey limit l st) = false.
Proof.
  intros Hlimit. unfold scan_attempt.
  apply bind_panicked; [by apply scan_pages_no_panic|].
  intros [err regions] s1 _. destruct err as [e|]; [done|].
  by destruct (checkRegionConsistency startKey endKey regions).
Qed.

Lemma WithRetry_scan_no_panic fuel fuel' startKey endKey limit
    (b : scanRegionBackoffer) l lastErr (st : State W) :
  0 < limit ->
  panicked (WithRetry fuel (scan_attempt fuel' startKey endKey limit) b l lastErr st)
  = false.
Proof.
  intros Hlimit. revert b l lastErr st.
  induction fuel as [|fuel IH]; intros b l lastErr st; cbn [WithRetry].
  { by destruct (Attempt b >? 0). }
  destruct (Attempt b >? 0); [|done].
  apply bind_panicked; [by apply scan_attempt_no_panic|].
  intros [err regions] s1 _. destruct err as [e|]; [|done].
  destruct (NextBackoff b (Some e)) as [d b'].
  apply bind_panicked; [done|]. intros [] s2 _. apply IH.
Qed.

(** X17.  [PaginateScanRegion] reads the last region of a page that is
    not shorter than the limit.  With a limit above zero such a page is
    never empty and the function cannot panic, whatever the cluster
    answers; with a limit of zero or less an empty page makes it panic
    with an index out of range. *)
Theorem PaginateScanRegion_panics_only_without_limit (fuel : nat)
    (startKey endKey : key) (limit : Z) (st : State W) :
  (0 < limit ->
   panicked (PaginateScanRegion fuel startKey endKey limit st) = false)
  /\ (limit <= 0 -> endKey = [] \/ bytes.lt startKey endKey = true ->
      forall err w',
        ScanRegions startKey endKey limit (world st) = (([], err), w') ->
        err = None ->
        panicked (PaginateScanRegion (S fuel) startKey endKey limit st) = true).
Proof.
  split.
  - intros Hlimit. unfold PaginateScanRegion.
    destruct (negb (is_empty endKey) && bytes.ge startKey endKey); [done|].
    apply bind_panicked; [by apply WithRetry_scan_no_panic|].
    by intros [[err b] regions] s1 _.
  - intros Hlimit Hrange err w' Hscan ->. unfold PaginateScanRegion.
    assert (Hvalid : negb (is_empty endKey) && bytes.ge startKey endKey = false).
    { destruct Hrange as [->|Hlt]; [done|].
      by rewrite ge_not_lt, Hlt, andb_false_r. }
    rewrite Hvalid. cbn [WithRetry].
    change (Attempt newScanRegionBackoffer >? 0) with true. cbv iota.
    assert (Hpages : scan_pages (S fuel) endKey limit startKey [] st
                     = Panicked {| world := w';
                          trace := trace st
                            ++ [EvScanRegions startKey endKey limit ([], None)] |}).
    { cbn [scan_pages].
      rewrite (bind_Done _ _ _ _ _ (rpc_run _ _ _ _ _ Hscan)). cbv beta iota.
      cbn [length app last]. replace (Z.of_nat 0 <? limit) with false; [done|].
      symmetry. apply Z.ltb_ge. cbn. lia. }
    unfold scan_attempt.
    by rewrite !(bind_Panicked _ _ _ _ (bind_Panicked _ _ _ _
                   (bind_Panicked _ _ _ _ Hpages))).
Qed.

End ScanTheorems.

Lemma scan_pages_chain_witness :
  exists delta,
    delta <> []
    /\ Forall (is_scan (bs "e") 2) delta
    /\ chained 2 (bs "a") (scan_calls delta)
    /\ [Examples.region 1 "a" "b"; Examples.region 2 "b" "c";
        Examples.region 3 "c" "d"; Examples.region 4 "d" "e"]
       = [] ++ pages (scan_calls delta).
Proof.
  destruct (scan_pages_chain (client := Examples.scripted Examples.paged_scans)
              5 (bs "e") 2 (bs "a") [] Examples.start_state
              {| world := 0;
                 trace :=
                   [EvScanRegions (bs "a") (bs "e") 2
                      ([Examples.region 1 "a" "b"; Examples.region 2 "b" "c"], None);
                    EvScanRegions (bs "c") (bs "e") 2
                      ([Examples.region 3 "c" "d"; Examples.region 4 "d" "e"], None)] |}
              None
              [Examples.region 1 "a" "b"; Examples.region 2 "b" "c";
               Examples.region 3 "c" "d"; Examples.region 4 "d" "e"] eq_refl)
    as (delta & _ & Hne & Hall & Hch & Hreg & _).
  exists delta. split_and!; [exact Hne|exact Hall|exact Hch|exact Hreg].
Defined.

Lemma PaginateScanRegion_consistent_witness :
  tiles_interval (bs "a") (bs "e")
    [Examples.region 1 "a" "b"; Examples.region 2 "b" "c";
     Examples.region 3 "c" "d"; Examples.region 4 "d" "e"]
  /\ (bs "e" = [] \/ bytes.lt (bs "a") (bs "e") = true).
Proof.
  apply (PaginateScanRegion_consistent
           (client := Examples.scripted Examples.paged_scans)
           (runtime := Examples.wall_clock) (collab := Examples.collaborators)
           5 (bs "a") (bs "e") 2 Examples.start_state
           {| world := 0;
              trace :=
                [EvScanRegions (bs "a") (bs "e") 2
                   ([Examples.region 1 "a" "b"; Examples.region 2 "b" "c"], None);
                 EvScanRegions (bs "c") (bs "e") 2
                   ([Examples.region 3 "c" "d"; Examples.region 4 "d" "e"], None)] |}).
  reflexivity.
Defined.

Lemma PaginateScanRegion_bounded_witness :
  exists delta,
    concat (replicate 3
      [EvScanRegions (bs "a") (bs "m") 128 ([], None);
       EvLog WarnLevel "failed to scan region, retrying";
       EvSleep (500 * time.Millisecond)])
    = trace Examples.start_state ++ delta
    /\ (count_scan_retries delta <= 3)%nat
    /\ (count_sleeps delta <= 3)%nat
    /\ 0 <= total_sleep delta <= 1500 * time.Millisecond.
Proof.
  apply (PaginateScanRegion_bounded
           (client := Examples.scripted Examples.empty_scans)
           (runtime := Examples.wall_clock) (collab := Examples.collaborators)
           5 (bs "a") (bs "m") 128 Examples.start_state
           {| world := 1500 * time.Millisecond;
              trace := concat (replicate 3
                [EvScanRegions (bs "a") (bs "m") 128 ([], None);
                 EvLog WarnLevel "failed to scan region, retrying";
                 EvSleep (500 * time.Millisecond)]) |}
           ([], checkRegionConsistency (collab := Examples.collaborators)
                  (bs "a") (bs "m") [])).
  vm_compute. reflexivity.
Defined.

Lemma PaginateScanRegion_panics_only_without_limit_witness :
  panicked (PaginateScanRegion (client := Examples.scripted Examples.empty_scans)
              (runtime := Examples.wall_clock) (collab := Examples.collaborators)
              5 (bs "a") (bs "m") 128 Examples.start_state) = false
  /\ panicked (PaginateScanRegion (client := Examples.scripted Examples.empty_scans)
                 (runtime := Examples.wall_clock) (collab := Examples.collaborators)
                 5 (bs "a") (bs "m") 0 Examples.start_state) = true.
Proof.
  split.
  - apply (PaginateScanRegion_panics_only_without_limit
             (client := Examples.scripted Examples.empty_scans)
             5 (bs "a") (bs "m") 128 Examples.start_state). lia.
  - apply (proj2 (PaginateScanRegion_panics_only_without_limit
             (client := Examples.scripted Examples.empty_scans)
             (runtime := Examples.wall_clock) (collab := Examples.collaborators)
             4 (bs "a") (bs "m") 0 Examples.start_state) ltac:(lia)
             (or_intror eq_refl) None 0 eq_refl eq_refl).
Defined.

(** ** What [Split] does with its input and with the scan *)

Section SplitInput.
Import bytes_facts bytes_order.
Context {W : Type} {client : SplitClient W} {runtime : Runtime W}
  {collab : Collaborators}.

Lemma Split_resume_scan_error n fuel rewriteRules sortedRanges minKey maxKey vars
    (st st1 : State W) regions e :
  PaginateScanRegion fuel minKey maxKey ScanRegionPaginationLimit st
  = Done (regions, Some e) st1 ->
  errors.Equal berrors.ErrPDBatchScanRegion (Some e) = false ->
  Split_resume (S n) fuel rewriteRules sortedRanges minKey maxKey vars st
  = Done (Some e) st1.
Proof.
  intros Hscan Hcls. unfold Split_resume. cbn [SplitRegions_loop].
  rewrite bind_assoc, (bind_Done _ _ _ _ _ Hscan). cbv beta iota.
  rewrite Hcls. reflexivity.
Qed.

Lemma PaginateScanRegion_invalid fuel startKey endKey limit (st : State W) :
  endKey <> [] -> bytes.ge startKey endKey = true ->
  exists e,
    PaginateScanRegion fuel startKey endKey limit st = Done ([], Some e) st
    /\ errors.Equal berrors.ErrRestoreInvalidRange (Some e) = true
    /\ errors.Equal berrors.ErrPDBatchScanRegion (Some e) = false.
Proof.
  intros Hne Hge. unfold PaginateScanRegion.
  destruct endKey as [|c endKey']; [done|]. cbn [is_empty negb andb].
  rewrite Hge. eexists. split; [reflexivity|]. split; reflexivity.
Qed.

(** X18.  [Split] turns its input down before it touches the cluster.
    An error of the sort is handed back as it is.  When the start key
    of the first sorted range is not before the end key of the last
    one, which is so whenever that end key is empty (the encoded form
    of the empty key is the least encoded key), the result is the
    invalid-range error.  In both cases the state is left as it
    was. *)
Theorem Split_rejects_input (fuel : nat) (ranges : list rtree.Range)
    (rewriteRules : RewriteRules) (sortedRanges : list rtree.Range)
    (st : State W) :
  ranges <> [] ->
  (forall e, SortRanges ranges rewriteRules = (sortedRanges, Some e) ->
     Split fuel ranges rewriteRules st = Done (Some e) st)
  /\ (forall firstRange lastRange,
        SortRanges ranges rewriteRules = (sortedRanges, None) ->
        head sortedRanges = Some firstRange -> last sortedRanges = Some lastRange ->
        bytes.ge (rtree.StartKey firstRange) (rtree.EndKey lastRange) = true
        \/ rtree.EndKey lastRange = [] ->
        exists e,
          Split fuel ranges rewriteRules st = Done (Some e) st
          /\ errors.Equal berrors.ErrRestoreInvalidRange (Some e) = true).
Proof.
  intros Hne. split.
  - intros e Hsort. unfold Split. destruct ranges as [|rg ranges']; [done|].
    by rewrite Hsort.
  - intros firstRange lastRange Hsort Hfirst Hlast Hrange.
    assert (Hge : bytes.ge (codec.EncodeBytes (rtree.StartKey firstRange))
                    (codec.EncodeBytes (rtree.EndKey lastRange)) = true).
    { unfold bytes.ge. rewrite Compare_EncodeBytes.
      destruct Hrange as [H| ->]; [exact H|].
      by destruct (rtree.StartKey firstRange). }
    destruct (PaginateScanRegion_invalid fuel _ _ ScanRegionPaginationLimit st
                (EncodeBytes_nonempty _) Hge) as (e & Hscan & Hcls & Hcls').
    exists e. split; [|exact Hcls].
    rewrite (Split_starts_loop _ _ _ _ _ _ _ Hne Hsort Hfirst Hlast).
    change SplitRetryTimes with (S 31). generalize 31%nat. intros n.
    by apply Split_resume_scan_error with (regions := []).
Qed.

(** X19.  An error of the cluster's scan that is not of the
    inconsistent-scan class ends [Split] at once: after that one
    [ScanRegions] call, and the zero-length wait of the retry policy,
    the error is returned; nothing is split or scattered. *)
Theorem Split_scan_error (fuel : nat) (ranges : list rtree.Range)
    (rewriteRules : RewriteRules) (sortedRanges : list rtree.Range)
    (firstRange lastRange : rtree.Range) (st : State W)
    (batch : list RegionInfo) (e : error) (w' : W) :
  ranges <> [] ->
  SortRanges ranges rewriteRules = (sortedRanges, None) ->
  head sortedRanges = Some firstRange -> last sortedRanges = Some lastRange ->
  bytes.lt (rtree.StartKey firstRange) (rtree.EndKey lastRange) = true ->
  ScanRegions (codec.EncodeBytes (rtree.StartKey firstRange))
    (codec.EncodeBytes (rtree.EndKey lastRange)) ScanRegionPaginationLimit
    (world st) = ((batch, Some e), w') ->
  errors.Equal berrors.ErrPDBatchScanRegion (Some e) = false ->
  Split (S fuel) ranges rewriteRules st
  = Done (Some e)
      {| world := time_Sleep 0 w';
         trace := trace st
           ++ [EvScanRegions (codec.EncodeBytes (rtree.StartKey firstRange))
                 (codec.EncodeBytes (rtree.EndKey lastRange))
                 ScanRegionPaginationLimit (batch, Some e);
               EvSleep 0] |}.
Proof.
  intros Hne Hsort Hfirst Hlast Hrange Hscan Hcls.
  rewrite (Split_starts_loop _ _ _ _ _ _ _ Hne Hsort Hfirst Hlast).
  change SplitRetryTimes with (S 31). generalize 31%nat. intros n.
  apply Split_resume_scan_error with (regions := []); [|exact Hcls].
  unfold PaginateScanRegion.
  assert (Hvalid : negb (is_empty (codec.EncodeBytes (rtree.EndKey lastRange)))
                   && bytes.ge (codec.EncodeBytes (rtree.StartKey firstRange))
                        (codec.EncodeBytes (rtree.EndKey lastRange)) = false).
  { apply andb_false_iff. right. unfold bytes.ge. rewrite Compare_EncodeBytes.
    unfold bytes.lt in Hrange.
    by destruct (bytes.Compare (rtree.StartKey firstRange) (rtree.EndKey lastRange)). }
  rewrite Hvalid. cbn [WithRetry].
  change (Attempt newScanRegionBackoffer >? 0) with true. cbv iota.
  unfold scan_attempt. cbn [scan_pages].
  rewrite !bind_assoc, (bind_Done _ _ _ _ _ (rpc_run _ _ _ _ _ Hscan)).
  cbv beta iota. unfold errors.Trace.
  change (bind (ret ?a) ?k ?s) with (k a s). cbv beta iota.
  change (bind (ret ?a) ?k ?s) with (k a s). cbv beta iota.
  cbn [NextBackoff scanRegionBackoffer_Backoffer]. rewrite Hcls.
  rewrite !bind_assoc, (bind_Done _ _ _ _ _ (sleep_run _ _)). cbv beta.
  cbn [world trace]. rewrite <- app_assoc. cbn [app].
  destruct fuel; reflexivity.
Qed.

End SplitInput.

Lemma Split_rejects_input_witness :
  exists e,
    Split (client := Examples.scripted Examples.whole_space)
      (runtime := Examples.wall_clock) (collab := Examples.collaborators)
      7 [Examples.range "a" ""] Examples.no_rules Examples.start_state
    = Done (Some e) Examples.start_state
    /\ errors.Equal berrors.ErrRestoreInvalidRange (Some e) = true.
Proof.
  apply (proj2 (Split_rejects_input
           (client := Examples.scripted Examples.whole_space)
           (runtime := Examples.wall_clock) (collab := Examples.collaborators)
           7 [Examples.range "a" ""] Examples.no_rules [Examples.range "a" ""]
           Examples.start_state ltac:(done))
           (Examples.range "a" "") (Examples.range "a" "")
           eq_refl eq_refl eq_refl (or_intror eq_refl)).
Defined.

(** ** The split plan carried out *)

Section PlanFacts.
Context {W : Type} {client : SplitClient W} {runtime : Runtime W}
  {collab : Collaborators}.

Lemma NoDup_fmap_inj {A B : Type} (f : A -> B) (l : list A) x y :
  NoDup (map f l) -> x ∈ l -> y ∈ l -> f x = f y -> x = y.
Proof.
  induction l as [|a l IH]; [by intros _ ?%elem_of_nil|].
  cbn [map]. intros [Ha Hnd]%NoDup_cons Hx Hy Hf.
  apply elem_of_cons in Hx, Hy. destruct Hx as [->|Hx], Hy as [->|Hy].
  - done.
  - exfalso. apply Ha. rewrite Hf. apply list_elem_of_fmap. by exists y.
  - exfalso. apply Ha. rewrite <- Hf. apply list_elem_of_fmap. by exists x.
  - by apply IH.
Qed.

(** X20.  Every entry of the split plan can be carried out: it holds at
    least one key, and its region id is in the map [Split] builds from
    the scanned regions, under a region of that id.  When the scanned
    regions have distinct ids, that region, which is the one handed to
    the batch split, strictly contains every key of the entry. *)
Theorem getSplitKeys_regionMap (rewriteRules : RewriteRules)
    (ranges : list rtree.Range) (regions : list RegionInfo) (regionID : N)
    (keys : list key) :
  getSplitKeys rewriteRules ranges regions !! regionID = Some keys ->
  keys <> []
  /\ exists region,
       index_regions regions !! regionID = Some region
       /\ region ∈ regions /\ rId region = regionID
       /\ (NoDup (map rId regions) ->
           Forall (fun k => strictly_inside k region) keys).
Proof.
  rewrite getSplitKeys_lookup.
  destruct (keys_for regionID regions (map rtree.EndKey ranges)) as [|k ks] eqn:E;
    [done|].
  intros [= <-]. split; [done|].
  assert (Hall : forall k', k' ∈ k :: ks ->
            exists r, NeedSplit k' regions = Some r /\ rId r = regionID).
  { intros k' Hk'. rewrite <- E in Hk'. unfold keys_for in Hk'.
    apply list_elem_of_filter in Hk' as [Hk' _].
    destruct (NeedSplit k' regions) as [r|]; [|done].
    injection Hk' as Hid. by exists r. }
  destruct (Hall k) as (r & Hneed & Hid); [left|].
  apply NeedSplit_Some in Hneed as (Hin & _).
  destruct (index_regions_is_Some regions r Hin) as [region Hregion].
  rewrite Hid in Hregion. exists region.
  destruct (index_regions_lookup _ _ _ Hregion) as [Hmem Hrid].
  split_and!; [done|done|done|].
  intros Hnd. apply Forall_forall. intros k' Hk'.
  destruct (Hall k' Hk') as (r' & Hneed' & Hid').
  apply NeedSplit_Some in Hneed' as (Hin' & Hinside & _).
  assert (r' = region) as <-; [|done].
  apply (NoDup_fmap_inj rId regions); [done|done|done|congruence].
Qed.

Lemma split_plan_panic fuel regionMap regionID keys rest vars (st : State W)
    region w' :
  regionMap !! regionID = Some region -> keys <> [] ->
  BatchSplitRegions region keys (world st) = (([], None), w') ->
  split_plan fuel regionMap ((regionID, keys) :: rest) vars st
  = Panicked
      {| world := w';
         trace := trace st
           ++ [EvLog InfoLevel "split regions";
               EvBatchSplitRegions region keys ([], None)] |}.
Proof.
  intros Hregion Hkeys Hsplit. cbn [split_plan]. rewrite Hregion.
  rewrite (bind_Done _ _ _ _ _ (log_run _ _ st)). cbv beta.
  apply bind_Panicked. unfold splitAndScatterRegions.
  destruct keys as [|k keys']; [done|].
  assert (Hrpc : rpc (BatchSplitRegions region (k :: keys'))
                   (EvBatchSplitRegions region (k :: keys'))
                   {| world := world st;
                      trace := trace st ++ [EvLog InfoLevel "split regions"] |}
                 = Done ([], None)
                     {| world := w';
                        trace := (trace st ++ [EvLog InfoLevel "split regions"])
                          ++ [EvBatchSplitRegions region (k :: keys') ([], None)] |}).
  { by apply rpc_run. }
  rewrite (bind_Done _ _ _ _ _ Hrpc). cbv beta iota. cbn [last].
  unfold panic. by rewrite <- app_assoc.
Qed.

(** X21.  [Split] relies on the cluster to answer a batch split with at
    least one region: when a split comes back with no region and no
    error, [Split] panics on reading the last new region. *)
Theorem Split_panics_on_empty_split (fuel n : nat) (ranges : list rtree.Range)
    (rewriteRules : RewriteRules) (sortedRanges : list rtree.Range)
    (minKey maxKey : key) (st0 st st1 st2 : State W) (vars vars1 : SplitVars)
    (regions : list RegionInfo) (pre rest : list (N * list key))
    (regionID : N) (keys : list key) (region : RegionInfo) (w' : W) :
  Split fuel ranges rewriteRules st0
    = Split_resume (S n) fuel rewriteRules sortedRanges minKey maxKey vars st ->
  PaginateScanRegion fuel minKey maxKey ScanRegionPaginationLimit st
    = Done (regions, None) st1 ->
  map_range (world st1) (getSplitKeys rewriteRules sortedRanges regions)
    = pre ++ (regionID, keys) :: rest ->
  split_plan fuel (index_regions regions) pre vars st1
    = Done (FallThrough, vars1) st2 ->
  index_regions regions !! regionID = Some region ->
  BatchSplitRegions region keys (world st2) = (([], None), w') ->
  Split fuel ranges rewriteRules st0
  = Panicked
      {| world := w';
         trace := trace st2
           ++ [EvLog InfoLevel "split regions";
               EvBatchSplitRegions region keys ([], None)] |}.
Proof.
  intros Hreach Hscan Hplan Hpre Hregion Hsplit.
  assert (Hkeys : keys <> []).
  { apply (plan_entry_ok (world st1) rewriteRules sortedRanges regions regionID).
    rewrite Hplan. apply elem_of_app. right. left. }
  rewrite Hreach. unfold Split_resume. cbn [SplitRegions_loop].
  rewrite bind_assoc, (bind_Done _ _ _ _ _ Hscan). cbv beta iota.
  rewrite bind_assoc, (bind_Done _ _ _ _ _ (get_world_run st1)). cbv beta.
  rewrite Hplan, bind_assoc.
  rewrite (bind_run_eq _ _ _ _ _ (split_plan_app _ _ _ _ _ _ _ _ Hpre)).
  apply bind_Panicked.
  by apply split_plan_panic.
Qed.

(** X22.  The error of a split that was retried stays behind in
    [errSplit].  When the next attempt scans a topology that needs no
    split, nothing overwrites it, and [Split] returns that old error
    right after the scan, although nothing failed in the attempt. *)
Theorem Split_returns_stale_error (fuel n : nat) (ranges : list rtree.Range)
    (rewriteRules : RewriteRules) (sortedRanges : list rtree.Range)
    (minKey maxKey : key) (st0 st st1 : State W) (vars : SplitVars)
    (regions : list RegionInfo) (e : error) :
  Split fuel ranges rewriteRules st0
    = Split_resume (S n) fuel rewriteRules sortedRanges minKey maxKey vars st ->
  errSplit vars = Some e ->
  PaginateScanRegion fuel minKey maxKey ScanRegionPaginationLimit st
    = Done (regions, None) st1 ->
  getSplitKeys rewriteRules sortedRanges regions = ∅ ->
  Split fuel ranges rewriteRules st0 = Done (Some e) st1.
Proof.
  intros Hreach Herr Hscan Hplan.
  rewrite Hreach. unfold Split_resume. cbn [SplitRegions_loop].
  rewrite bind_assoc, (bind_Done _ _ _ _ _ Hscan). cbv beta iota.
  rewrite bind_assoc, (bind_Done _ _ _ _ _ (get_world_run st1)). cbv beta.
  rewrite Hplan.
  assert (Hnil : map_range (world st1) (∅ : gmap N (list key)) = []).
  { apply Permutation_nil_r. rewrite (map_range_perm _ (world st1)).
    by rewrite map_to_list_empty. }
  rewrite Hnil. cbn [split_plan].
  change (bind (bind (ret ?a) ?k) ?k' ?s) with (bind (k a) k' s). cbv beta iota.
  change (bind (ret ?a) ?k ?s) with (k a s). cbv beta.
  unfold Split_finish. by rewrite Herr.
Qed.

End PlanFacts.

Lemma getSplitKeys_regionMap_witness :
  [bs "k"; bs "h"; bs "k"] <> []
  /\ exists region,
       index_regions Examples.sorted_topology !! 2%N = Some region
       /\ region ∈ Examples.sorted_topology /\ rId region = 2%N
       /\ (NoDup (map rId Examples.sorted_topology) ->
           Forall (fun k => strictly_inside k region) [bs "k"; bs "h"; bs "k"]).
Proof.
  apply (getSplitKeys_regionMap Examples.no_rules
           [Examples.range "a" "k"; Examples.range "k" "h"; Examples.range "h" "k";
            Examples.range "k" "g"; Examples.range "g" "b"]
           Examples.sorted_topology 2%N [bs "k"; bs "h"; bs "k"]).
  vm_compute. reflexivity.
Defined.

Lemma Split_scan_error_witness :
  Split (client := Examples.scripted Examples.scan_fails)
    (runtime := Examples.wall_clock) (collab := Examples.collaborators)
    1 [Examples.range "a" "m"] Examples.no_rules Examples.start_state
  = Done (Some (Examples.refusal "pd is not reachable"))
      {| world := 0;
         trace :=
           [EvScanRegions (codec.EncodeBytes (bs "a")) (codec.EncodeBytes (bs "m"))
              ScanRegionPaginationLimit
              ([], Some (Examples.refusal "pd is not reachable"));
            EvSleep 0] |}.
Proof.
  apply (Split_scan_error (client := Examples.scripted Examples.scan_fails)
           (runtime := Examples.wall_clock) (collab := Examples.collaborators)
           0 [Examples.range "a" "m"] Examples.no_rules [Examples.range "a" "m"]
           (Examples.range "a" "m") (Examples.range "a" "m") Examples.start_state
           [] (Examples.refusal "pd is not reachable") 0);
    [discriminate | reflexivity | reflexivity | reflexivity | reflexivity
    | reflexivity | reflexivity].
Defined.

Lemma Split_panics_on_empty_split_witness :
  Split (client := Examples.scripted Examples.whole_space)
    (runtime := Examples.wall_clock) (collab := Examples.collaborators)
    7 [Examples.range "a" "m"] Examples.no_rules Examples.start_state
  = Panicked
      {| world := 0;
         trace :=
           [EvScanRegions (codec.EncodeBytes (bs "a")) (codec.EncodeBytes (bs "m"))
              128 ([Examples.whole], None);
            EvLog InfoLevel "split regions";
            EvBatchSplitRegions Examples.whole [bs "m"] ([], None)] |}.
Proof.
  apply (Split_panics_on_empty_split
           (client := Examples.scripted Examples.whole_space)
           (runtime := Examples.wall_clock) (collab := Examples.collaborators)
           7 31 [Examples.range "a" "m"] Examples.no_rules [Examples.range "a" "m"]
           (codec.EncodeBytes (bs "a")) (codec.EncodeBytes (bs "m"))
           Examples.start_state Examples.start_state
           {| world := 0; trace := [Examples.scan_a_m] |}
           {| world := 0; trace := [Examples.scan_a_m] |}
           Examples.first_attempt Examples.first_attempt
           [Examples.whole] [] [] 1%N [bs "m"] Examples.whole 0);
    [ apply (Split_starts_loop (client := Examples.scripted _) 7
               [Examples.range "a" "m"] Examples.no_rules [Examples.range "a" "m"]
               (Examples.range "a" "m") (Examples.range "a" "m"));
        [discriminate | reflexivity | reflexivity | reflexivity]
    | vm_compute; reflexivity | vm_compute; reflexivity | reflexivity
    | reflexivity | reflexivity ].
Defined.

Lemma Split_returns_stale_error_witness :
  Split (client := Examples.split_by_others)
    (runtime := Examples.wall_clock) (collab := Examples.collaborators)
    7 [Examples.range "a" "m"] Examples.no_rules Examples.start_state
  = Done (Some (Examples.refusal "epoch not match"))
      {| world := 100 * time.Millisecond;
         trace :=
           [Examples.scan_a_m;
            EvLog InfoLevel "split regions";
            EvBatchSplitRegions Examples.whole [bs "m"]
              ([], Some (Examples.refusal "epoch not match"));
            EvSleep (100 * time.Millisecond);
            EvLog WarnLevel "split regions failed, retry";
            EvScanRegions (codec.EncodeBytes (bs "a")) (codec.EncodeBytes (bs "m"))
              128 (Examples.cut_at_m, None)] |}.
Proof.
  apply (Split_returns_stale_error
           (client := Examples.split_by_others)
           (runtime := Examples.wall_clock) (collab := Examples.collaborators)
           7 30 [Examples.range "a" "m"] Examples.no_rules [Examples.range "a" "m"]
           (codec.EncodeBytes (bs "a")) (codec.EncodeBytes (bs "m"))
           Examples.start_state
           {| world := 100 * time.Millisecond;
              trace :=
                [Examples.scan_a_m;
                 EvLog InfoLevel "split regions";
                 EvBatchSplitRegions Examples.whole [bs "m"]
                   ([], Some (Examples.refusal "epoch not match"));
                 EvSleep (100 * time.Millisecond);
                 EvLog WarnLevel "split regions failed, retry"] |}
           {| world := 100 * time.Millisecond;
              trace :=
                [Examples.scan_a_m;
                 EvLog InfoLevel "split regions";
                 EvBatchSplitRegions Examples.whole [bs "m"]
                   ([], Some (Examples.refusal "epoch not match"));
                 EvSleep (100 * time.Millisecond);
                 EvLog WarnLevel "split regions failed, retry";
                 EvScanRegions (codec.EncodeBytes (bs "a"))
                   (codec.EncodeBytes (bs "m")) 128 (Examples.cut_at_m, None)] |}
           {| interval := 100 * time.Millisecond; scatterRegions := [];
              errSplit := Some (Examples.refusal "epoch not match") |}
           Examples.cut_at_m (Examples.refusal "epoch not match")).
  - vm_compute. reflexivity.
  - reflexivity.
  - vm_compute. reflexivity.
  - vm_compute. reflexivity.
Defined.

(** ** The retry ceiling *)

Section GiveUp.
Import bytes_facts bytes_order.
Context {W : Type} {client : SplitClient W} {runtime : Runtime W}
  {collab : Collaborators}.

Lemma PaginateScanRegion_one_page fuel minKey maxKey regions (st : State W) :
  scans_answer minKey maxKey regions ->
  maxKey = [] \/ bytes.lt minKey maxKey = true ->
  Z.of_nat (length regions) < ScanRegionPaginationLimit ->
  checkRegionConsistency minKey maxKey regions = None ->
  exists w',
    PaginateScanRegion (S fuel) minKey maxKey ScanRegionPaginationLimit st
    = Done (regions, None)
        {| world := w';
           trace := trace st
             ++ [EvScanRegions minKey maxKey ScanRegionPaginationLimit
                   (regions, None)] |}.
Proof.
  intros Hscan Hrange Hlen Hcheck. destruct (Hscan (world st)) as [w' Hrpc].
  exists w'. unfold PaginateScanRegion.
  assert (Hvalid : negb (is_empty maxKey) && bytes.ge minKey maxKey = false).
  { destruct Hrange as [->|Hlt]; [done|].
    by rewrite ge_not_lt, Hlt, andb_false_r. }
  rewrite Hvalid. cbn [WithRetry].
  change (Attempt newScanRegionBackoffer >? 0) with true. cbv iota.
  assert (Hattempt :
    scan_attempt (S fuel) minKey maxKey ScanRegionPaginationLimit [] st
    = Done (None, regions)
        {| world := w';
           trace := trace st
             ++ [EvScanRegions minKey maxKey ScanRegionPaginationLimit
                   (regions, None)] |}).
  { unfold scan_attempt.
    rewrite (bind_Done _ _ _ _ _
      (scan_pages_short_page fuel _ _ _ [] _ _ _ Hrpc Hlen)).
    cbn [app]. by rewrite Hcheck. }
  rewrite !bind_assoc, (bind_Done _ _ _ _ _ Hattempt). reflexivity.
Qed.

Lemma SplitRegions_loop_gives_up n fuel rewriteRules sortedRanges minKey maxKey
    regions vars (st : State W) :
  scans_answer minKey maxKey regions ->
  maxKey = [] \/ bytes.lt minKey maxKey = true ->
  Z.of_nat (length regions) < ScanRegionPaginationLimit ->
  checkRegionConsistency minKey maxKey regions = None ->
  getSplitKeys rewriteRules sortedRanges regions <> ∅ ->
  splits_fail ->
  0 <= interval vars ->
  exists vars' st' delta,
    SplitRegions_loop n (S fuel) rewriteRules sortedRanges minKey maxKey vars st
    = Done (inr vars') st'
    /\ trace st' = trace st ++ delta
    /\ count_events is_scan_call delta = n
    /\ count_events is_split_call delta = n
    /\ count_events is_scatter_call delta = 0%nat
    /\ total_sleep delta = wait_budget n (interval vars) SplitMaxRetryInterval
    /\ (n = 0%nat -> vars' = vars)
    /\ (n <> 0%nat -> is_Some (errSplit vars')).
Proof.
  intros Hscan Hrange Hlen Hcheck Hplan Hfail.
  revert vars st. induction n as [|n IH]; intros vars st Hi.
  { exists vars, st, []. rewrite app_nil_r. by split_and!. }
  cbn [SplitRegions_loop].
  destruct (PaginateScanRegion_one_page fuel minKey maxKey regions st
              Hscan Hrange Hlen Hcheck) as [w1 Hpage].
  rewrite (bind_Done _ _ _ _ _ Hpage). cbv beta iota.
  rewrite (bind_Done _ _ _ _ _ (get_world_run _)). cbv beta. cbn [world].
  destruct (map_range w1 (getSplitKeys rewriteRules sortedRanges regions))
    as [|[regionID keys] rest] eqn:Hmap.
  { exfalso. apply Hplan. apply map_to_list_empty_iff.
    apply Permutation_nil_r. by rewrite <- (map_range_perm _ w1), Hmap. }
  destruct (plan_entry_ok w1 rewriteRules sortedRanges regions regionID keys)
    as [Hkeys [region Hregion]]; [rewrite Hmap; left|].
  destruct (Hfail region keys w1) as (newRegions & e & w2 & Hsplit & Hmsg).
  rewrite (bind_Done _ _ _ _ _
    (split_plan_retry (S fuel) _ regionID keys rest vars
       {| world := w1;
          trace := trace st
            ++ [EvScanRegions minKey maxKey ScanRegionPaginationLimit
                  (regions, None)] |}
       region newRegions e w2 Hregion Hkeys Hsplit Hmsg)).
  cbv beta iota.
  pose proof (double_capped_range (interval vars) SplitMaxRetryInterval Hi
                ltac:(done)) as Hd.
  destruct (IH {| interval := double_capped (interval vars) SplitMaxRetryInterval;
                  scatterRegions := scatterRegions vars;
                  errSplit := Some e |}
              {| world := time_Sleep
                            (double_capped (interval vars) SplitMaxRetryInterval) w2;
                 trace := (trace st
                   ++ [EvScanRegions minKey maxKey ScanRegionPaginationLimit
                         (regions, None)])
                   ++ [EvLog InfoLevel "split regions";
                       EvBatchSplitRegions region keys (newRegions, Some e);
                       EvSleep (double_capped (interval vars) SplitMaxRetryInterval);
                       EvLog WarnLevel "split regions failed, retry"] |}
              (proj1 Hd))
    as (vars' & st' & delta & Hrun & Htr & C1 & C2 & C3 & T & H0 & Hn).
  cbn [interval world trace] in *.
  exists vars', st',
    ([EvScanRegions minKey maxKey ScanRegionPaginationLimit (regions, None);
      EvLog InfoLevel "split regions";
      EvBatchSplitRegions region keys (newRegions, Some e);
      EvSleep (double_capped (interval vars) SplitMaxRetryInterval);
      EvLog WarnLevel "split regions failed, retry"] ++ delta).
  split_and!.
  - exact Hrun.
  - rewrite Htr, <- !app_assoc. reflexivity.
  - rewrite count_events_app, C1. reflexivity.
  - rewrite count_events_app, C2. reflexivity.
  - rewrite count_events_app, C3. reflexivity.
  - rewrite total_sleep_app, T. cbn [wait_budget]. cbn [total_sleep foldr]. lia.
  - done.
  - intros _. destruct n as [|n'].
    + rewrite (H0 eq_refl). by eexists.
    + by apply Hn.
Qed.

(** X23.  The retry ceiling of [Split].  On a cluster whose scans keep
    showing the same regions and which refuses every batch split for a
    reason other than "no valid key", [Split] gives up after 32
    attempts, each one scan and one split request, and returns a split
    error.  Between the attempts it sleeps 100ms, 200ms, 400ms, 800ms
    and then one second each time, 29.5s in all, and it asks for no
    scatter. *)
Theorem Split_gives_up_after_32 (fuel : nat) (ranges : list rtree.Range)
    (rewriteRules : RewriteRules) (sortedRanges : list rtree.Range)
    (firstRange lastRange : rtree.Range) (regions : list RegionInfo)
    (st : State W) :
  ranges <> [] ->
  SortRanges ranges rewriteRules = (sortedRanges, None) ->
  head sortedRanges = Some firstRange -> last sortedRanges = Some lastRange ->
  bytes.lt (rtree.StartKey firstRange) (rtree.EndKey lastRange) = true ->
  scans_answer (codec.EncodeBytes (rtree.StartKey firstRange))
    (codec.EncodeBytes (rtree.EndKey lastRange)) regions ->
  Z.of_nat (length regions) < ScanRegionPaginationLimit ->
  checkRegionConsistency (codec.EncodeBytes (rtree.StartKey firstRange))
    (codec.EncodeBytes (rtree.EndKey lastRange)) regions = None ->
  getSplitKeys rewriteRules sortedRanges regions <> ∅ ->
  splits_fail ->
  exists e st' delta,
    Split (S fuel) ranges rewriteRules st = Done (Some e) st'
    /\ trace st' = trace st ++ delta
    /\ count_events is_scan_call delta = 32%nat
    /\ count_events is_split_call delta = 32%nat
    /\ count_events is_scatter_call delta = 0%nat
    /\ total_sleep delta = 29500 * time.Millisecond.
Proof.
  intros Hne Hsort Hfirst Hlast Hlt Hscan Hlen Hcheck Hplan Hfail.
  assert (Hrange : codec.EncodeBytes (rtree.EndKey lastRange) = []
                   \/ bytes.lt (codec.EncodeBytes (rtree.StartKey firstRange))
                        (codec.EncodeBytes (rtree.EndKey lastRange)) = true).
  { right. unfold bytes.lt in *. by rewrite Compare_EncodeBytes. }
  destruct (SplitRegions_loop_gives_up SplitRetryTimes fuel rewriteRules
              sortedRanges _ _ regions
              {| interval := SplitRetryInterval; scatterRegions := [];
                 errSplit := None |} st
              Hscan Hrange Hlen Hcheck Hplan Hfail ltac:(done))
    as (vars' & st' & delta & Hrun & Htr & C1 & C2 & C3 & T & _ & Herr).
  destruct (Herr ltac:(done)) as [e He].
  exists e, st', delta. split_and!; [|exact Htr|exact C1|exact C2|exact C3|].
  - rewrite (Split_starts_loop _ _ _ _ _ _ _ Hne Hsort Hfirst Hlast).
    unfold Split_resume.
    rewrite (bind_Done _ _ _ _ _ Hrun). unfold Split_finish. by rewrite He.
  - rewrite T. vm_compute. reflexivity.
Qed.

End GiveUp.

Lemma Split_gives_up_after_32_witness :
  exists e st' delta,
    Split (client := Examples.scripted (Examples.refuses_split "epoch not match"))
      (runtime := Examples.wall_clock) (collab := Examples.collaborators)
      1 [Examples.range "a" "m"] Examples.no_rules Examples.start_state
    = Done (Some e) st'
    /\ trace st' = trace Examples.start_state ++ delta
    /\ count_events is_scan_call delta = 32%nat
    /\ count_events is_split_call delta = 32%nat
    /\ count_events is_scatter_call delta = 0%nat
    /\ total_sleep delta = 29500 * time.Millisecond.
Proof.
  apply (Split_gives_up_after_32
           (client := Examples.scripted (Examples.refuses_split "epoch not match"))
           (runtime := Examples.wall_clock) (collab := Examples.collaborators)
           0 [Examples.range "a" "m"] Examples.no_rules [Examples.range "a" "m"]
           (Examples.range "a" "m") (Examples.range "a" "m") [Examples.whole]
           Examples.start_state).
  - discriminate.
  - reflexivity.
  - reflexivity.
  - reflexivity.
  - reflexivity.
  - intros w. exists w. reflexivity.
  - reflexivity.
  - reflexivity.
  - vm_compute. discriminate.
  - intros region keys w. exists [], (Examples.refusal "epoch not match"), w.
    split; reflexivity.
Defined.

(** ** A topology that needs no split *)

Section Finish.
Import bytes_facts bytes_order.
Context {W : Type} {client : SplitClient W} {runtime : Runtime W}
  {collab : Collaborators}.

(** X24.  When the scan shows a topology that needs no split, [Split]
    is done after that one scan: it splits nothing, scatters nothing,
    waits for nothing and returns nil. *)
Theorem Split_nothing_to_do (fuel : nat) (ranges : list rtree.Range)
    (rewriteRules : RewriteRules) (sortedRanges : list rtree.Range)
    (firstRange lastRange : rtree.Range) (regions : list RegionInfo)
    (st st1 : State W) :
  ranges <> [] ->
  SortRanges ranges rewriteRules = (sortedRanges, None) ->
  head sortedRanges = Some firstRange -> last sortedRanges = Some lastRange ->
  PaginateScanRegion fuel (codec.EncodeBytes (rtree.StartKey firstRange))
    (codec.EncodeBytes (rtree.EndKey lastRange)) ScanRegionPaginationLimit st
  = Done (regions, None) st1 ->
  getSplitKeys rewriteRules sortedRanges regions = ∅ ->
  Split fuel ranges rewriteRules st
  = Done None
      {| world := world st1;
         trace := trace st1
           ++ [EvLog InfoLevel "start to wait for scattering regions";
               EvLog InfoLevel "waiting for scattering regions done"] |}.
Proof.
  intros Hne Hsort Hfirst Hlast Hscan Hplan.
  rewrite (Split_starts_loop _ _ _ _ _ _ _ Hne Hsort Hfirst Hlast).
  unfold Split_resume. change SplitRetryTimes with (S 31).
  generalize 31%nat. intros n. cbn [SplitRegions_loop].
  rewrite bind_assoc, (bind_Done _ _ _ _ _ Hscan). cbv beta iota.
  rewrite bind_assoc, (bind_Done _ _ _ _ _ (get_world_run st1)). cbv beta.
  rewrite Hplan.
  assert (Hnil : map_range (world st1) (∅ : gmap N (list key)) = []).
  { apply Permutation_nil_r. rewrite (map_range_perm _ (world st1)).
    by rewrite map_to_list_empty. }
  rewrite Hnil. cbn [split_plan].
  change (bind (bind (ret ?a) ?k) ?k' ?s) with (bind (k a) k' s). cbv beta iota.
  change (bind (ret ?a) ?k ?s) with (k a s). cbv beta.
  unfold Split_finish. cbn [errSplit scatterRegions wait_scattered].
  rewrite (bind_Done _ _ _ _ _ (log_run _ _ _)). cbv beta.
  rewrite (bind_Done _ _ _ _ _ (get_world_run _)). cbv beta.
  change (bind (ret ?a) ?k ?s) with (k a s). cbv beta.
  cbn [Nat.eqb length].
  rewrite (bind_Done _ _ _ _ _ (log_run _ _ _)). cbv beta.
  cbn [world trace ret]. by rewrite <- app_assoc.
Qed.

End Finish.

Lemma Split_nothing_to_do_witness :
  Split (client := Examples.split_by_others)
    (runtime := Examples.wall_clock) (collab := Examples.collaborators)
    7 [Examples.range "a" "m"] Examples.no_rules {| world := 1; trace := [] |}
  = Done None
      {| world := 1;
         trace :=
           [EvScanRegions (codec.EncodeBytes (bs "a")) (codec.EncodeBytes (bs "m"))
              128 (Examples.cut_at_m, None);
            EvLog InfoLevel "start to wait for scattering regions";
            EvLog InfoLevel "waiting for scattering regions done"] |}.
Proof.
  apply (Split_nothing_to_do (client := Examples.split_by_others)
           (runtime := Examples.wall_clock) (collab := Examples.collaborators)
           7 [Examples.range "a" "m"] Examples.no_rules [Examples.range "a" "m"]
           (Examples.range "a" "m") (Examples.range "a" "m") Examples.cut_at_m
           {| world := 1; trace := [] |}
           {| world := 1;
              trace :=
                [EvScanRegions (codec.EncodeBytes (bs "a"))
                   (codec.EncodeBytes (bs "m")) 128 (Examples.cut_at_m, None)] |}).
  - discriminate.
  - reflexivity.
  - reflexivity.
  - reflexivity.
  - vm_compute. reflexivity.
  - vm_compute. reflexivity.
Defined.

(** ** What ends a wait *)

Section Until.
Context {W : Type} {client : SplitClient W} {runtime : Runtime W}
  {collab : Collaborators}.

Lemma polled_until_more n verdicts sleeps warnings :
  polled_until n verdicts sleeps warnings ->
  polled_until (S n) (Pending :: verdicts) (S sleeps) warnings.
Proof.
  intros [(-> & -> & ->)|(k & v & Hk & Hv & -> & -> & ->)].
  - by left.
  - right. exists (S k), v. split_and!; [lia|done|done|done|done].
Qed.

Lemma polled_until_stop n v :
  v <> Pending ->
  polled_until (S n) [v] 0 (match v with Failed => 1%nat | _ => 0%nat end).
Proof. intros Hv. right. exists 0%nat, v. split_and!; [lia|done|done|done|done]. Qed.

Lemma hasRegion_verdict regionID :
  delivers (hasRegion regionID)
    (fun r d => exists res,
       d = [EvGetRegionByID regionID res]
       /\ match region_verdict res with
          | Settled => r = (true, None)
          | Pending => r = (false, None)
          | Failed => exists e, r = (false, Some e)
          end).
Proof.
  unfold hasRegion. eapply delivers_bind; [apply delivers_rpc|].
  intros [regionInfo [e|]] d1 ->; apply delivers_ret; rewrite app_nil_r;
    eexists; (split; [reflexivity|]); unfold region_verdict; cbn [fst snd].
  - by eexists.
  - by destruct regionInfo.
Qed.

Lemma waitForSplit_loop_until n interval regionID :
  delivers (waitForSplit_loop n interval regionID)
    (fun _ d =>
       polled_until n (region_verdicts d) (count_sleeps d) (count_warnings d)).
Proof.
  revert interval. induction n as [|n IH]; intros interval; cbn [waitForSplit_loop].
  { apply delivers_ret. by left. }
  eapply delivers_bind; [apply hasRegion_verdict|].
  intros [ok err] d1 (res & -> & Hv).
  destruct (region_verdict res) eqn:Hres.
  - injection Hv as -> ->. apply delivers_ret. cbn. rewrite Hres.
    by apply (polled_until_stop n Settled).
  - injection Hv as -> ->.
    eapply delivers_bind; [apply delivers_sleep|]. intros [] d2 ->.
    eapply delivers_weaken; [apply IH|]. intros [] d3 H.
    change (region_verdicts ([EvGetRegionByID regionID res] ++ [EvSleep _] ++ d3))
      with (region_verdict res :: region_verdicts d3).
    change (count_sleeps ([EvGetRegionByID regionID res] ++ [EvSleep ?x] ++ d3))
      with (S (count_sleeps d3)).
    change (count_warnings ([EvGetRegionByID regionID res] ++ [EvSleep ?x] ++ d3))
      with (count_warnings d3).
    rewrite Hres. by apply polled_until_more.
  - destruct Hv as [e [= -> ->]].
    eapply delivers_weaken; [apply delivers_log|]. intros [] d2 ->.
    cbn. rewrite Hres. by apply (polled_until_stop n Failed).
Qed.

(** X25.  [waitForSplit] polls the region until the first answer that
    settles the wait: it stops without a word as soon as the region is
    reported, it stops with one warning on the first error, and after
    every answer that shows no region yet it sleeps and asks again, 64
    times at most. *)
Theorem waitForSplit_until_visible (regionID : N) (st : State W) :
  exists st' delta,
    waitForSplit regionID st = Done tt st'
    /\ trace st' = trace st ++ delta
    /\ polled_until 64 (region_verdicts delta) (count_sleeps delta)
         (count_warnings delta).
Proof.
  destruct (waitForSplit_loop_until SplitCheckMaxRetryTimes SplitCheckInterval
              regionID st) as ([] & st' & delta & Hrun & Htr & H).
  exists st', delta. split_and!; [exact Hrun|exact Htr|exact H].
Qed.

Lemma isScatterRegionFinished_verdict i regionID :
  delivers (isScatterRegionFinished i regionID)
    (fun r d => exists res info,
       d = EvGetOperator regionID res :: info
       /\ (info = [] \/ info = [EvLog InfoLevel "get operator"])
       /\ match operator_verdict res with
          | Settled => r = (true, None)
          | Pending => r = (false, None)
          | Failed => exists e, r = (false, Some e)
          end).
Proof.
  unfold isScatterRegionFinished. eapply delivers_bind; [apply delivers_rpc|].
  intros [resp [e|]] d1 ->.
  { apply delivers_ret. rewrite app_nil_r. eexists _, []. split_and!; [done|by left|].
    unfold operator_verdict. cbn [fst snd]. by eexists. }
  destruct (pdpb.HeaderError resp) as [ty|] eqn:Hhdr.
  { assert (Hv : operator_verdict (resp, None)
                 = match ty with pdpb.REGION_NOT_FOUND => Settled | _ => Failed end).
    { unfold operator_verdict. cbn [fst snd]. rewrite Hhdr. by destruct ty. }
    destruct ty; apply delivers_ret; rewrite app_nil_r; eexists _, [];
      (split_and!; [done|by left|]); rewrite Hv; try done; by eexists. }
  eapply delivers_bind with
    (Q1 := fun _ d => d = [] \/ d = [EvLog InfoLevel "get operator"]).
  - destruct (3 <? i)%nat.
    + eapply delivers_weaken; [apply delivers_log|]. intros ? ? ->. by right.
    + apply delivers_ret. by left.
  - intros [] d2 Hd2. apply delivers_ret. rewrite app_nil_r.
    exists (resp, None), d2. split_and!; [done|done|].
    unfold operator_verdict. cbn [fst snd]. rewrite Hhdr.
    destruct (String.eqb (pdpb.Desc resp) "scatter-region");
      destruct (pdpb.Status resp); done.
Qed.

Lemma waitForScatterRegion_loop_until n i interval regionInfo :
  delivers (waitForScatterRegion_loop n i interval regionInfo)
    (fun _ d =>
       polled_until n (operator_verdicts d) (count_sleeps d) (count_warnings d)).
Proof.
  revert i interval. induction n as [|n IH]; intros i interval;
    cbn [waitForScatterRegion_loop].
  { apply delivers_ret. by left. }
  eapply delivers_bind; [apply isScatterRegionFinished_verdict|].
  intros [ok err] d1 (res & info & -> & Hinfo & Hv).
  assert (Hsilent : forall d,
    operator_verdicts ((EvGetOperator (rId regionInfo) res :: info) ++ d)
    = operator_verdict res :: operator_verdicts d
    /\ count_sleeps ((EvGetOperator (rId regionInfo) res :: info) ++ d)
       = count_sleeps d
    /\ count_warnings ((EvGetOperator (rId regionInfo) res :: info) ++ d)
       = count_warnings d).
  { intros d. by destruct Hinfo as [-> | ->]. }
  destruct (operator_verdict res) eqn:Hres.
  - injection Hv as -> ->. apply delivers_ret.
    destruct (Hsilent []) as (-> & -> & ->).
    by apply (polled_until_stop n Settled).
  - injection Hv as -> ->.
    eapply delivers_bind; [apply delivers_sleep|]. intros [] d2 ->.
    eapply delivers_weaken; [apply IH|]. intros [] d3 H.
    destruct (Hsilent ([EvSleep (double_capped interval ScatterMaxWaitInterval)]
                         ++ d3)) as (-> & -> & ->).
    by apply polled_until_more.
  - destruct Hv as [e [= -> ->]].
    eapply delivers_weaken; [apply delivers_log|]. intros [] d2 ->.
    destruct (Hsilent [EvLog WarnLevel
                         "scatter region failed: do not have the region"])
      as (-> & -> & ->).
    by apply (polled_until_stop n Failed).
Qed.

(** X26.  [waitForScatterRegion] polls the region's operator until the
    first answer that settles the wait.  The scatter counts as over
    when the region is reported as not found, or when the operator is
    not a running "scatter-region" operator; then the wait stops
    without a word.  It stops with one warning when the query fails or
    the answer carries another error.  After every answer that shows
    the scatter still running it sleeps and asks again, 64 times at
    most. *)
Theorem waitForScatterRegion_until_settled (regionInfo : RegionInfo)
    (st : State W) :
  exists st' delta,
    waitForScatterRegion regionInfo st = Done tt st'
    /\ trace st' = trace st ++ delta
    /\ polled_until 64 (operator_verdicts delta) (count_sleeps delta)
         (count_warnings delta).
Proof.
  destruct (waitForScatterRegion_loop_until ScatterWaitMaxRetryTimes 0
              ScatterWaitInterval regionInfo st)
    as ([] & st' & delta & Hrun & Htr & H).
  exists st', delta. split_and!; [exact Hrun|exact Htr|exact H].
Qed.

End Until.

(** ** The budget of the final wait *)

Section WaitBudget.
Context {W : Type} {client : SplitClient W} {runtime : Runtime W}
  {collab : Collaborators}.

Lemma isScatterRegionFinished_clock i regionID (st : State W) :
  clock_advances ->
  exists r st' d,
    isScatterRegionFinished i regionID st = Done r st'
    /\ trace st' = trace st ++ d
    /\ total_sleep d = 0
    /\ count_events is_get_operator d = 1%nat
    /\ time_Now (world st) <= time_Now (world st').
Proof.
  intros [_ Hrpc]. unfold isScatterRegionFinished.
  pose proof (Hrpc regionID (world st)) as Hclock.
  destruct (GetOperator regionID (world st)) as [[resp err] w1] eqn:Hcall.
  cbn [snd] in Hclock.
  rewrite (bind_Done _ _ _ _ _ (rpc_run _ _ _ _ _ Hcall)). cbv beta iota.
  destruct err as [e|].
  { eexists _, _, [_]. split_and!; [reflexivity|reflexivity|done|done|done]. }
  destruct (pdpb.HeaderError resp) as [[]|];
    try (eexists _, _, [_]; split_and!; [reflexivity|reflexivity|done|done|done]).
  destruct (3 <? i)%nat.
  - rewrite (bind_Done _ _ _ _ _ (log_run _ _ _)). cbv beta.
    eexists _, _, [_; _]. cbn [world trace].
    split_and!; [reflexivity|by rewrite <- app_assoc|done|done|done].
  - eexists _, _, [_]. split_and!; [reflexivity|reflexivity|done|done|done].
Qed.

Lemma waitForScatterRegion_loop_clock n i interval regionInfo (st : State W) :
  clock_advances -> 0 <= interval ->
  exists st' d,
    waitForScatterRegion_loop n i interval regionInfo st = Done tt st'
    /\ trace st' = trace st ++ d
    /\ 0 <= total_sleep d <= wait_budget n interval ScatterMaxWaitInterval
    /\ (count_events is_get_operator d <= n)%nat
    /\ count_events is_scan_call d = 0%nat
    /\ count_events is_split_call d = 0%nat
    /\ count_events is_scatter_call d = 0%nat
    /\ time_Now (world st) + total_sleep d <= time_Now (world st').
Proof.
  intros Hclock. revert i interval st.
  induction n as [|n IH]; intros i interval st Hi; cbn [waitForScatterRegion_loop].
  { exists st, []. rewrite app_nil_r. cbn. split_and!; try done; lia. }
  pose proof (double_capped_range interval ScatterMaxWaitInterval Hi
                ltac:(done)) as Hd.
  pose proof (wait_budget_nonneg n (double_capped interval ScatterMaxWaitInterval)
                ScatterMaxWaitInterval ltac:(lia) ltac:(done)) as Hb.
  destruct (isScatterRegionFinished_clock i (rId regionInfo) st Hclock)
    as ([ok err] & st1 & d1 & Hrun1 & Htr1 & T1 & C1 & Hnow1).
  assert (Hquiet1 : count_events is_scan_call d1 = 0%nat
                    /\ count_events is_split_call d1 = 0%nat
                    /\ count_events is_scatter_call d1 = 0%nat).
  { destruct (isScatterRegionFinished_polls i (rId regionInfo) st)
      as (r' & st1' & d1' & Hrun1' & Htr1' & _ & _ & Hp).
    rewrite Hrun1 in Hrun1'. injection Hrun1' as <- <-.
    rewrite Htr1 in Htr1'. apply app_inv_head in Htr1'. subst d1'.
    clear -Hp. induction Hp as [|e d He _ (I1 & I2 & I3)]; [done|].
    destruct e; try done. }
  destruct Hquiet1 as (Q1 & Q2 & Q3).
  rewrite (bind_Done _ _ _ _ _ Hrun1). cbv beta iota. cbn [wait_budget].
  destruct err as [e|]; [|destruct ok].
  - rewrite log_run. eexists _, (d1 ++ [_]). cbn [world trace].
    rewrite !count_events_app, total_sleep_app, T1, C1, Q1, Q2, Q3, Htr1.
    split_and!; [reflexivity|by rewrite <- app_assoc|cbn; lia|cbn; lia|
                 cbn; lia|done|done|done|cbn; lia].
  - exists st1, d1. rewrite T1, C1.
    split_and!; [reflexivity|done|lia|lia|lia|done|done|done|lia].
  - rewrite (bind_Done _ _ _ _ _ (sleep_run _ _)). cbv beta.
    destruct (IH (S i) (double_capped interval ScatterMaxWaitInterval)
                {| world := time_Sleep
                     (double_capped interval ScatterMaxWaitInterval) (world st1);
                   trace := trace st1
                     ++ [EvSleep (double_capped interval ScatterMaxWaitInterval)] |}
                (proj1 Hd))
      as (st' & d3 & Hrun3 & Htr3 & T3 & C3 & Q1' & Q2' & Q3' & Hnow3).
    cbn [world trace] in *.
    pose proof (proj1 Hclock (double_capped interval ScatterMaxWaitInterval)
                  (world st1) (proj1 Hd)) as Hsl.
    exists st', (d1 ++ [EvSleep (double_capped interval ScatterMaxWaitInterval)] ++ d3).
    rewrite !count_events_app, !total_sleep_app, T1, C1, Q1, Q2, Q3, Q1', Q2', Q3'.
    change (total_sleep [EvSleep ?x]) with (x + 0).
    split_and!; [exact Hrun3|by rewrite Htr3, Htr1, <- !app_assoc|lia|lia|
                 cbn; lia|done|done|done|lia].
Qed.

Lemma wait_scattered_clock startTime regions scatterCount (st : State W) :
  clock_advances ->
  time_Now (world st) - startTime <= ScatterWaitUpperInterval ->
  exists c st' d,
    wait_scattered startTime regions scatterCount st = Done c st'
    /\ trace st' = trace st ++ d
    /\ 0 <= total_sleep d
    /\ total_sleep d
       <= ScatterWaitUpperInterval - (time_Now (world st) - startTime)
          + 61500 * time.Millisecond
    /\ (count_events is_get_operator d <= 64 * length regions)%nat
    /\ count_events is_scan_call d = 0%nat
    /\ count_events is_split_call d = 0%nat
    /\ count_events is_scatter_call d = 0%nat.
Proof.
  intros Hclock. revert scatterCount st.
  induction regions as [|region rest IH]; intros scatterCount st Hel;
    cbn [wait_scattered].
  { exists scatterCount, st, []. rewrite app_nil_r.
    change (total_sleep []) with 0. change time.Millisecond with 1000000.
    split_and!; [done|done|lia|lia|done|done|done|done]. }
  destruct (waitForScatterRegion_loop_clock ScatterWaitMaxRetryTimes 0
              ScatterWaitInterval region st Hclock ltac:(done))
    as (st1 & d1 & Hrun1 & Htr1 & T1 & C1 & Q1 & Q2 & Q3 & Hnow1).
  assert (Hb : wait_budget ScatterWaitMaxRetryTimes ScatterWaitInterval
                 ScatterMaxWaitInterval = 61500 * time.Millisecond)
    by (vm_compute; reflexivity).
  rewrite Hb in T1.
  change (waitForScatterRegion region) with
    (waitForScatterRegion_loop ScatterWaitMaxRetryTimes 0 ScatterWaitInterval region).
  rewrite (bind_Done _ _ _ _ _ Hrun1). cbv beta.
  rewrite (bind_Done _ _ _ _ _ (get_world_run _)). cbv beta.
  change ScatterWaitMaxRetryTimes with 64%nat in C1.
  destruct (Z.gtb_spec (time_Now (world st1) - startTime) ScatterWaitUpperInterval)
    as [Hover|Hin].
  - exists scatterCount, st1, d1. change time.Millisecond with 1000000 in *.
    cbn [length].
    split_and!; [reflexivity|done|lia|lia|lia|done|done|done].
  - destruct (IH (S scatterCount) st1 Hin)
      as (c & st' & d2 & Hrun2 & Htr2 & T2 & T2' & C2 & Q1' & Q2' & Q3').
    exists c, st', (d1 ++ d2).
    rewrite !count_events_app, total_sleep_app, Q1, Q2, Q3, Q1', Q2', Q3'.
    change time.Millisecond with 1000000 in *. cbn [length].
    split_and!; [exact Hrun2|by rewrite Htr2, Htr1, <- app_assoc|lia|lia|lia|
                 done|done|done].
Qed.

(** X27.  The wait of [Split] for the scattered regions is bounded.
    On a clock that sleeps and operator queries do not turn back, the
    wait sleeps at most 241.5s in all: the 180s budget is looked at
    only after a region's wait is over, and one region's wait takes up
    to 61.5s.  It asks for operators only, at most 64 times per region,
    and [Split] returns nil whether the wait ran out of time or
    not. *)
Theorem Split_wait_budget (vars : SplitVars) (st : State W) :
  clock_advances -> errSplit vars = None ->
  exists st' delta,
    Split_finish (inr vars) st = Done None st'
    /\ trace st' = trace st ++ delta
    /\ 0 <= total_sleep delta <= 241500 * time.Millisecond
    /\ (count_events is_get_operator delta
        <= 64 * length (scatterRegions vars))%nat
    /\ count_events is_scan_call delta = 0%nat
    /\ count_events is_split_call delta = 0%nat
    /\ count_events is_scatter_call delta = 0%nat.
Proof.
  intros Hclock Herr. unfold Split_finish. rewrite Herr.
  rewrite (bind_Done _ _ _ _ _ (log_run _ _ _)). cbv beta.
  rewrite (bind_Done _ _ _ _ _ (get_world_run _)). cbv beta. cbn [world].
  destruct (wait_scattered_clock (time_Now (world st)) (scatterRegions vars) 0
              {| world := world st;
                 trace := trace st
                   ++ [EvLog InfoLevel "start to wait for scattering regions"] |}
              Hclock)
    as (c & st1 & d & Hrun & Htr & T & T' & C & Q1 & Q2 & Q3).
  { cbn [world]. rewrite Z.sub_diag. done. }
  cbn [world trace] in *. rewrite Z.sub_diag in T'.
  rewrite (bind_Done _ _ _ _ _ Hrun). cbv beta.
  change time.Millisecond with 1000000 in *.
  change ScatterWaitUpperInterval with 180000000000 in T'.
  destruct (c =? length (scatterRegions vars))%nat.
  - rewrite (bind_Done _ _ _ _ _ (log_run _ _ _)). cbv beta.
    eexists _, ([_] ++ d ++ [_]). cbn [world trace].
    rewrite !count_events_app, !total_sleep_app, Q1, Q2, Q3, Htr.
    split_and!; [reflexivity|by rewrite <- !app_assoc|cbn; lia|cbn; lia|
                 cbn; lia|done|done|done].
  - rewrite (bind_Done _ _ _ _ _ (log_run _ _ _)). cbv beta.
    eexists _, ([_] ++ d ++ [_]). cbn [world trace].
    rewrite !count_events_app, !total_sleep_app, Q1, Q2, Q3, Htr.
    split_and!; [reflexivity|by rewrite <- !app_assoc|cbn; lia|cbn; lia|
                 cbn; lia|done|done|done].
Qed.

End WaitBudget.

Lemma Split_wait_budget_witness :
  exists st' delta,
    Split_finish (client := Examples.scripted Examples.scatter_never_ends)
      (runtime := Examples.wall_clock)
      (inr {| interval := SplitRetryInterval;
              scatterRegions :=
                [Examples.region 2 "" "m"; Examples.region 3 "m" "";
                 Examples.region 4 "" "m"; Examples.region 5 "m" ""];
              errSplit := None |})
      Examples.start_state
    = Done None st'
    /\ trace st' = trace Examples.start_state ++ delta
    /\ 0 <= total_sleep delta <= 241500 * time.Millisecond
    /\ (count_events is_get_operator delta <= 64 * 4)%nat
    /\ count_events is_scan_call delta = 0%nat
    /\ count_events is_split_call delta = 0%nat
    /\ count_events is_scatter_call delta = 0%nat.
Proof.
  apply (Split_wait_budget (client := Examples.scripted Examples.scatter_never_ends)
           (runtime := Examples.wall_clock)
           {| interval := SplitRetryInterval;
              scatterRegions :=
                [Examples.region 2 "" "m"; Examples.region 3 "m" "";
                 Examples.region 4 "" "m"; Examples.region 5 "m" ""];
              errSplit := None |}
           Examples.start_state).
  - split.
    + intros d w Hd. cbn. lia.
    + intros regionID w. cbn. lia.
  - reflexivity.
Defined.


(** ** The progress report *)

Section Progress.
Context {W : Type} {client : SplitClient W} {runtime : Runtime W}
  {collab : Collaborators}.

Lemma plain_silent d :
  Forall plain d -> on_split_calls d = [] /\ keys_split d = [].
Proof.
  unfold keys_split. induction 1 as [|e d He _ [IH1 IH2]]; [done|].
  destruct e; try done.
Qed.

Lemma on_split_calls_app d1 d2 :
  on_split_calls (d1 ++ d2) = on_split_calls d1 ++ on_split_calls d2.
Proof. apply omap_app. Qed.

Lemma keys_split_app d1 d2 : keys_split (d1 ++ d2) = keys_split d1 ++ keys_split d2.
Proof. unfold keys_split, split_answers. by rewrite !omap_app. Qed.

Lemma yields_plain_ret {A} (a : A) :
  yields (W := W) (ret a) (fun _ d => Forall plain d).
Proof. apply yields_ret. apply Forall_nil_2. Qed.

Lemma yields_plain_bind {A B} (m : M W A) (k : A -> M W B) :
  yields m (fun _ d => Forall plain d) ->
  (forall a, yields (k a) (fun _ d => Forall plain d)) ->
  yields (bind m k) (fun _ d => Forall plain d).
Proof.
  intros Hm Hk. eapply yields_bind; [exact Hm|].
  intros a d1 H1. eapply yields_weaken; [apply Hk|].
  intros b d2 H2. by apply Forall_app.
Qed.

Lemma yields_plain_log lvl text :
  yields (W := W) (log lvl text) (fun _ d => Forall plain d).
Proof.
  eapply yields_weaken; [apply delivers_yields, delivers_log|].
  intros [] d ->. by repeat constructor.
Qed.

Lemma yields_plain_sleep t : yields (sleep t) (fun _ d => Forall plain d).
Proof.
  eapply yields_weaken; [apply delivers_yields, delivers_sleep|].
  intros [] d ->. by repeat constructor.
Qed.

Lemma yields_plain_get_world :
  yields (W := W) get_world (fun _ d => Forall plain d).
Proof.
  eapply yields_weaken; [apply delivers_yields, delivers_get_world|].
  intros w d ->. apply Forall_nil_2.
Qed.

Lemma yields_plain_rpc {A} (f : W -> A * W) (ev : A -> Event) :
  (forall a, plain (ev a)) ->
  yields (rpc f ev) (fun _ d => Forall plain d).
Proof.
  intros Hev. eapply yields_weaken; [apply delivers_yields, delivers_rpc|].
  intros a d ->. by repeat constructor.
Qed.

Lemma WithRetry_plain {B L : Type} `{!Backoffer B} fuel
    (f : L -> M W (option error * L)) (b : B) l lastErr :
  (forall l', yields (f l') (fun _ d => Forall plain d)) ->
  yields (WithRetry fuel f b l lastErr) (fun _ d => Forall plain d).
Proof.
  intros Hf. revert b l lastErr.
  induction fuel as [|fuel IH]; intros b l lastErr; cbn [WithRetry].
  { destruct (Attempt b >? 0); [apply yields_out_of_fuel|apply yields_plain_ret]. }
  destruct (Attempt b >? 0); [|apply yields_plain_ret].
  apply yields_plain_bind; [apply Hf|].
  intros [err l']. destruct err as [e|]; [|apply yields_plain_ret].
  destruct (NextBackoff b (Some e)) as [d b'].
  apply yields_plain_bind; [apply yields_plain_sleep|]. intros []. apply IH.
Qed.

Lemma waitForSplit_plain regionID :
  yields (waitForSplit regionID) (fun _ d => Forall plain d).
Proof.
  intros st a st' Hrun.
  destruct (waitForSplit_polls regionID st) as (s & d & Hrun' & Htr & Hp).
  rewrite Hrun in Hrun'. injection Hrun' as -> <-.
  exists d. split; [done|]. eapply Forall_impl; [exact Hp|].
  intros e. by destruct e.
Qed.

Lemma ScatterRegions_plain fuel newRegions :
  yields (ScatterRegions fuel newRegions) (fun _ d => Forall plain d).
Proof.
  unfold ScatterRegions, ScatterRegionsWithBackoffer.
  apply yields_plain_bind.
  - apply WithRetry_plain. intros set. unfold scatter_pass.
    apply yields_plain_bind; [apply yields_plain_log|]. intros [].
    apply yields_plain_bind; [apply yields_plain_get_world|]. intros w.
    generalize (map snd (map_range w set)). intros todo.
    generalize (@None error, set). induction todo as [|region rest IH]; intros acc;
      cbn [scatter_each]; [apply yields_plain_ret|].
    apply yields_plain_bind; [|intros acc'; apply IH].
    destruct acc as [errs set']. unfold scatter_one.
    apply yields_plain_bind; [apply waitForSplit_plain|]. intros [].
    apply yields_plain_bind; [by apply yields_plain_rpc|]. intros err.
    apply yields_plain_bind; [|intros; apply yields_plain_ret].
    destruct err as [e|]; [|apply yields_plain_ret].
    destruct (negb (pdErrorCanRetry e)); [|apply yields_plain_ret].
    apply yields_plain_bind; [apply yields_plain_log|intros; apply yields_plain_ret].
  - intros [[err b] set]. destruct err; [apply yields_plain_log|apply yields_plain_ret].
Qed.

Lemma PaginateScanRegion_plain fuel startKey endKey limit :
  yields (PaginateScanRegion fuel startKey endKey limit)
    (fun _ d => Forall plain d).
Proof.
  unfold PaginateScanRegion.
  destruct (negb (is_empty endKey) && bytes.ge startKey endKey);
    [apply yields_plain_ret|].
  apply yields_plain_bind; [|intros [[err b] regions]; apply yields_plain_ret].
  apply WithRetry_plain. intros l. unfold scan_attempt.
  apply yields_plain_bind.
  - eapply yields_weaken; [apply scan_pages_yields|].
    intros r d (_ & Hall & _). eapply Forall_impl; [exact Hall|].
    intros e. by destruct e.
  - intros [err regions]. destruct err; [apply yields_plain_ret|].
    destruct (checkRegionConsistency startKey endKey regions);
      [|apply yields_plain_ret].
    apply yields_plain_bind; [apply yields_plain_log|intros; apply yields_plain_ret].
Qed.

Lemma Split_finish_plain r :
  yields (Split_finish r) (fun _ d => Forall plain d).
Proof.
  unfold Split_finish. destruct r as [e|vars]; [apply yields_plain_ret|].
  destruct (errSplit vars); [apply yields_plain_ret|].
  apply yields_plain_bind; [apply yields_plain_log|]. intros [].
  apply yields_plain_bind; [apply yields_plain_get_world|]. intros w.
  apply yields_plain_bind.
  - generalize 0%nat. generalize (time_Now w). intros startTime.
    induction (scatterRegions vars) as [|region rest IH]; intros c;
      cbn [wait_scattered]; [apply yields_plain_ret|].
    apply yields_plain_bind.
    + intros st a st' Hrun.
      destruct (waitForScatterRegion_polls region st)
        as (s & d & Hrun' & Htr & Hp).
      rewrite Hrun in Hrun'. injection Hrun' as -> <-.
      exists d. split; [done|]. eapply Forall_impl; [exact Hp|].
      intros e. by destruct e.
    + intros []. apply yields_plain_bind; [apply yields_plain_get_world|].
      intros w'. destruct (_ >? _); [apply yields_plain_ret|apply IH].
  - intros c. apply yields_plain_bind; [|intros; apply yields_plain_ret].
    destruct (_ =? _)%nat; apply yields_plain_log.
Qed.

Lemma log_no_valid_key_plain keys :
  yields (W := W) (log_no_valid_key keys) (fun _ d => Forall plain d).
Proof.
  induction keys as [|k keys IH]; cbn [log_no_valid_key]; [apply yields_plain_ret|].
  apply yields_plain_bind; [apply yields_plain_log|by intros].
Qed.

(** One entry of the plan: one batch split, and nothing else of
    note. *)
Lemma splitAndScatterRegions_progress fuel region keys :
  keys <> [] ->
  yields (splitAndScatterRegions fuel region keys)
    (fun r d =>
       on_split_calls d = []
       /\ keys_split d = match snd r with None => [keys] | Some _ => [] end).
Proof.
  intros Hkeys. unfold splitAndScatterRegions. destruct keys as [|k keys']; [done|].
  eapply yields_bind; [apply delivers_yields, delivers_rpc|].
  intros [newRegions err] d1 ->. destruct err as [e|].
  { apply yields_ret. by rewrite app_nil_r. }
  destruct (last newRegions) as [lastRegion|]; [|apply yields_panic].
  destruct (last (k :: keys')) as [lastKey|]; [|apply yields_panic].
  eapply yields_bind; [apply ScatterRegions_plain|].
  intros [] d2 [H1 H2]%plain_silent. apply yields_ret.
  rewrite app_nil_r, on_split_calls_app, keys_split_app, H1, H2. done.
Qed.

Lemma split_plan_progress fuel regionMap plan vars :
  Forall (fun entry => snd entry <> []) plan ->
  yields (split_plan fuel regionMap plan vars)
    (fun r d =>
       on_split_calls d = keys_split d
       /\ (fst r = FallThrough -> on_split_calls d = map snd plan)).
Proof.
  intros Hplan. revert vars.
  induction Hplan as [|[regionID keys] plan Hkeys _ IH]; intros vars;
    cbn [split_plan]; [by apply yields_ret|].
  destruct (regionMap !! regionID) as [region|]; [|apply yields_panic].
  eapply yields_bind; [apply yields_plain_log|].
  intros [] d1 [L1 L2]%plain_silent.
  eapply yields_bind; [by apply splitAndScatterRegions_progress|].
  intros [newRegions err] d2 [P2 K2]. cbn [snd] in K2.
  destruct err as [e|].
  - destruct (strings.Contains (errors.msg e) "no valid key").
    + eapply yields_bind; [apply log_no_valid_key_plain|].
      intros [] d3 [L3 K3]%plain_silent. apply yields_ret.
      rewrite app_nil_r, !on_split_calls_app, !keys_split_app.
      rewrite L1, L2, P2, K2, L3, K3. done.
    + eapply yields_bind; [apply yields_plain_sleep|].
      intros [] d3 [L3 K3]%plain_silent.
      eapply yields_bind; [apply yields_plain_log|].
      intros [] d4 [L4 K4]%plain_silent. apply yields_ret.
      rewrite app_nil_r, !on_split_calls_app, !keys_split_app.
      rewrite L1, L2, P2, K2, L3, K3, L4, K4. done.
  - eapply yields_bind with (Q1 := fun _ d => Forall plain d).
    { destruct (negb _); [apply yields_plain_log|apply yields_plain_ret]. }
    intros [] d3 [L3 K3]%plain_silent.
    eapply yields_bind; [apply delivers_yields, delivers_emit|].
    intros [] d4 ->.
    eapply yields_weaken; [apply IH|].
    intros r d5 [P5 F5].
    rewrite !on_split_calls_app, !keys_split_app.
    rewrite L1, L2, P2, K2, L3, K3, P5. cbn. split; [done|].
    intros Hf. by rewrite <- P5, (F5 Hf).
Qed.

Lemma SplitRegions_loop_progress n fuel rewriteRules sortedRanges minKey maxKey vars :
  yields (SplitRegions_loop n fuel rewriteRules sortedRanges minKey maxKey vars)
    (fun _ d => on_split_calls d = keys_split d).
Proof.
  revert vars. induction n as [|n IH]; intros vars; cbn [SplitRegions_loop];
    [by apply yields_ret|].
  eapply yields_bind; [apply PaginateScanRegion_plain|].
  intros [regions errScan] d1 [L1 K1]%plain_silent.
  destruct errScan as [e|].
  { destruct (errors.Equal berrors.ErrPDBatchScanRegion (Some e)).
    - eapply yields_bind; [apply yields_plain_log|].
      intros [] d2 [L2 K2]%plain_silent.
      eapply yields_bind; [apply yields_plain_sleep|].
      intros [] d3 [L3 K3]%plain_silent.
      eapply yields_weaken; [apply IH|]. intros r d4 H4.
      rewrite !on_split_calls_app, !keys_split_app.
      by rewrite L1, K1, L2, K2, L3, K3, H4.
    - apply yields_ret. by rewrite app_nil_r, L1, K1. }
  eapply yields_bind; [apply yields_plain_get_world|].
  intros w d2 [L2 K2]%plain_silent.
  eapply yields_bind.
  { apply split_plan_progress. apply Forall_forall. intros [regionID keys] Hin.
    by apply plan_entry_ok in Hin as [? _]. }
  intros [ctl vars'] d3 [P3 _]. destruct ctl as [| |e].
  - apply yields_ret.
    rewrite app_nil_r, !on_split_calls_app, !keys_split_app.
    by rewrite L1, K1, L2, K2, P3.
  - eapply yields_weaken; [apply IH|]. intros r d4 H4.
    rewrite !on_split_calls_app, !keys_split_app.
    by rewrite L1, K1, L2, K2, P3, H4.
  - apply yields_ret.
    rewrite app_nil_r, !on_split_calls_app, !keys_split_app.
    by rewrite L1, K1, L2, K2, P3.
Qed.

(** X28.  Progress is reported for the splits that were made, and for
    nothing else: in every run of [Split] that returns, with or
    without an error, the progress callback has been called once for
    each batch split that went through, with the keys of that split
    and in the order of the splits; a split that failed is not
    reported. *)
Theorem Split_reports_progress (fuel : nat) (ranges : list rtree.Range)
    (rewriteRules : RewriteRules) (st st' : State W) (r : option error) :
  Split fuel ranges rewriteRules st = Done r st' ->
  exists delta,
    trace st' = trace st ++ delta
    /\ on_split_calls delta = keys_split delta.
Proof.
  assert (H : yields (Split fuel ranges rewriteRules)
                (fun _ d => on_split_calls d = keys_split d)).
  { unfold Split. destruct ranges as [|rg ranges'].
    { eapply yields_bind; [apply yields_plain_log|].
      intros [] d1 [L1 K1]%plain_silent. apply yields_ret.
      by rewrite app_nil_r, L1, K1. }
    destruct (SortRanges (rg :: ranges') rewriteRules) as [sortedRanges errSort].
    destruct errSort as [e|]; [by apply yields_ret|].
    destruct (head sortedRanges) as [firstRange|]; [|apply yields_panic].
    destruct (last sortedRanges) as [lastRange|]; [|apply yields_panic].
    eapply yields_bind; [apply SplitRegions_loop_progress|].
    intros res d1 H1.
    eapply yields_weaken; [apply Split_finish_plain|].
    intros a d2 [L2 K2]%plain_silent.
    by rewrite on_split_calls_app, keys_split_app, L2, K2, !app_nil_r. }
  intros Hrun. destruct (H _ _ _ Hrun) as (delta & Htr & Hd).
  exists delta. split; [exact Htr|exact Hd].
Qed.

End Progress.

Lemma Split_reports_progress_witness :
  exists st' delta,
    Split (client := Examples.scripted Examples.splits_at_m)
      (runtime := Examples.wall_clock) (collab := Examples.collaborators)
      7 [Examples.range "a" "m"] Examples.no_rules Examples.start_state
    = Done None st'
    /\ trace st' = trace Examples.start_state ++ delta
    /\ on_split_calls delta = keys_split delta
    /\ on_split_calls (trace st') = [[bs "m"]].
Proof.
  assert (Hrun : exists st',
    Split (client := Examples.scripted Examples.splits_at_m)
      (runtime := Examples.wall_clock) (collab := Examples.collaborators)
      7 [Examples.range "a" "m"] Examples.no_rules Examples.start_state
    = Done None st'
    /\ on_split_calls (trace st') = [[bs "m"]]).
  { eexists. split; vm_compute; reflexivity. }
  destruct Hrun as (st' & Hrun & Hcalls).
  destruct (Split_reports_progress
              (client := Examples.scripted Examples.splits_at_m)
              (runtime := Examples.wall_clock) (collab := Examples.collaborators)
              7 [Examples.range "a" "m"] Examples.no_rules Examples.start_state
              st' None Hrun) as (delta & Htr & Hd).
  exists st', delta. split_and!; [exact Hrun|exact Htr|exact Hd|exact Hcalls].
Defined.

(** ** The raw restore task *)

Section TaskFacts.
Import task.

(** X29.  Whatever the collaborators answer, [RunRestoreRaw] gives back
    what it took, on every way out: the calls it makes are followed by
    the releases of exactly the resources it had obtained, the last
    obtained first (the schedulers put back, the client closed, the
    manager closed), then the cancellation of its context and the
    summary; no release comes earlier. *)
Theorem RunRestoreRaw_releases (a : Answers) (cmdName : string)
    (cfg : RestoreRawConfig) :
  exists body,
    snd (RunRestoreRaw a cmdName cfg) = body ++ releases_for cmdName body
    /\ forallb (fun e => negb (is_release e)) body = true.
Proof.
  unfold RunRestoreRaw, leave. generalize (adjust a cfg). intros cfg'.
  cbv zeta. destruct (Online cfg');
  (destruct (NewMgr a) as [e1|]; [run_leaves|]);
  (destruct (NewRestoreClient a) as [e2|]; [run_leaves|]);
  (destruct (ReadBackupMeta a) as [size [e3|]]; cbn [fst snd]; [run_leaves|]);
  (destruct (InitBackupMeta a) as [e4|]; [run_leaves|]);
  (destruct (IsRawKvMode a); cbn [negb]; [|run_leaves]);
  (destruct (GetFilesInRawRange a) as [files [e5|]]; cbn [fst snd]; [run_leaves|]);
  (destruct files as [|f files]; cbn [length Nat.eqb]; [run_leaves|]);
  (destruct (MergeFileRanges a) as [ranges [e6|]]; cbn [fst snd]; [run_leaves|]);
  (destruct (restorePreWork a) as [schedulers [e7|]]; cbn [fst snd]; [run_leaves|]);
  (destruct (RestoreRaw a) as [e8|]; run_leaves).
Qed.

(** X30.  How a raw restore ends.  [RunRestoreRaw] returns nil in two
    cases only: the client restored the files, or no file of the
    backup lies in the key range.  The task is reported as a success
    exactly in the first case: a run that finds nothing to restore
    returns nil and leaves the success status unset.  The restore
    itself is attempted only with at least one file, on a backup found
    to be in raw mode, and after the schedulers were taken off. *)
Theorem RunRestoreRaw_outcome (a : Answers) (cmdName : string)
    (cfg : RestoreRawConfig) :
  let run := RunRestoreRaw a cmdName cfg in
  (fst run = None
   <-> restored (snd run) = true \/ nothing_to_restore (snd run) = true)
  /\ reported_success (snd run) = restored (snd run)
  /\ (nothing_to_restore (snd run) = true -> reported_success (snd run) = false)
  /\ attempted_without_files (snd run) = false
  /\ (attempted (snd run) = true ->
      raw_mode (snd run) = true /\ schedulers_removed (snd run) = true).
Proof.
  cbv zeta. unfold RunRestoreRaw, leave. generalize (adjust a cfg). intros cfg'.
  cbv zeta. destruct (Online cfg');
  (destruct (NewMgr a) as [e1|]; [outcome_leaf|]);
  (destruct (NewRestoreClient a) as [e2|]; [outcome_leaf|]);
  (destruct (ReadBackupMeta a) as [size [e3|]]; cbn [fst snd]; [outcome_leaf|]);
  (destruct (InitBackupMeta a) as [e4|]; [outcome_leaf|]);
  (destruct (IsRawKvMode a); cbn [negb]; [|outcome_leaf]);
  (destruct (GetFilesInRawRange a) as [files [e5|]]; cbn [fst snd]; [outcome_leaf|]);
  (destruct files as [|f files]; cbn [length Nat.eqb]; [outcome_leaf|]);
  (destruct (MergeFileRanges a) as [ranges [e6|]]; cbn [fst snd]; [outcome_leaf|]);
  (destruct (restorePreWork a) as [schedulers [e7|]]; cbn [fst snd]; [outcome_leaf|]);
  (destruct (RestoreRaw a) as [e8|]; outcome_leaf).
Qed.

End TaskFacts.
